(** * MephistoVault: the peer-to-peer transfer core of [src/App.tsx]

    A shallow embedding of the session/transfer protocol implemented by the
    React component [App]: key derivation from the room code, the XOR
    scramble applied to every chunk, the sender's [sendChunk], the receiver's
    connection handlers of [handleConnectReceiver], [finalizeDownload],
    [resetConnection], the handshake interval and the self-destruct effect;
    and, in a second part, of what surrounds it: [generateCode], the peer
    identifiers of the two sides, the data handlers of [connectToDevice] and
    of the room named in the page address, the sender's room of several
    connections ([initSender]), the list of nearby devices, [formatTime],
    the ZIP preview, and [processFiles], [scanEntry] and [handleDrop].

    Conventions.
    - JavaScript numbers that hold integers (PINs, offsets, sizes, byte
      values, percentages) are [Z].  In [(received / size) * 100] the
      quotient and the product are each rounded to a double
      ([JS.to_double], on [Q]); the products under [Math.floor] in
      [generateCode] are exact in [Q].
    - A string is the list of its characters.  The fragments of [JS] on
      strings (white space, letter case, digits) are those of JavaScript on
      ASCII text, and [JS.parseInt] returns the exact integer, which is the
      Number of JavaScript whenever that is a safe integer; what depends on
      the key of an arbitrary room code is stated for such codes
      ([plain_code]).
    - An [ArrayBuffer] / [Uint8Array] is a [list Z] of values in [0, 256);
      a store into a [Uint8Array] is written out as [mod 256].
    - React state and refs of the component are the fields of one record
      [App]; every handler is a function on that record which also returns
      the messages it sends over the data connection.  State that only a
      sender or only the list of nearby devices uses is kept beside it.
    - Variables captured by a closure when a handler is registered (the
      [receiveCode] and [transferProgress] of the render that ran
      [handleConnectReceiver], the [shareCode] seen by [sendChunk]) are
      explicit parameters of the handler.
    - Timers are the events of their firing: an interval is recorded with
      its period when [setInterval] registers it, and fires as an event
      while it is scheduled.  After each handler the effects whose
      dependencies changed are run, as React does after the render.
    - What the environment decides is a parameter: the numbers returned by
      [Math.random], the time [Date.now()], the content produced by the ZIP
      library.
    - Not modelled: the layout of the user interface, the chat input, theme
      and language, the QR scanner, sound, clipboard and previews,
      [formatBytes] (floating-point logarithms), the error handlers of the
      two other receiver paths, and failures of file reads. *)

From Stdlib Require Import ZArith String Ascii Bool Lia QArith Qround Qpower Qabs Lqa List Sorted.
Import ListNotations.

Local Open Scope Z_scope.

(** ** Fragments of the JavaScript runtime used by the core *)

Module JS.

(** [s.split(sep)] for a one-character separator. *)
Fixpoint split (sep : ascii) (s : string) : list string :=
  match s with
  | EmptyString => [EmptyString]
  | String c s' =>
      if Ascii.eqb c sep then EmptyString :: split sep s'
      else match split sep s' with
           | [] => [String c EmptyString]
           | p :: ps => String c p :: ps
           end
  end.

(** [x || d] where [x] is a string or [undefined]: the empty string and
    [undefined] are falsy. *)
Definition str_or (x : option string) (d : string) : string :=
  match x with
  | Some (String c s) => String c s
  | _ => d
  end.

(** [x || d] where [x] is a number: [NaN] (here [None]) and [0] are falsy. *)
Definition num_or (x : option Z) (d : Z) : Z :=
  match x with
  | Some 0 | None => d
  | Some v => v
  end.

Definition code (c : ascii) : Z := Z.of_N (N_of_ascii c).

(** White space skipped by [parseInt] (the ASCII part of StrWhiteSpaceChar). *)
Definition is_white (c : ascii) : bool :=
  let n := code c in ((9 <=? n) && (n <=? 13)) || (n =? 32).

Fixpoint trim_start (s : string) : string :=
  match s with
  | String c s' => if is_white c then trim_start s' else s
  | EmptyString => s
  end.

(** Value of [c] as a digit in the given radix, if it is one. *)
Definition digit_val (radix : Z) (c : ascii) : option Z :=
  let n := code c in
  let v := if (48 <=? n) && (n <=? 57) then n - 48
           else if (97 <=? n) && (n <=? 122) then n - 87
           else if (65 <=? n) && (n <=? 90) then n - 55
           else 36 in
  if v <? radix then Some v else None.

(** Value of the longest prefix of [s] made of digits; [acc] is the value
    read so far, [None] while no digit has been read. *)
Fixpoint digits (radix : Z) (s : string) (acc : option Z) : option Z :=
  match s with
  | String c s' =>
      match digit_val radix c with
      | Some d =>
          digits radix s'
            (Some (radix * match acc with Some a => a | None => 0 end + d))
      | None => acc
      end
  | EmptyString => acc
  end.

(** [parseInt(s)] with no radix argument; [None] is [NaN].  The value is
    the exact integer, which is what JavaScript returns below 2^53. *)
Definition parseInt (s : string) : option Z :=
  let s1 := trim_start s in
  let '(sign, s2) :=
    match s1 with
    | String "-" r => (-1, r)
    | String "+" r => (1, r)
    | _ => (1, s1)
    end in
  let '(radix, s3) :=
    match s2 with
    | String "0" (String "x" r) => (16, r)
    | String "0" (String "X" r) => (16, r)
    | _ => (10, s2)
    end in
  option_map (Z.mul sign) (digits radix s3 None).

(** [s.toLowerCase()] on ASCII text. *)
Definition lower_char (c : ascii) : ascii :=
  if (65 <=? code c) && (code c <=? 90)
  then ascii_of_N (N_of_ascii c + 32)
  else c.

Fixpoint toLowerCase (s : string) : string :=
  match s with
  | EmptyString => EmptyString
  | String c s' => String (lower_char c) (toLowerCase s')
  end.

(** [a % b] on integers: the remainder has the sign of the dividend. *)
Definition rem (a b : Z) : Z := Z.rem a b.

(** [Math.round]: the nearest integer, halves rounded towards +infinity. *)
Definition Math_round (x : Q) : Z := Qfloor (x + (1 # 2)).

(** The exponent of the binade of [x > 0]: the [e] with [2^e <= x < 2^(e+1)]. *)
Definition binade (x : Q) : Z :=
  let e := Z.log2 (Qnum x) - Z.log2 (Zpos (Qden x)) in
  if Qle_bool (2 ^ e)%Q x then e else e - 1.

(** The nearest integer, a half going to the even neighbour. *)
Definition round_half_even (x : Q) : Z :=
  let f := Qfloor x in
  match (x - inject_Z f ?= 1 # 2)%Q with
  | Lt => f
  | Gt => f + 1
  | Eq => if Z.even f then f else f + 1
  end.

(** The Number (an IEEE 754 double) that an arithmetic operation returns
    when its exact result is [x]: the nearest number with a significand of
    53 bits, a tie going to the even significand.  The exponent is not
    bounded here; the quotients and products of integers below 2^53 that
    the component computes stay far inside the range of a double. *)
Definition to_double (x : Q) : Q :=
  match Qnum x with
  | 0 => 0%Q
  | Zpos _ =>
      let ulp := (2 ^ (binade x - 52))%Q in
      (inject_Z (round_half_even (x / ulp)) * ulp)%Q
  | Zneg _ =>
      let ulp := (2 ^ (binade (- x) - 52))%Q in
      (- (inject_Z (round_half_even (- x / ulp)) * ulp))%Q
  end.

(** [a / b] and [a * b] on Numbers, for a divisor other than 0. *)
Definition div (a b : Q) : Q := to_double (a / b).
Definition mul (a b : Q) : Q := to_double (a * b).

(** Conversion applied by a store into a [Uint8Array]. *)
Definition to_uint8 (z : Z) : Z := z mod 256.

(** [blob.slice(start, end)] on the bytes of a [Blob]. *)
Definition blob_slice (data : list Z) (start end_ : Z) : list Z :=
  let sz := Z.of_nat (List.length data) in
  let rel x := if x <? 0 then Z.max (sz + x) 0 else Z.min x sz in
  let s := rel start in
  let e := rel end_ in
  let span := Z.max (e - s) 0 in
  firstn (Z.to_nat span) (skipn (Z.to_nat s) data).

(** [Math.floor] *)
Definition Math_floor (x : Q) : Z := Qfloor x.

(** [s.charAt(i)]: the empty string when [i] is out of range. *)
Definition charAt (s : string) (i : Z) : string :=
  if i <? 0 then EmptyString
  else match String.get (Z.to_nat i) s with
       | Some c => String c EmptyString
       | None => EmptyString
       end.

(** [s.substring(start, end)]: both indices are clamped to the string and
    swapped when they come in the wrong order. *)
Definition substring (s : string) (start end_ : Z) : string :=
  let len := Z.of_nat (String.length s) in
  let clamp x := Z.min (Z.max x 0) len in
  let a := Z.min (clamp start) (clamp end_) in
  let b := Z.max (clamp start) (clamp end_) in
  String.substring (Z.to_nat a) (Z.to_nat (b - a)) s.

(** The decimal digit [d] as a character. *)
Definition digit_char (d : Z) : ascii := ascii_of_N (Z.to_N (48 + d)).

(** The decimal digits of [n], least significant first, put in front of
    [acc]; [fuel] bounds the number of digits. *)
Fixpoint to_digits (fuel : nat) (n : Z) (acc : string) : string :=
  match fuel with
  | O => acc
  | S fuel' =>
      let acc' := String (digit_char (n mod 10)) acc in
      if n <? 10 then acc' else to_digits fuel' (n / 10) acc'
  end.

(** [String(n)], and [n] in a template literal, for an integer [n] (below
    1e21 in absolute value, where JavaScript writes all the digits). *)
Definition number_toString (n : Z) : string :=
  if n <? 0
  then String "-" (to_digits (S (Z.to_nat (Z.log2 (- n)))) (- n) EmptyString)
  else to_digits (S (Z.to_nat (Z.log2 n))) n EmptyString.

Fixpoint trim_end (s : string) : string :=
  match s with
  | EmptyString => EmptyString
  | String c s' =>
      match trim_end s' with
      | EmptyString => if is_white c then EmptyString else String c EmptyString
      | t => String c t
      end
  end.

(** [s.trim()], on the ASCII white space. *)
Definition trim (s : string) : string := trim_end (trim_start s).

(** [s.replace(pat, new)] for a one-character string [pat]: only the first
    occurrence is replaced. *)
Fixpoint replace_first (pat : ascii) (new : string) (s : string) : string :=
  match s with
  | EmptyString => EmptyString
  | String c s' =>
      if Ascii.eqb c pat then (new ++ s')%string
      else String c (replace_first pat new s')
  end.

(** [s.replace(/pat/g, new)] for a one-character pattern. *)
Fixpoint replace_all (pat : ascii) (new : string) (s : string) : string :=
  match s with
  | EmptyString => EmptyString
  | String c s' =>
      if Ascii.eqb c pat then (new ++ replace_all pat new s')%string
      else String c (replace_all pat new s')
  end.

(** [s.padStart(target, fill)] for a one-character [fill]. *)
Definition padStart (s : string) (target : nat) (fill : ascii) : string :=
  (string_of_list_ascii (repeat fill (target - String.length s)) ++ s)%string.

(** [s.includes(c)] for a one-character string [c]. *)
Fixpoint includes (c : ascii) (s : string) : bool :=
  match s with
  | EmptyString => false
  | String c' s' => Ascii.eqb c' c || includes c s'
  end.

(** [l.sort(cmp)]: the sort is stable, so for a comparator that is a total
    preorder the result is that of any stable sort; this one inserts from
    the right, an element going before the elements it does not exceed. *)
Fixpoint sort_insert {A : Type} (cmp : A -> A -> Z) (x : A) (l : list A) : list A :=
  match l with
  | [] => [x]
  | y :: l' => if cmp x y <=? 0 then x :: y :: l' else y :: sort_insert cmp x l'
  end.

Definition sort {A : Type} (cmp : A -> A -> Z) (l : list A) : list A :=
  fold_right (sort_insert cmp) [] l.

End JS.

(** ** Data *)

Definition bytes := list Z.

Definition is_byte (b : Z) : Prop := 0 <= b < 256.

Definition CHUNK_SIZE : Z := 16 * 1024.
Definition SELF_DESTRUCT_SEC : Z := 300.

(** Period, in milliseconds, of the handshake interval and of the
    self-destruct interval. *)
Definition HANDSHAKE_MS : Z := 500.
Definition SELF_DESTRUCT_TICK_MS : Z := 1000.

(** ** Room code: obfuscation key *)

(** [const pinStr = code.split('#')[1] || "0"] *)
Definition pinStr (code : string) : string :=
  JS.str_or (nth_error (JS.split "#" code) 1) "0".

(** [const pin = parseInt(pinStr) || 1024] *)
Definition pin (code : string) : Z :=
  JS.num_or (JS.parseInt (pinStr code)) 1024.

(** The key [(pin % 256)] used in the XOR loops of [sendChunk] and of the
    receiver's chunk branch. *)
Definition deriveKey (code : string) : Z := JS.rem (pin code) 256.

(** [for (let i = 0; i < scrambled.length; i++) scrambled[i] ^= k] on a
    [Uint8Array]. *)
Definition scramble (k : Z) (buf : bytes) : bytes :=
  map (fun b => JS.to_uint8 (Z.lxor b k)) buf.

(** The room-code format [^[a-z0-9]{3}-[a-z0-9]{3}#[0-9]{4}$]. *)
Definition is_digit (c : ascii) : bool :=
  (48 <=? JS.code c) && (JS.code c <=? 57).

Definition is_lower_alnum (c : ascii) : bool :=
  is_digit c || ((97 <=? JS.code c) && (JS.code c <=? 122)).

Definition valid_room_code (code : string) : bool :=
  match list_ascii_of_string code with
  | [a1; a2; a3; dash; b1; b2; b3; hash; p1; p2; p3; p4] =>
      forallb is_lower_alnum [a1; a2; a3; b1; b2; b3]
      && Ascii.eqb dash "-" && Ascii.eqb hash "#"
      && forallb is_digit [p1; p2; p3; p4]
  | _ => false
  end.

(** The room codes on which the fragments of [JS] above are exactly those
    of JavaScript, so that [deriveKey] is the key the program computes:
    every character is an ASCII character, and the number read from the PIN
    text is a safe integer, which a double holds exactly. *)
Definition ascii_text (s : string) : bool :=
  forallb (fun c => JS.code c <? 128) (list_ascii_of_string s).

(** [Number.isSafeInteger(z)] for an integer [z]. *)
Definition safe_integer (z : Z) : bool := Z.abs z <=? 9007199254740991.

Definition plain_code (code : string) : bool :=
  ascii_text code && safe_integer (pin code).

(** ** Messages on the data connection *)

Record FileMeta := { meta_name : string; meta_size : Z; meta_type : string }.

(** A [File] chosen by the sender; [file.size] is the length of its content. *)
Record File := { file_name : string; file_type : string; file_bytes : bytes }.

Definition file_size (f : File) : Z := Z.of_nat (List.length (file_bytes f)).

Record Blob := { blob_bytes : bytes; blob_type : string }.

Record CompletedFile := { cf_blob : Blob; cf_name : string; cf_type : string }.

(** The objects sent with [conn.send], by their [type] field.  The [buffer]
    of a chunk is [None] when the field is missing or otherwise falsy. *)
Inductive Msg : Type :=
| request_metadata
| metadata (name : string) (size : Z) (mime : string)
| request_chunk (offset : Z)
| chunk (buffer : option bytes) (offset : Z)
| chat (text : string)
| other.

(** ** State of the component *)

Inductive Mode : Type := idle | send | receive.

Record App := mkApp {
  (* React state *)
  mode : Mode;
  isConnected : bool;
  errorStatus : option string;
  transferProgress : Z;
  fileMeta : option FileMeta;
  completedFile : option CompletedFile;
  chatMessages : list string;
  selfDestructSec : Z;
  sessionTransfers : Z;
  (* refs *)
  peerRef : bool;                    (* a Peer object is held *)
  connRef : option nat;              (* the connection held, by id *)
  fileToShareRef : option File;
  fileMetaRef : option FileMeta;
  receivedChunksRef : list bytes;
  receivedBytesRef : Z;
  selfDestructRef : option nat;      (* id returned by setInterval *)
  (* browser environment of a receiver's session *)
  conn_open : bool;                  (* [conn.open] of its DataConnection *)
  handshakeInterval : option Z;      (* period of the handshake interval, while scheduled *)
  intervals : list (nat * Z);        (* scheduled self-destruct intervals: id, period *)
  next_interval : nat                (* next id setInterval hands out *)
}.

(** Field updates: [set_f v a] is [a] with field [f] replaced by [v]; the
    fields are matched in the order of the record. *)

Definition set_mode (v : Mode) (a : App) : App :=
  let 'mkApp _ ic es tp fm cf cm sd st pr cr fs fr rc rb sr co hi iv ni := a in
  mkApp v ic es tp fm cf cm sd st pr cr fs fr rc rb sr co hi iv ni.

Definition set_isConnected (v : bool) (a : App) : App :=
  let 'mkApp m _ es tp fm cf cm sd st pr cr fs fr rc rb sr co hi iv ni := a in
  mkApp m v es tp fm cf cm sd st pr cr fs fr rc rb sr co hi iv ni.

Definition set_errorStatus (v : option string) (a : App) : App :=
  let 'mkApp m ic _ tp fm cf cm sd st pr cr fs fr rc rb sr co hi iv ni := a in
  mkApp m ic v tp fm cf cm sd st pr cr fs fr rc rb sr co hi iv ni.

Definition set_transferProgress (v : Z) (a : App) : App :=
  let 'mkApp m ic es _ fm cf cm sd st pr cr fs fr rc rb sr co hi iv ni := a in
  mkApp m ic es v fm cf cm sd st pr cr fs fr rc rb sr co hi iv ni.

Definition set_fileMeta (v : option FileMeta) (a : App) : App :=
  let 'mkApp m ic es tp _ cf cm sd st pr cr fs fr rc rb sr co hi iv ni := a in
  mkApp m ic es tp v cf cm sd st pr cr fs fr rc rb sr co hi iv ni.

Definition set_completedFile (v : option CompletedFile) (a : App) : App :=
  let 'mkApp m ic es tp fm _ cm sd st pr cr fs fr rc rb sr co hi iv ni := a in
  mkApp m ic es tp fm v cm sd st pr cr fs fr rc rb sr co hi iv ni.

Definition set_chatMessages (v : list string) (a : App) : App :=
  let 'mkApp m ic es tp fm cf _ sd st pr cr fs fr rc rb sr co hi iv ni := a in
  mkApp m ic es tp fm cf v sd st pr cr fs fr rc rb sr co hi iv ni.

Definition set_selfDestructSec (v : Z) (a : App) : App :=
  let 'mkApp m ic es tp fm cf cm _ st pr cr fs fr rc rb sr co hi iv ni := a in
  mkApp m ic es tp fm cf cm v st pr cr fs fr rc rb sr co hi iv ni.

Definition set_sessionTransfers (v : Z) (a : App) : App :=
  let 'mkApp m ic es tp fm cf cm sd _ pr cr fs fr rc rb sr co hi iv ni := a in
  mkApp m ic es tp fm cf cm sd v pr cr fs fr rc rb sr co hi iv ni.

Definition set_peerRef (v : bool) (a : App) : App :=
  let 'mkApp m ic es tp fm cf cm sd st _ cr fs fr rc rb sr co hi iv ni := a in
  mkApp m ic es tp fm cf cm sd st v cr fs fr rc rb sr co hi iv ni.

Definition set_connRef (v : option nat) (a : App) : App :=
  let 'mkApp m ic es tp fm cf cm sd st pr _ fs fr rc rb sr co hi iv ni := a in
  mkApp m ic es tp fm cf cm sd st pr v fs fr rc rb sr co hi iv ni.

Definition set_fileToShareRef (v : option File) (a : App) : App :=
  let 'mkApp m ic es tp fm cf cm sd st pr cr _ fr rc rb sr co hi iv ni := a in
  mkApp m ic es tp fm cf cm sd st pr cr v fr rc rb sr co hi iv ni.

Definition set_fileMetaRef (v : option FileMeta) (a : App) : App :=
  let 'mkApp m ic es tp fm cf cm sd st pr cr fs _ rc rb sr co hi iv ni := a in
  mkApp m ic es tp fm cf cm sd st pr cr fs v rc rb sr co hi iv ni.

Definition set_receivedChunksRef (v : list bytes) (a : App) : App :=
  let 'mkApp m ic es tp fm cf cm sd st pr cr fs fr _ rb sr co hi iv ni := a in
  mkApp m ic es tp fm cf cm sd st pr cr fs fr v rb sr co hi iv ni.

Definition set_receivedBytesRef (v : Z) (a : App) : App :=
  let 'mkApp m ic es tp fm cf cm sd st pr cr fs fr rc _ sr co hi iv ni := a in
  mkApp m ic es tp fm cf cm sd st pr cr fs fr rc v sr co hi iv ni.

Definition set_selfDestructRef (v : option nat) (a : App) : App :=
  let 'mkApp m ic es tp fm cf cm sd st pr cr fs fr rc rb _ co hi iv ni := a in
  mkApp m ic es tp fm cf cm sd st pr cr fs fr rc rb v co hi iv ni.

Definition set_conn_open (v : bool) (a : App) : App :=
  let 'mkApp m ic es tp fm cf cm sd st pr cr fs fr rc rb sr _ hi iv ni := a in
  mkApp m ic es tp fm cf cm sd st pr cr fs fr rc rb sr v hi iv ni.

Definition set_handshakeInterval (v : option Z) (a : App) : App :=
  let 'mkApp m ic es tp fm cf cm sd st pr cr fs fr rc rb sr co _ iv ni := a in
  mkApp m ic es tp fm cf cm sd st pr cr fs fr rc rb sr co v iv ni.

Definition set_intervals (v : list (nat * Z)) (a : App) : App :=
  let 'mkApp m ic es tp fm cf cm sd st pr cr fs fr rc rb sr co hi _ ni := a in
  mkApp m ic es tp fm cf cm sd st pr cr fs fr rc rb sr co hi v ni.

Definition set_next_interval (v : nat) (a : App) : App :=
  let 'mkApp m ic es tp fm cf cm sd st pr cr fs fr rc rb sr co hi iv _ := a in
  mkApp m ic es tp fm cf cm sd st pr cr fs fr rc rb sr co hi iv v.

Notation "a |> f" := (f a) (at level 45, left associativity, only parsing).

(** Values of [useState] and [useRef] at mount. *)
Definition initial : App :=
  {| mode := idle; isConnected := false; errorStatus := None;
     transferProgress := -1; fileMeta := None; completedFile := None;
     chatMessages := []; selfDestructSec := 0; sessionTransfers := 0;
     peerRef := false; connRef := None; fileToShareRef := None;
     fileMetaRef := None; receivedChunksRef := []; receivedBytesRef := 0;
     selfDestructRef := None; conn_open := false; handshakeInterval := None;
     intervals := []; next_interval := 1 |}.

Definition is_some {A : Type} (x : option A) : bool :=
  match x with Some _ => true | None => false end.

(** ** Teardown *)

Definition clearInterval (id : nat) (a : App) : App :=
  set_intervals (filter (fun i => negb (Nat.eqb (fst i) id)) (intervals a)) a.

(** [resetConnection], on the state of one session.  The connection and the
    peer that owns it are closed; what it does to the sender's room list
    [multiConnsRef] and to [peerCount] is in [room_reset]; [connTime] is
    left out. *)
Definition resetConnection (a : App) : App :=
  let a := match connRef a with
           | Some _ => a |> set_conn_open false |> set_connRef None
           | None => a
           end in
  let a := if peerRef a
           then a |> set_conn_open false |> set_peerRef false
           else a in
  let a := a |> set_isConnected false
             |> set_transferProgress (-1)
             |> set_fileMeta None
             |> set_fileMetaRef None
             |> set_receivedChunksRef []
             |> set_receivedBytesRef 0
             |> set_completedFile None
             |> set_chatMessages []
             |> set_errorStatus None
             |> set_selfDestructSec 0 in
  match selfDestructRef a with
  | Some id => a |> clearInterval id |> set_selfDestructRef None
  | None => a
  end.

(** ** Sender *)

(** [Math.round((part / whole) * 100)], the quotient and the product each
    rounded to a double.  For [whole = 0] the quotient of JavaScript is not
    a finite number; the receiver never uses the value then, as it tests
    [received < size] first, and the sender only for a request that ends
    before the start of an empty file. *)
Definition percent (part whole : Z) : Z :=
  JS.Math_round (JS.mul (JS.div (inject_Z part) (inject_Z whole)) (inject_Z 100)).

(** [sendChunk(offset, targetConn)], with the chunk size as a parameter; the
    component uses it at [CHUNK_SIZE].  The reply is paired with the
    connection it is sent on.  A rejected [arrayBuffer()] read (the [catch]
    branch) is an I/O failure outside this model. *)
Definition sendChunk_sized (chunk_size : Z) (shareCode : string)
    (offset : Z) (targetConn : option nat) (a : App) : App * list (nat * Msg) :=
  let conn := match targetConn with Some c => Some c | None => connRef a end in
  match fileToShareRef a, conn with
  | Some file, Some conn =>
      let end_ := Z.min (offset + chunk_size) (file_size file) in
      let buffer := JS.blob_slice (file_bytes file) offset end_ in
      let scrambled := scramble (deriveKey shareCode) buffer in
      let progress := percent end_ (file_size file) in
      (a |> set_transferProgress
              (if end_ =? file_size file then 100 else Z.min 99 progress),
       [(conn, chunk (Some scrambled) offset)])
  | _, _ => (a, [])
  end.

Definition sendChunk : string -> Z -> option nat -> App -> App * list (nat * Msg) :=
  sendChunk_sized CHUNK_SIZE.

(** [conn.on('data', ...)] registered by [initSender] on connection [conn]. *)
Definition sender_on_data (chunk_size : Z) (shareCode : string) (conn : nat)
    (m : Msg) (a : App) : App * list (nat * Msg) :=
  match m with
  | request_metadata =>
      match fileToShareRef a with
      | Some f => (a, [(conn, metadata (file_name f) (file_size f) (file_type f))])
      | None => (a, [])
      end
  | request_chunk offset => sendChunk_sized chunk_size shareCode offset (Some conn) a
  | chat text => (a |> set_chatMessages (chatMessages a ++ [text]), [])
  | _ => (a, [])
  end.

(** ** Receiver *)

(** What the handlers registered by one call of [handleConnectReceiver] see
    of the render that ran it. *)
Record Captured := { cap_receiveCode : string; cap_transferProgress : Z }.

(** The connect form is rendered when
    [!isConnected && transferProgress === -1]. *)
Definition form_rendered (a : App) : bool :=
  negb (isConnected a) && (transferProgress a =? -1).

(** [handleConnectReceiver], up to the creation of the peer. *)
Definition handleConnectReceiver (receiveCode : string) (a : App) : App :=
  match receiveCode with
  | EmptyString => a
  | _ => a |> resetConnection
           |> set_errorStatus None
           |> set_transferProgress 0
           |> set_peerRef true
  end.

Definition capture (receiveCode : string) (a : App) : Captured :=
  {| cap_receiveCode := receiveCode; cap_transferProgress := transferProgress a |}.

(** [peer.on('open', ...)]: the connection [conn] is created, not yet open,
    and its handlers are registered. *)
Definition peer_on_open (conn : nat) (a : App) : App :=
  a |> set_connRef (Some conn) |> set_conn_open false |> set_handshakeInterval None.

(** [conn.on('open', ...)]: [setInterval(..., 500)] *)
Definition receiver_on_open (a : App) : App :=
  a |> set_conn_open true
    |> set_isConnected true
    |> set_handshakeInterval (Some HANDSHAKE_MS).

(** The callback of [handshakeInterval], run once per period while the
    interval is scheduled. *)
Definition handshake_fire (a : App) : App * list Msg :=
  match handshakeInterval a with
  | Some _ =>
      if is_some (fileMetaRef a) || negb (conn_open a)
      then (a |> set_handshakeInterval None, [])
      else (a, [request_metadata])
  | None => (a, [])
  end.

(** [finalizeDownload(name, type)] *)
Definition finalizeDownload (name type : string) (a : App) : App :=
  let blob := {| blob_bytes := concat (receivedChunksRef a);
                 blob_type := JS.str_or (Some type) "application/octet-stream" |} in
  a |> set_completedFile (Some {| cf_blob := blob; cf_name := name; cf_type := type |})
    |> set_transferProgress 100
    |> set_sessionTransfers (sessionTransfers a + 1).

(** [conn.on('data', ...)] of [handleConnectReceiver]; an exception thrown in
    the [try] block ends the handler in the [catch] branch. *)
Definition receiver_on_data (cap : Captured) (m : Msg) (a : App) : App * list Msg :=
  match m with
  | metadata name size mime =>
      match fileMetaRef a with
      | None =>
          let meta := {| meta_name := name; meta_size := size; meta_type := mime |} in
          (a |> set_fileMeta (Some meta)
             |> set_fileMetaRef (Some meta)
             |> set_receivedChunksRef []
             |> set_receivedBytesRef 0
             |> set_transferProgress 0,
           [request_chunk 0])
      | Some _ => (a, [])
      end
  | chunk None _ =>
      (a |> set_errorStatus (Some "Data parsing error: Empty buffer received."%string), [])
  | chunk (Some buffer) _ =>
      let scrambled := scramble (deriveKey (cap_receiveCode cap)) buffer in
      let byteLength := Z.of_nat (List.length scrambled) in
      if byteLength =? 0 then
        (a |> set_errorStatus
                (Some "Data parsing error: Received chunk has zero length."%string), [])
      else
        let a := a |> set_receivedChunksRef (receivedChunksRef a ++ [scrambled]) in
        let a := a |> set_receivedBytesRef (receivedBytesRef a + byteLength) in
        match fileMetaRef a with
        | Some meta =>
            let progress := percent (receivedBytesRef a) (meta_size meta) in
            if receivedBytesRef a <? meta_size meta then
              (a |> set_transferProgress (Z.min 99 progress),
               [request_chunk (receivedBytesRef a)])
            else
              (a |> set_transferProgress 100
                 |> finalizeDownload (meta_name meta) (meta_type meta), [])
        | None => (a, [])
        end
  | chat text => (a |> set_chatMessages (chatMessages a ++ [text]), [])
  | _ => (a, [])
  end.

(** [conn.on('close', ...)] of [handleConnectReceiver]: [transferProgress] is
    the variable of the render that registered the handler. *)
Definition receiver_on_close (cap : Captured) (a : App) : App :=
  let a := a |> set_conn_open false in
  let a := if (cap_transferProgress cap <? 100) && (0 <? cap_transferProgress cap)
           then a |> set_errorStatus (Some "Connection closed unexpectedly."%string)
           else a in
  a |> set_isConnected false.

(** [conn.on('error', ...)] of [handleConnectReceiver]. *)
Definition receiver_on_conn_error (message : string) (a : App) : App :=
  a |> set_errorStatus (Some ("Connection error: " ++ message)%string).

(** [peer.on('error', ...)] of [handleConnectReceiver]: the handler closes
    nothing, so a connection that is open goes on delivering. *)
Definition receiver_on_peer_error (a : App) : App :=
  a |> set_errorStatus
         (Some "Error: Could not find or connect to that peer. Check the code."%string)
    |> set_transferProgress (-1).

(** ** Effects and timers *)

(** The callback of the self-destruct interval [id], run once per period
    while that interval is scheduled: [setSelfDestructSec(prev => ...)]. *)
Definition self_destruct_fire (id : nat) (a : App) : App :=
  if existsb (fun i => Nat.eqb (fst i) id) (intervals a) then
    if selfDestructSec a <=? 1
    then a |> resetConnection |> set_mode idle |> set_selfDestructSec 0
    else a |> set_selfDestructSec (selfDestructSec a - 1)
  else a.

Definition mode_eqb (m1 m2 : Mode) : bool :=
  match m1, m2 with
  | idle, idle | send, send | receive, receive => true
  | _, _ => false
  end.

(** Dependencies [[mode]] and [[transferProgress, isConnected]] of the two
    effects, compared between the previous render and the current one. *)
Definition mode_changed (prev cur : App) : bool := negb (mode_eqb (mode prev) (mode cur)).

Definition self_destruct_deps_changed (prev cur : App) : bool :=
  negb ((transferProgress prev =? transferProgress cur)
        && Bool.eqb (isConnected prev) (isConnected cur)).

(** Cleanup of the effect on [[mode]]. *)
Definition mode_cleanup (a : App) : App :=
  a |> resetConnection |> set_fileToShareRef None.

(** Cleanup of the self-destruct effect. *)
Definition self_destruct_cleanup (a : App) : App :=
  match selfDestructRef a with
  | Some id => clearInterval id a
  | None => a
  end.

(** Body of the self-destruct effect; [rendered] holds the state values of
    the render the effect belongs to. *)
Definition self_destruct_effect (rendered a : App) : App :=
  if (100 <=? transferProgress rendered) && isConnected rendered then
    let id := next_interval a in
    a |> set_selfDestructSec SELF_DESTRUCT_SEC
      |> set_intervals (intervals a ++ [(id, SELF_DESTRUCT_TICK_MS)])
      |> set_selfDestructRef (Some id)
      |> set_next_interval (S id)
  else a.

(** One render: the cleanups of the effects whose dependencies changed, in
    declaration order, then their bodies. *)
Definition effects (prev cur : App) : App :=
  let a := if mode_changed prev cur then mode_cleanup cur else cur in
  let a := if self_destruct_deps_changed prev cur then self_destruct_cleanup a else a in
  if self_destruct_deps_changed prev cur then self_destruct_effect cur a else a.

(** Renders until the state set by the effects is rendered too: the render
    caused by the handler, then the one caused by that render's effects. *)
Definition commit (prev cur : App) : App :=
  effects cur (effects prev cur).

(** ** A receiver's session as an event system *)

Inductive Event : Type :=
| conn_opened
| handshake_tick
| conn_data (m : Msg)
| conn_closed
| conn_error (message : string)  (* [conn.on('error', ...)], with [err.message] *)
| peer_error                     (* [peer.on('error', ...)] *)
| self_destruct_tick (id : nat)
| receive_close_button        (* [onClick={() => setMode('idle')}] *)
| manual_reset.               (* [resetConnection(); setMode('idle')] *)

Definition handle (cap : Captured) (e : Event) (a : App) : App * list Msg :=
  match e with
  | conn_opened => (receiver_on_open a, [])
  | handshake_tick => handshake_fire a
  | conn_data m => receiver_on_data cap m a
  | conn_closed => (receiver_on_close cap a, [])
  | conn_error message => (receiver_on_conn_error message a, [])
  | peer_error => (receiver_on_peer_error a, [])
  | self_destruct_tick id => (self_destruct_fire id a, [])
  | receive_close_button => (a |> set_mode idle, [])
  | manual_reset => (a |> resetConnection |> set_mode idle, [])
  end.

Definition step (cap : Captured) (e : Event) (a : App) : App * list Msg :=
  let '(a', out) := handle cap e a in (commit a a', out).

(** The state after a list of events and the messages sent at each. *)
Fixpoint steps (cap : Captured) (es : list Event) (a : App) : App * list (list Msg) :=
  match es with
  | [] => (a, [])
  | e :: es' =>
      let '(a1, out) := step cap e a in
      let '(a2, outs) := steps cap es' a1 in
      (a2, out :: outs)
  end.

(** A receiver types [receiveCode] in the form and submits it; the peer opens
    and creates connection [conn]. *)
Definition submit (receiveCode : string) (conn : nat) (a : App) : Captured * App :=
  (capture receiveCode a,
   commit a (handleConnectReceiver receiveCode a) |> peer_on_open conn).

(** A message handled by the sender, followed by the render. *)
Definition sender_step (chunk_size : Z) (shareCode : string) (conn : nat)
    (m : Msg) (a : App) : App * list (nat * Msg) :=
  let '(a', out) := sender_on_data chunk_size shareCode conn m a in (commit a a', out).

(** ** One transfer between a sender and a receiver *)

Record Net := mkNet {
  sender_app : App;
  receiver_app : App;
  to_sender : list Msg;        (* in flight to the sender, oldest first *)
  to_receiver : list Msg;      (* in flight to the receiver, oldest first *)
  requested : list Z;          (* offsets the receiver has requested *)
  shown : list Z               (* [transferProgress] after each message it handled *)
}.

Definition offsets_of (out : list Msg) : list Z :=
  flat_map (fun m => match m with request_chunk o => [o] | _ => [] end) out.

Definition sent_on (conn : nat) (out : list (nat * Msg)) : list Msg :=
  map snd (filter (fun p => Nat.eqb (fst p) conn) out).

Section Transfer.

Variable chunk_size : Z.
Variable shareCode : string.
Variable cap : Captured.
Variable conn : nat.

Definition deliver_to_receiver (n : Net) : option Net :=
  match to_receiver n with
  | m :: rest =>
      let '(r, out) := step cap (conn_data m) (receiver_app n) in
      Some {| sender_app := sender_app n; receiver_app := r;
              to_sender := to_sender n ++ out; to_receiver := rest;
              requested := requested n ++ offsets_of out;
              shown := shown n ++ [transferProgress r] |}
  | [] => None
  end.

Definition deliver_to_sender (n : Net) : option Net :=
  match to_sender n with
  | m :: rest =>
      let '(s, out) := sender_step chunk_size shareCode conn m (sender_app n) in
      Some {| sender_app := s; receiver_app := receiver_app n;
              to_sender := rest; to_receiver := to_receiver n ++ sent_on conn out;
              requested := requested n; shown := shown n |}
  | [] => None
  end.

(** Delivers the oldest message of one direction; the scheduler's choice
    matters only when messages are in flight in both. *)
Definition net_step (receiver_first : bool) (n : Net) : option Net :=
  if receiver_first then
    match deliver_to_receiver n with
    | Some n' => Some n'
    | None => deliver_to_sender n
    end
  else
    match deliver_to_sender n with
    | Some n' => Some n'
    | None => deliver_to_receiver n
    end.

Fixpoint run (sched : list bool) (n : Net) : Net :=
  match sched with
  | [] => n
  | b :: sched' =>
      match net_step b n with
      | Some n' => run sched' n'
      | None => n
      end
  end.

(** The connection is open and the handshake interval has fired [d] times
    before the sender's first reply arrives. *)
Definition start (d : nat) (s r : App) : Net :=
  {| sender_app := s; receiver_app := r;
     to_sender := repeat request_metadata d; to_receiver := [];
     requested := []; shown := [] |}.

End Transfer.

(** Offsets [0, C, 2C, ...] of [n] consecutive chunks. *)
Definition chunk_offsets (chunk_size : Z) (n : nat) : list Z :=
  map (fun i => Z.of_nat i * chunk_size) (seq 0 n).

(** Number of chunk requests for a file of [size] bytes: one per started
    chunk, and one for the empty file. *)
Definition chunk_count (chunk_size size : Z) : nat :=
  Z.to_nat (Z.max 1 ((size + chunk_size - 1) / chunk_size)).

(** ** Text of a room code *)

(** [c] occurs in [s]. *)
Fixpoint has_char (c : ascii) (s : string) : bool :=
  match s with
  | EmptyString => false
  | String c' s' => Ascii.eqb c' c || has_char c s'
  end.

Fixpoint all_digits (s : string) : bool :=
  match s with
  | EmptyString => true
  | String c s' => is_digit c && all_digits s'
  end.

(** The bytes [[lo, hi)] of a content. *)
Definition byte_range (data : bytes) (lo hi : Z) : bytes :=
  firstn (Z.to_nat (hi - lo)) (skipn (Z.to_nat lo) data).

(** ** States that occur in the statements *)

(** Everything in the state except the self-destruct timer. *)
Definition session_view (a : App) :=
  ((mode a, isConnected a, errorStatus a, transferProgress a),
   (fileMeta a, completedFile a, chatMessages a, sessionTransfers a),
   (peerRef a, connRef a, fileToShareRef a, fileMetaRef a),
   (receivedChunksRef a, receivedBytesRef a, conn_open a, handshakeInterval a)).

(** The retry loop has reached its stop condition, in a session whose open
    connection belongs to the peer held in [peerRef]. *)
Definition handshake_over (a : App) : Prop :=
  (fileMetaRef a <> None \/ conn_open a = false) /\
  (conn_open a = true -> peerRef a = true).

Definition is_metadata (m : Msg) : bool :=
  match m with metadata _ _ _ => true | _ => false end.

(** The session after a teardown: idle, disconnected, nothing received,
    nothing stored, no interval scheduled. *)
Definition torn_down (z : App) : Prop :=
  mode z = idle /\ isConnected z = false /\ conn_open z = false /\
  transferProgress z = -1 /\ fileMeta z = None /\ fileMetaRef z = None /\
  receivedChunksRef z = [] /\ receivedBytesRef z = 0 /\ completedFile z = None /\
  chatMessages z = [] /\ selfDestructSec z = 0 /\ selfDestructRef z = None /\
  intervals z = [].

(** The self-destruct interval [id] is the one scheduled, [sec] seconds are
    left, and the open connection belongs to the peer held. *)
Definition counting_down (id : nat) (sec : Z) (a : App) : Prop :=
  intervals a = [(id, SELF_DESTRUCT_TICK_MS)] /\ selfDestructRef a = Some id /\
  selfDestructSec a = sec /\ (conn_open a = true -> peerRef a = true).

(** ** The states of a transfer run *)

Section TransferInvariant.

Variable chunk_size : Z.
Variable shareCode : string.
Variable file : File.
Variable r0 : App.     (* the receiver when the run starts *)
Variable d : nat.      (* handshake requests in flight when the run starts *)

Definition file_metadata : Msg :=
  metadata (file_name file) (file_size file) (file_type file).

Definition file_meta : FileMeta :=
  {| meta_name := file_name file; meta_size := file_size file;
     meta_type := file_type file |}.

Definition offset_of (k : nat) : Z := Z.of_nat k * chunk_size.

(** The reply of the sender to the request for chunk number [k]. *)
Definition chunk_msg (k : nat) : Msg :=
  chunk (Some (scramble (deriveKey shareCode)
                 (byte_range (file_bytes file) (offset_of k)
                    (Z.min (offset_of k + chunk_size) (file_size file)))))
        (offset_of k).

(** The progress shown once [k] chunks are in and more are to come. *)
Definition progress_after (k : nat) : Z :=
  Z.min 99 (percent (offset_of k) (file_size file)).

(** The receiver holds the metadata and the first [k] chunks. *)
Definition waiting (k : nat) (r : App) : Prop :=
  fileMetaRef r = Some file_meta /\ fileMeta r = Some file_meta /\
  concat (receivedChunksRef r) = firstn (Z.to_nat (offset_of k)) (file_bytes file) /\
  List.length (receivedChunksRef r) = k /\
  receivedBytesRef r = offset_of k /\
  transferProgress r = match k with O => 0 | S _ => progress_after k end /\
  completedFile r = completedFile r0 /\ errorStatus r = errorStatus r0.

(** The receiver holds the whole file. *)
Definition completed (r : App) : Prop :=
  fileMetaRef r = Some file_meta /\
  concat (receivedChunksRef r) = file_bytes file /\
  List.length (receivedChunksRef r) = chunk_count chunk_size (file_size file) /\
  receivedBytesRef r = file_size file /\
  transferProgress r = 100 /\
  completedFile r =
    Some {| cf_blob := {| blob_bytes := file_bytes file;
                          blob_type := JS.str_or (Some (file_type file))
                                         "application/octet-stream" |};
            cf_name := file_name file; cf_type := file_type file |} /\
  errorStatus r = errorStatus r0.

(** The receiver has refused the zero-length chunk of an empty file. *)
Definition rejected (r : App) : Prop :=
  fileMetaRef r = Some file_meta /\
  receivedChunksRef r = [] /\ receivedBytesRef r = 0 /\
  transferProgress r = 0 /\
  completedFile r = completedFile r0 /\
  errorStatus r = Some "Data parsing error: Received chunk has zero length."%string.

Definition chunks : nat := chunk_count chunk_size (file_size file).

(** The states of a run, with the number of deliveries still to come. *)
Inductive Phase : nat -> Net -> Prop :=
| phase_handshake (i j : nat) (net : Net) :
    (i + j = d)%nat -> (1 <= d)%nat ->
    fileToShareRef (sender_app net) = Some file ->
    receiver_app net = r0 ->
    to_sender net = repeat request_metadata i ->
    to_receiver net = repeat file_metadata j ->
    requested net = [] -> shown net = [] ->
    Phase (2 * i + j + 2 * chunks) net
| phase_first_request (h i j : nat) (net : Net) :
    (h + i + j = d)%nat -> (1 <= h)%nat ->
    fileToShareRef (sender_app net) = Some file ->
    waiting 0 (receiver_app net) ->
    to_sender net = repeat request_metadata i ++ [request_chunk 0] ->
    to_receiver net = repeat file_metadata j ->
    requested net = [0] -> shown net = repeat 0 h ->
    Phase (2 * i + j + 2 * chunks) net
| phase_chunk_sent (h j k : nat) (net : Net) :
    (h + j = d)%nat -> (1 <= h)%nat -> (j = 0 \/ k = 0)%nat -> (k < chunks)%nat ->
    fileToShareRef (sender_app net) = Some file ->
    waiting k (receiver_app net) ->
    to_sender net = [] ->
    to_receiver net = repeat file_metadata j ++ [chunk_msg k] ->
    requested net = chunk_offsets chunk_size (S k) ->
    shown net = repeat 0 h ++ map progress_after (seq 1 k) ->
    Phase (j + 2 * (chunks - k) - 1) net
| phase_chunk_requested (k : nat) (net : Net) :
    (1 <= d)%nat -> (1 <= k)%nat -> (k < chunks)%nat ->
    fileToShareRef (sender_app net) = Some file ->
    waiting k (receiver_app net) ->
    to_sender net = [request_chunk (offset_of k)] ->
    to_receiver net = [] ->
    requested net = chunk_offsets chunk_size (S k) ->
    shown net = repeat 0 d ++ map progress_after (seq 1 k) ->
    Phase (2 * (chunks - k)) net
| phase_complete (net : Net) :
    0 < file_size file ->
    fileToShareRef (sender_app net) = Some file ->
    completed (receiver_app net) ->
    to_sender net = [] -> to_receiver net = [] ->
    requested net = chunk_offsets chunk_size chunks ->
    shown net = repeat 0 d ++ map progress_after (seq 1 (chunks - 1)) ++ [100] ->
    Phase 0 net
| phase_rejected (net : Net) :
    file_size file = 0 ->
    fileToShareRef (sender_app net) = Some file ->
    rejected (receiver_app net) ->
    to_sender net = [] -> to_receiver net = [] ->
    requested net = [0] ->
    shown net = repeat 0 d ++ [0] ->
    Phase 0 net.

End TransferInvariant.

(** * The rest of the component *)

(** ** Room code: generation and peer identifiers *)

(** The alphabet [chars] of [generateCode]. *)
Definition code_chars : string := "abcdefghjkmnpqrstuvwxyz23456789".

(** The loop of [generateCode]: [n] more characters are appended to [str];
    [random i] is the value returned by the [i]-th call of [Math.random]. *)
Fixpoint random_chars (random : nat -> Q) (i n : nat) (str : string) : string :=
  match n with
  | O => str
  | S n' =>
      random_chars random (S i) n'
        (str ++ JS.charAt code_chars
                  (JS.Math_floor (random i * inject_Z (Z.of_nat (String.length code_chars)))))
  end.

(** [generateCode()]: six calls of [Math.random] for the letters, a seventh
    for the PIN. *)
Definition generateCode (random : nat -> Q) : string :=
  let str := random_chars random 0 6 "" in
  let pin := JS.Math_floor (inject_Z 1000 + random 6%nat * inject_Z 9000) in
  (JS.substring str 0 3 ++ "-" ++ JS.substring str 3 6 ++ "#" ++ JS.number_toString pin)%string.

(** The peer identifier the sender registers in [initSender]:
    [`mephisto-${shareCode.split('#')[0].replace(/-/g, '').toLowerCase()}`]. *)
Definition sender_peer_id (shareCode : string) : string :=
  ("mephisto-" ++
   JS.toLowerCase (JS.replace_all "-" "" (hd EmptyString (JS.split "#" shareCode))))%string.

(** The peer identifier a receiver connects to:
    [receiveCode.trim().toLowerCase().split('#')[0].replace('-', '')]
    after [mephisto-]. *)
Definition receiver_target_id (receiveCode : string) : string :=
  ("mephisto-" ++
   JS.replace_first "-" ""
     (hd EmptyString (JS.split "#" (JS.toLowerCase (JS.trim receiveCode)))))%string.


(** Every character of [s] satisfies [p]. *)
Fixpoint all_chars (p : ascii -> bool) (s : string) : bool :=
  match s with
  | EmptyString => true
  | String c s' => p c && all_chars p s'
  end.

(** The characters that are easily taken for one another. *)
Definition look_alike (c : ascii) : bool :=
  existsb (Ascii.eqb c) ["0"; "1"; "i"; "l"; "o"]%char.

(** ** The other two ways to connect as a receiver *)

(** [conn.on('data', ...)] registered by [connectToDevice(code)]: the chunk
    branch has no test on the length of the buffer. *)
Definition device_on_data (code : string) (m : Msg) (a : App) : App * list Msg :=
  match m with
  | metadata name size mime =>
      match fileMetaRef a with
      | None =>
          let meta := {| meta_name := name; meta_size := size; meta_type := mime |} in
          (a |> set_fileMeta (Some meta)
             |> set_fileMetaRef (Some meta)
             |> set_receivedChunksRef []
             |> set_receivedBytesRef 0
             |> set_transferProgress 0,
           [request_chunk 0])
      | Some _ => (a, [])
      end
  | chunk None _ =>
      (a |> set_errorStatus (Some "Data parsing error: Empty buffer received."%string), [])
  | chunk (Some buffer) _ =>
      let scrambled := scramble (deriveKey code) buffer in
      let byteLength := Z.of_nat (List.length scrambled) in
      let a := a |> set_receivedChunksRef (receivedChunksRef a ++ [scrambled]) in
      let a := a |> set_receivedBytesRef (receivedBytesRef a + byteLength) in
      match fileMetaRef a with
      | Some meta =>
          let progress := percent (receivedBytesRef a) (meta_size meta) in
          if receivedBytesRef a <? meta_size meta then
            (a |> set_transferProgress (Z.min 99 progress),
             [request_chunk (receivedBytesRef a)])
          else
            (a |> set_transferProgress 100
               |> finalizeDownload (meta_name meta) (meta_type meta), [])
      | None => (a, [])
      end
  | chat text => (a |> set_chatMessages (chatMessages a ++ [text]), [])
  | _ => (a, [])
  end.

(** [conn.on('data', ...)] registered by the effect that joins the room named
    in the page address ([?room=...]): as in [connectToDevice], with other
    error texts. *)
Definition autojoin_on_data (roomCode : string) (m : Msg) (a : App) : App * list Msg :=
  match m with
  | metadata name size mime =>
      match fileMetaRef a with
      | None =>
          let meta := {| meta_name := name; meta_size := size; meta_type := mime |} in
          (a |> set_fileMeta (Some meta)
             |> set_fileMetaRef (Some meta)
             |> set_receivedChunksRef []
             |> set_receivedBytesRef 0
             |> set_transferProgress 0,
           [request_chunk 0])
      | Some _ => (a, [])
      end
  | chunk None _ => (a |> set_errorStatus (Some "Data error: Empty buffer"%string), [])
  | chunk (Some buffer) _ =>
      let scrambled := scramble (deriveKey roomCode) buffer in
      let a := a |> set_receivedChunksRef (receivedChunksRef a ++ [scrambled]) in
      let a := a |> set_receivedBytesRef
                      (receivedBytesRef a + Z.of_nat (List.length scrambled)) in
      match fileMetaRef a with
      | Some m =>
          let progress := percent (receivedBytesRef a) (meta_size m) in
          if receivedBytesRef a <? meta_size m then
            (a |> set_transferProgress (Z.min 99 progress),
             [request_chunk (receivedBytesRef a)])
          else
            (a |> set_transferProgress 100
               |> finalizeDownload (meta_name m) (meta_type m), [])
      | None => (a, [])
      end
  | chat text => (a |> set_chatMessages (chatMessages a ++ [text]), [])
  | _ => (a, [])
  end.

(** A chunk message whose buffer has no byte. *)
Definition is_empty_chunk (m : Msg) : bool :=
  match m with chunk (Some []) _ => true | _ => false end.

Definition is_missing_buffer (m : Msg) : bool :=
  match m with chunk None _ => true | _ => false end.

(** The state of a receiver that holds the whole of a file. *)
Definition holds_file (file : File) (before a : App) : Prop :=
  transferProgress a = 100 /\
  completedFile a =
    Some {| cf_blob := {| blob_bytes := file_bytes file;
                          blob_type := JS.str_or (Some (file_type file))
                                         "application/octet-stream" |};
            cf_name := file_name file; cf_type := file_type file |} /\
  errorStatus a = errorStatus before /\
  sessionTransfers a = sessionTransfers before + 1.

(** At most one self-destruct interval is scheduled, and it is the one
    [selfDestructRef] names. *)
Definition one_timer (a : App) : Prop :=
  intervals a = [] \/
  exists id : nat, intervals a = [(id, SELF_DESTRUCT_TICK_MS)] /\ selfDestructRef a = Some id.


(** ** The sender's room *)

(** The state of a sender: that of the component, the connections of the
    room ([multiConnsRef], by id, in the order they arrived) and the number
    shown on the room badge. *)
Record Room := mkRoom {
  room_app : App;
  multiConnsRef : list nat;
  peerCount : Z
}.

(** [resetConnection], with the part that concerns the room. *)
Definition room_reset (r : Room) : Room :=
  {| room_app := resetConnection (room_app r); multiConnsRef := []; peerCount := 0 |}.

(** [initSender], up to the creation of the peer. *)
Definition initSender (shareCode : string) (r : Room) : Room :=
  match shareCode with
  | EmptyString => r
  | _ =>
      let r := room_reset r in
      {| room_app := room_app r |> set_errorStatus None |> set_peerRef true;
         multiConnsRef := multiConnsRef r; peerCount := peerCount r |}
  end.

Inductive RoomEvent : Type :=
| room_connection (conn : nat)             (* [peer.on('connection', ...)] *)
| room_conn_open (conn : nat)
| room_conn_data (conn : nat) (m : Msg)
| room_conn_close (conn : nat)
| room_conn_error (conn : nat) (message : string)
| room_self_destruct_tick (id : nat)
| send_close_button.   (* [...; resetConnection(); setMode('idle')] of the send panel *)

(** The handlers [initSender] registers; [shareCode] is the code seen by the
    [sendChunk] they call. *)
Definition room_handle (chunk_size : Z) (shareCode : string) (e : RoomEvent) (r : Room)
    : Room * list (nat * Msg) :=
  match e with
  | room_connection conn =>
      ({| room_app := room_app r |> set_connRef (Some conn);
          multiConnsRef := multiConnsRef r ++ [conn];
          peerCount := peerCount r + 1 |}, [])
  | room_conn_open _ =>
      ({| room_app := room_app r |> set_isConnected true;
          multiConnsRef := multiConnsRef r; peerCount := peerCount r |}, [])
  | room_conn_data conn m =>
      let '(a, out) := sender_on_data chunk_size shareCode conn m (room_app r) in
      ({| room_app := a; multiConnsRef := multiConnsRef r; peerCount := peerCount r |}, out)
  | room_conn_close conn =>
      let conns := filter (fun c => negb (Nat.eqb c conn)) (multiConnsRef r) in
      ({| room_app :=
            if (List.length conns =? 0)%nat
            then room_app r |> set_isConnected false
                            |> set_errorStatus (Some "Connection lost."%string)
            else room_app r;
          multiConnsRef := conns;
          peerCount := Z.of_nat (List.length conns) |}, [])
  | room_conn_error _ message =>
      ({| room_app := room_app r |> set_errorStatus (Some message);
          multiConnsRef := multiConnsRef r; peerCount := peerCount r |}, [])
  | room_self_destruct_tick id =>
      if existsb (fun i => Nat.eqb (fst i) id) (intervals (room_app r)) then
        if selfDestructSec (room_app r) <=? 1
        then let r := room_reset r in
             ({| room_app := room_app r |> set_mode idle |> set_selfDestructSec 0;
                 multiConnsRef := multiConnsRef r; peerCount := peerCount r |}, [])
        else ({| room_app := room_app r |> set_selfDestructSec (selfDestructSec (room_app r) - 1);
                 multiConnsRef := multiConnsRef r; peerCount := peerCount r |}, [])
      else (r, [])
  | send_close_button =>
      let r := room_reset r in
      ({| room_app := room_app r |> set_mode idle;
          multiConnsRef := multiConnsRef r; peerCount := peerCount r |}, [])
  end.

(** The effects of one render, on a sender: the cleanup of the effect on
    [[mode]] resets the room too. *)
Definition room_effects (prev cur : Room) : Room :=
  let r := if mode_changed (room_app prev) (room_app cur)
           then let z := room_reset cur in
                {| room_app := room_app z |> set_fileToShareRef None;
                   multiConnsRef := multiConnsRef z; peerCount := peerCount z |}
           else cur in
  let changed := self_destruct_deps_changed (room_app prev) (room_app cur) in
  let a := if changed then self_destruct_cleanup (room_app r) else room_app r in
  let a := if changed then self_destruct_effect (room_app cur) a else a in
  {| room_app := a; multiConnsRef := multiConnsRef r; peerCount := peerCount r |}.

Definition room_commit (prev cur : Room) : Room :=
  room_effects cur (room_effects prev cur).

Definition room_step (chunk_size : Z) (shareCode : string) (e : RoomEvent) (r : Room)
    : Room * list (nat * Msg) :=
  let '(r', out) := room_handle chunk_size shareCode e r in (room_commit r r', out).

Fixpoint room_steps (chunk_size : Z) (shareCode : string) (es : list RoomEvent) (r : Room)
    : Room :=
  match es with
  | [] => r
  | e :: es' => room_steps chunk_size shareCode es' (fst (room_step chunk_size shareCode e r))
  end.

(** The room badge shows the number of connections in the room. *)
Definition badge_ok (r : Room) : Prop := peerCount r = Z.of_nat (List.length (multiConnsRef r)).

(** ** Devices found on the broadcast channel *)

(** An entry of [nearbyDevices]; [code] is [undefined] when [None]. *)
Record Device := {
  dev_id : string;
  dev_name : string;
  dev_time : Z;
  dev_code : option string
}.

(** What is read of a message of the channel. *)
Inductive Broadcast : Type :=
| announce (id name : string) (time : Z) (code : option string)
| broadcast_other.

(** [x || y] where [x] is a string or [undefined]. *)
Definition code_or (x y : option string) : option string :=
  match x with
  | Some (String _ _) => x
  | _ => y
  end.

(** The message posted by [announce()] at time [now]. *)
Definition announcement (deviceId shareCode : string) (now : Z) : Broadcast :=
  announce deviceId ("Device-" ++ deviceId) now
    (code_or (Some shareCode) None).

(** [bc.onmessage]: the update of [nearbyDevices]. *)
Definition nearby_on_message (deviceId : string) (data : Broadcast) (prev : list Device)
    : list Device :=
  match data with
  | announce id name time code =>
      if negb (String.eqb id deviceId) then
        match find (fun d => String.eqb (dev_id d) id) prev with
        | Some _ =>
            map (fun d => if String.eqb (dev_id d) id
                          then {| dev_id := dev_id d; dev_name := dev_name d;
                                  dev_time := time; dev_code := code_or code (dev_code d) |}
                          else d) prev
        | None =>
            prev ++ [{| dev_id := id; dev_name := name; dev_time := time; dev_code := code |}]
        end
      else prev
  | broadcast_other => prev
  end.

(** The callback of the [cleanup] interval, run at time [now]. *)
Definition nearby_cleanup (now : Z) (prev : list Device) : list Device :=
  filter (fun d => now - dev_time d <? 10000) prev.

Inductive NearbyEvent : Type :=
| nearby_message (data : Broadcast)
| nearby_cleanup_tick (now : Z).

Definition nearby_step (deviceId : string) (e : NearbyEvent) (prev : list Device)
    : list Device :=
  match e with
  | nearby_message data => nearby_on_message deviceId data prev
  | nearby_cleanup_tick now => nearby_cleanup now prev
  end.

(** A code that is a non-empty string. *)
Definition has_code (d : Device) : bool :=
  match dev_code d with Some (String _ _) => true | _ => false end.


(** ** What the panels display *)

(** [formatTime(s)]:
    [`${String(Math.floor(s / 60)).padStart(2, '0')}:${String(s % 60).padStart(2, '0')}`] *)
Definition formatTime (s : Z) : string :=
  (JS.padStart (JS.number_toString (JS.Math_floor (inject_Z s / inject_Z 60))) 2 "0" ++ ":" ++
   JS.padStart (JS.number_toString (JS.rem s 60)) 2 "0")%string.

(** An entry of a loaded archive: its [name], whether it is a directory, and
    [_data?.uncompressedSize] when there is one. *)
Record ZipEntry := { ze_name : string; ze_dir : bool; ze_size : option Z }.

(** A line of the ZIP preview. *)
Record ZipLine := { zl_name : string; zl_path : string; zl_dir : bool; zl_size : Z }.

(** [name.split('/').filter(Boolean).pop() || name] *)
Definition entry_label (name : string) : string :=
  JS.str_or
    (last (map Some (filter (fun p => negb (String.eqb p EmptyString)) (JS.split "/" name)))
          None)
    name.

(** The callback of [loadedZip.forEach]. *)
Definition zip_line (relativePath : string) (e : ZipEntry) : ZipLine :=
  {| zl_name := entry_label (ze_name e); zl_path := relativePath; zl_dir := ze_dir e;
     zl_size := JS.num_or (ze_size e) 0 |}.

(** [(a, b) => (a.dir === b.dir ? 0 : a.dir ? -1 : 1)] *)
Definition dirs_first (a b : ZipLine) : Z :=
  if Bool.eqb (zl_dir a) (zl_dir b) then 0 else if zl_dir a then -1 else 1.

(** [zipContents] for the entries [forEach] visits, in that order. *)
Definition zip_contents (entries : list (string * ZipEntry)) : list ZipLine :=
  JS.sort dirs_first (map (fun pe => zip_line (fst pe) (snd pe)) entries).

(** ** Choosing what to share *)

(** A file handed to [processFiles]: the [File], its [webkitRelativePath]
    and the [customPath] that [scanEntry] may have set. *)
Record Picked := {
  pk_file : File;
  pk_customPath : option string;
  pk_webkitRelativePath : string
}.

(** A dropped entry: a file (what [entry.file] hands to its callback), a
    directory (its name and what the successive calls of [readEntries]
    return), or neither. *)
#[warnings="-register-all"]
Inductive Entry : Type :=
| entry_file (f : Picked)
| entry_dir (name : string) (batches : list (list Entry))
| entry_other.

(** [scanEntry(entry, path)] *)
Fixpoint scanEntry (entry : Entry) (path : string) {struct entry} : list Picked :=
  match entry with
  | entry_file f =>
      [{| pk_file := pk_file f;
          pk_customPath := Some (path ++ file_name (pk_file f))%string;
          pk_webkitRelativePath := pk_webkitRelativePath f |}]
  | entry_dir name batches =>
      (fix readAll (batches : list (list Entry)) : list Picked :=
         match batches with
         | [] => []
         | [] :: _ => []
         | entries :: later =>
             flat_map (fun cEntry => scanEntry cEntry (path ++ name ++ "/")%string) entries
             ++ readAll later
         end) batches
  | entry_other => []
  end.

(** An item of [e.dataTransfer.items]. *)
Inductive DropItem : Type :=
| item_entry (entry : Entry)          (* [kind === 'file'], with an entry *)
| item_plain (file : option Picked)   (* [kind === 'file'], no entry: [getAsFile()] *)
| item_other.

(** The files [handleDrop] collects from the items. *)
Definition dropped_files (items : list DropItem) : list Picked :=
  flat_map (fun item =>
              match item with
              | item_entry entry => scanEntry entry EmptyString
              | item_plain (Some file) => [file]
              | _ => []
              end) items.

(** [f.customPath?.includes('/') ||
     (f.webkitRelativePath && f.webkitRelativePath.includes('/'))] *)
Definition in_a_folder (f : Picked) : bool :=
  match pk_customPath f with
  | Some p => JS.includes "/" p
  | None => false
  end
  || (negb (String.eqb (pk_webkitRelativePath f) EmptyString)
      && JS.includes "/" (pk_webkitRelativePath f)).

Definition needsZip (files : list Picked) : bool :=
  (1 <? List.length files)%nat || existsb in_a_folder files.

(** The path [zip.file] is given for [f]. *)
Definition zip_path (f : Picked) : string :=
  match pk_customPath f with
  | Some (String c p) => String c p
  | _ =>
      if negb (String.eqb (pk_webkitRelativePath f) EmptyString)
         && JS.includes "/" (pk_webkitRelativePath f)
      then pk_webkitRelativePath f
      else file_name (pk_file f)
  end.

Section Bundling.

(** The content [zip.generateAsync] produces for the calls
    [zip.file(path, f)] made, in their order. *)
Variable generateAsync : list (string * File) -> bytes.

(** [processFiles(files)] at time [now] (milliseconds). *)
Definition processFiles (now : Z) (files : list Picked) (a : App) : App :=
  match files with
  | [] => a
  | file :: _ =>
      if negb (needsZip files) then a |> set_fileToShareRef (Some (pk_file file))
      else
        let content := generateAsync (map (fun f => (zip_path f, pk_file f)) files) in
        a |> set_fileToShareRef
               (Some {| file_name :=
                          ("mephisto-bundle-" ++
                           JS.number_toString
                             (JS.Math_floor (inject_Z now / inject_Z 1000)) ++ ".zip")%string;
                        file_type := "application/zip";
                        file_bytes := content |})
  end.

Definition handleDrop (now : Z) (items : list DropItem) (a : App) : App :=
  processFiles now (dropped_files items) a.

End Bundling.

(** ** A transfer on one of the other two paths *)

Section SideTransfer.

(** The data handler of the path. *)
Variable on_data : Msg -> App -> App * list Msg.
Variable chunk_size : Z.
Variable shareCode : string.
Variable conn : nat.

(** A message handled by the receiver, followed by the render. *)
Definition side_step (m : Msg) (a : App) : App * list Msg :=
  let '(a', out) := on_data m a in (commit a a', out).

Definition side_deliver_to_receiver (n : Net) : option Net :=
  match to_receiver n with
  | m :: rest =>
      let '(r, out) := side_step m (receiver_app n) in
      Some {| sender_app := sender_app n; receiver_app := r;
              to_sender := to_sender n ++ out; to_receiver := rest;
              requested := requested n ++ offsets_of out;
              shown := shown n ++ [transferProgress r] |}
  | [] => None
  end.

Definition side_net_step (receiver_first : bool) (n : Net) : option Net :=
  if receiver_first then
    match side_deliver_to_receiver n with
    | Some n' => Some n'
    | None => deliver_to_sender chunk_size shareCode conn n
    end
  else
    match deliver_to_sender chunk_size shareCode conn n with
    | Some n' => Some n'
    | None => side_deliver_to_receiver n
    end.

Fixpoint side_run (sched : list bool) (n : Net) : Net :=
  match sched with
  | [] => n
  | b :: sched' =>
      match side_net_step b n with
      | Some n' => side_run sched' n'
      | None => n
      end
  end.

End SideTransfer.

(** ** Concrete inputs for the examples *)

Definition demo_file (data : bytes) : File :=
  {| file_name := "a.bin"; file_type := ""; file_bytes := data |}.

Definition demo_sender (data : bytes) : App :=
  initial |> set_mode send |> set_fileToShareRef (Some (demo_file data)).

Definition demo_code : string := "abc-def#1234".

(** The receiver after typing [demo_code], submitting the form and seeing
    its connection (number 7 here) open. *)
Definition demo_cap : Captured := fst (submit demo_code 7 (initial |> set_mode receive)).

Definition demo_receiver : App :=
  fst (step demo_cap conn_opened (snd (submit demo_code 7 (initial |> set_mode receive)))).

(** ** Tactics *)

Ltac ascii_cases c :=
  destruct c as [[] [] [] [] [] [] [] []].

(** Case analysis on every test a handler or an effect makes. *)
Ltac split_tests :=
  repeat match goal with
         | |- context [match ?x with _ => _ end] => destruct x eqn:?
         end.


(** Replaces a state by its fields. *)
Ltac open_app a := destruct a; cbn in *; subst.

(** Reduces field reads and field updates, and nothing else. *)
Ltac app_cbn :=
  cbn [mode isConnected errorStatus transferProgress fileMeta completedFile chatMessages
       selfDestructSec sessionTransfers peerRef connRef fileToShareRef fileMetaRef
       receivedChunksRef receivedBytesRef selfDestructRef conn_open handshakeInterval
       intervals next_interval
       set_mode set_isConnected set_errorStatus set_transferProgress set_fileMeta
       set_completedFile set_chatMessages set_selfDestructSec set_sessionTransfers
       set_peerRef set_connRef set_fileToShareRef set_fileMetaRef set_receivedChunksRef
       set_receivedBytesRef set_selfDestructRef set_conn_open set_handshakeInterval
       set_intervals set_next_interval finalizeDownload
       meta_name meta_size meta_type fst snd] in *.

(** Reduces the fields of a network state. *)
Ltac net_fields :=
    cbn [sender_app receiver_app to_sender to_receiver requested shown offsets_of
         flat_map app].

(** * Properties *)

(** ** The JavaScript fragments on concrete inputs *)

Example split_room_code : JS.split "#" "abc-def#1234" = ["abc-def"; "1234"]%string.
Proof. reflexivity. Qed.

Example split_without_separator : JS.split "#" "abc-def" = ["abc-def"]%string.
Proof. reflexivity. Qed.

Example split_twice : JS.split "#" "a#12#34" = ["a"; "12"; "34"]%string.
Proof. reflexivity. Qed.

Example parseInt_decimal_prefix : JS.parseInt "12ab" = Some 12.
Proof. reflexivity. Qed.

Example parseInt_sign_and_space : JS.parseInt "  -42 " = Some (-42).
Proof. reflexivity. Qed.

Example parseInt_hexadecimal : JS.parseInt "0x1F" = Some 31.
Proof. reflexivity. Qed.

Example parseInt_not_a_number : JS.parseInt "wxyz" = None /\ JS.parseInt "" = None.
Proof. split; reflexivity. Qed.

Example remainder_keeps_sign : JS.rem (-500) 256 = -244 /\ JS.rem 1234 256 = 210.
Proof. split; reflexivity. Qed.

Example round_half_up :
  JS.Math_round (5 # 2) = 3 /\ JS.Math_round (-5 # 2) = -2 /\ JS.Math_round (12 # 5) = 2.
Proof. repeat split. Qed.

Example slice_clamps :
  JS.blob_slice [1; 2; 3; 4; 5] 1 3 = [2; 3] /\
  JS.blob_slice [1; 2; 3; 4; 5] 3 9 = [4; 5] /\
  JS.blob_slice [1; 2; 3; 4; 5] (-2) 5 = [4; 5] /\
  JS.blob_slice [1; 2; 3; 4; 5] 4 2 = [].
Proof. repeat split. Qed.

Example xor_with_negative_key : scramble (-244) [0; 1; 255] = scramble 12 [0; 1; 255].
Proof. reflexivity. Qed.

(** ** The XOR scramble *)

Lemma uint8_bits (z n : Z) :
  0 <= n -> Z.testbit (JS.to_uint8 z) n = (n <? 8) && Z.testbit z n.
Proof.
  intros Hn. unfold JS.to_uint8. change 256 with (2 ^ 8).
  destruct (Z.ltb_spec n 8).
  - now rewrite Z.mod_pow2_bits_low by lia.
  - now rewrite Z.mod_pow2_bits_high by lia.
Qed.

Lemma uint8_range (z : Z) : is_byte (JS.to_uint8 z).
Proof. unfold is_byte, JS.to_uint8. apply Z.mod_pos_bound. lia. Qed.

Lemma uint8_of_byte (b : Z) : is_byte b -> JS.to_uint8 b = b.
Proof. intros Hb. apply Z.mod_small. exact Hb. Qed.

Lemma xor_byte_twice (k b : Z) :
  is_byte b -> JS.to_uint8 (Z.lxor (JS.to_uint8 (Z.lxor b k)) k) = b.
Proof.
  intros Hb. rewrite <- (uint8_of_byte b Hb) at 2.
  apply Z.bits_inj'. intros n Hn.
  rewrite !uint8_bits, Z.lxor_spec, uint8_bits, Z.lxor_spec by lia.
  destruct (n <? 8); simpl; [|reflexivity].
  now destruct (Z.testbit b n), (Z.testbit k n).
Qed.

Lemma xor_byte_low_bits (k b : Z) :
  is_byte b -> JS.to_uint8 (Z.lxor b k) = Z.lxor b (k mod 256).
Proof.
  intros Hb. apply Z.bits_inj'. intros n Hn.
  rewrite uint8_bits, !Z.lxor_spec by lia.
  fold (JS.to_uint8 k). rewrite <- (uint8_of_byte b Hb) at 2.
  rewrite !uint8_bits by lia.
  now destruct (n <? 8), (Z.testbit b n), (Z.testbit k n).
Qed.

Lemma lxor_fixes (x d : Z) : Z.lxor x d = x -> d = 0.
Proof.
  intros H. assert (E : Z.lxor x (Z.lxor x d) = Z.lxor x x) by now rewrite H.
  now rewrite <- Z.lxor_assoc, Z.lxor_nilpotent, Z.lxor_0_l in E.
Qed.

Lemma scramble_length (k : Z) (b : bytes) : List.length (scramble k b) = List.length b.
Proof. apply length_map. Qed.

Lemma scramble_bytes (k : Z) (b : bytes) : Forall is_byte (scramble k b).
Proof. unfold scramble. apply Forall_forall. intros x Hx. apply in_map_iff in Hx as (y & <- & _). apply uint8_range. Qed.

Lemma scramble_twice (k : Z) (b : bytes) :
  Forall is_byte b -> scramble k (scramble k b) = b.
Proof.
  induction 1 as [|x l Hx _ IH]; simpl; [reflexivity|].
  now rewrite xor_byte_twice, IH.
Qed.

Lemma scramble_same_key (k1 k2 : Z) (b : bytes) :
  k1 mod 256 = k2 mod 256 -> Forall is_byte b -> scramble k1 b = scramble k2 b.
Proof.
  intros Hk Hb. unfold scramble. apply map_ext_in. intros x Hx.
  rewrite Forall_forall in Hb. now rewrite !xor_byte_low_bits, Hk by auto.
Qed.

(** ** Parsing the PIN *)

Lemma split_no_sep (sep : ascii) (s : string) :
  has_char sep s = false -> JS.split sep s = [s].
Proof.
  induction s as [|c s IH]; simpl; [reflexivity|].
  intros H. apply orb_false_iff in H as [Hc Hs].
  now rewrite Hc, IH.
Qed.

Lemma split_at_sep (sep : ascii) (pre post : string) :
  has_char sep pre = false ->
  JS.split sep (pre ++ String sep post) = pre :: JS.split sep post.
Proof.
  induction pre as [|c s IH]; simpl; intros H.
  - now rewrite Ascii.eqb_refl.
  - apply orb_false_iff in H as [Hc Hs]. now rewrite Hc, IH.
Qed.

(** The PIN string is the text between the first [#] and the next one. *)
Lemma pinStr_after_hash (pre post : string) :
  has_char "#" pre = false -> has_char "#" post = false -> post <> EmptyString ->
  pinStr (pre ++ String "#" post) = post.
Proof.
  intros Hpre Hpost Hne. unfold pinStr.
  rewrite split_at_sep, split_no_sep by assumption. simpl.
  destruct post; [contradiction|reflexivity].
Qed.

Lemma pinStr_no_hash (code : string) :
  has_char "#" code = false -> pinStr code = "0"%string.
Proof. intros H. unfold pinStr. now rewrite split_no_sep. Qed.

Lemma digit_val_decimal (c : ascii) :
  is_digit c = true ->
  JS.digit_val 10 c = Some (JS.code c - 48) /\ 0 <= JS.code c - 48 <= 9.
Proof.
  unfold is_digit, JS.digit_val. intros H.
  apply andb_true_iff in H as [H1 H2]. rewrite H1, H2. simpl.
  apply Z.leb_le in H1, H2.
  destruct (Z.ltb_spec (JS.code c - 48) 10); [split; [reflexivity|lia]|lia].
Qed.

Lemma digit_not_hash (c : ascii) : is_digit c = true -> Ascii.eqb c "#" = false.
Proof. intros H. destruct (Ascii.eqb_spec c "#"); [subst; discriminate|reflexivity]. Qed.

Lemma lower_alnum_not_hash (c : ascii) : is_lower_alnum c = true -> Ascii.eqb c "#" = false.
Proof. intros H. destruct (Ascii.eqb_spec c "#"); [subst; discriminate|reflexivity]. Qed.

(** A string that starts with two decimal digits is read in radix 10, with
    no sign and no white space to skip. *)
Lemma parseInt_decimal (c1 c2 : ascii) (r : string) :
  is_digit c1 = true -> is_digit c2 = true ->
  JS.parseInt (String c1 (String c2 r)) =
  option_map (Z.mul 1) (JS.digits 10 (String c1 (String c2 r)) None).
Proof.
  intros H1 H2.
  ascii_cases c1; try discriminate H1; try reflexivity.
  ascii_cases c2; try discriminate H2; reflexivity.
Qed.

Lemma parseInt_four_digits (p1 p2 p3 p4 : ascii) :
  is_digit p1 = true -> is_digit p2 = true -> is_digit p3 = true -> is_digit p4 = true ->
  exists v, 0 <= v <= 9999 /\
    JS.parseInt (String p1 (String p2 (String p3 (String p4 EmptyString)))) = Some v.
Proof.
  intros H1 H2 H3 H4. rewrite parseInt_decimal by assumption.
  destruct (digit_val_decimal p1 H1) as [E1 B1], (digit_val_decimal p2 H2) as [E2 B2],
    (digit_val_decimal p3 H3) as [E3 B3], (digit_val_decimal p4 H4) as [E4 B4].
  cbn [JS.digits]. rewrite E1, E2, E3, E4. cbn [JS.digits option_map].
  eexists. split; [|reflexivity]. lia.
Qed.

Lemma key_of_nonneg_pin (code : string) : 0 <= pin code -> 0 <= deriveKey code <= 255.
Proof.
  intros H. unfold deriveKey, JS.rem.
  pose proof (Z.rem_bound_pos (pin code) 256 H ltac:(lia)). lia.
Qed.

Lemma key_bounds (code : string) : -255 <= deriveKey code <= 255.
Proof.
  unfold deriveKey, JS.rem.
  destruct (Z.le_gt_cases 0 (pin code)) as [H|H].
  - pose proof (Z.rem_bound_pos (pin code) 256 H ltac:(lia)). lia.
  - pose proof (Z.rem_bound_pos_neg (pin code) 256 ltac:(lia) ltac:(lia)). lia.
Qed.

Lemma valid_room_code_shape (code : string) :
  valid_room_code code = true ->
  exists pre p1 p2 p3 p4,
    code = (pre ++ String "#" (String p1 (String p2 (String p3 (String p4 EmptyString)))))%string
    /\ has_char "#" pre = false
    /\ is_digit p1 = true /\ is_digit p2 = true /\ is_digit p3 = true /\ is_digit p4 = true.
Proof.
  unfold valid_room_code. intros H.
  destruct code as [|a1 [|a2 [|a3 [|dash [|b1 [|b2 [|b3 [|hash [|p1 [|p2 [|p3 [|p4 [|? ?]]]]]]]]]]]]];
    try discriminate H.
  cbn in H.
  repeat match goal with
         | E : (_ && _)%bool = true |- _ => apply andb_true_iff in E as [? ?]
         end.
  repeat match goal with
         | E : Ascii.eqb _ _ = true |- _ => apply Ascii.eqb_eq in E; subst
         end.
  exists (String a1 (String a2 (String a3 (String "-" (String b1 (String b2 (String b3 EmptyString))))))).
  exists p1, p2, p3, p4. split; [reflexivity|].
  cbn [has_char].
  rewrite (lower_alnum_not_hash a1), (lower_alnum_not_hash a2), (lower_alnum_not_hash a3),
    (lower_alnum_not_hash b1), (lower_alnum_not_hash b2), (lower_alnum_not_hash b3)
    by assumption.
  repeat split; assumption.
Qed.

Lemma valid_room_code_pin (code : string) :
  valid_room_code code = true -> 0 < pin code <= 9999.
Proof.
  intros H. destruct (valid_room_code_shape code H) as (pre & p1 & p2 & p3 & p4 & -> & Hpre & H1 & H2 & H3 & H4).
  unfold pin. rewrite pinStr_after_hash; [|assumption| |discriminate].
  - destruct (parseInt_four_digits p1 p2 p3 p4 H1 H2 H3 H4) as (v & Hv & ->).
    destruct v; simpl; lia.
  - cbn [has_char].
    now rewrite (digit_not_hash p1), (digit_not_hash p2), (digit_not_hash p3),
      (digit_not_hash p4) by assumption.
Qed.

(** Lower-casing the typed code does not touch what the key is read from. *)
Lemma lower_char_hash (c : ascii) :
  Ascii.eqb (JS.lower_char c) "#" = Ascii.eqb c "#".
Proof. ascii_cases c; reflexivity. Qed.

Lemma lower_char_digit (c : ascii) :
  is_digit (JS.lower_char c) = true -> JS.lower_char c = c.
Proof. ascii_cases c; intros H; try discriminate H; reflexivity. Qed.

Lemma split_toLowerCase (s : string) :
  JS.split "#" (JS.toLowerCase s) = map JS.toLowerCase (JS.split "#" s).
Proof.
  induction s as [|c s IH]; simpl; [reflexivity|].
  rewrite lower_char_hash. destruct (Ascii.eqb c "#"); simpl.
  - now rewrite IH.
  - rewrite IH. destruct (JS.split "#" s); reflexivity.
Qed.

Lemma pinStr_toLowerCase (s : string) :
  pinStr (JS.toLowerCase s) = JS.toLowerCase (pinStr s).
Proof.
  unfold pinStr. rewrite split_toLowerCase, nth_error_map.
  destruct (nth_error (JS.split "#" s) 1) as [[|c r]|]; reflexivity.
Qed.

Lemma toLowerCase_digits (s : string) :
  all_digits (JS.toLowerCase s) = true -> JS.toLowerCase s = s.
Proof.
  induction s as [|c s IH]; simpl; [reflexivity|].
  intros H. apply andb_true_iff in H as [Hc Hs].
  now rewrite (lower_char_digit c Hc), IH.
Qed.

Lemma pin_toLowerCase (typed : string) :
  valid_room_code (JS.toLowerCase typed) = true ->
  pin typed = pin (JS.toLowerCase typed).
Proof.
  intros H. unfold pin. rewrite pinStr_toLowerCase.
  destruct (valid_room_code_shape _ H) as (pre & p1 & p2 & p3 & p4 & E & Hpre & H1 & H2 & H3 & H4).
  assert (Hp : pinStr (JS.toLowerCase typed) =
               String p1 (String p2 (String p3 (String p4 EmptyString)))).
  { rewrite E. apply pinStr_after_hash; [assumption| |discriminate].
    cbn [has_char].
    now rewrite (digit_not_hash p1), (digit_not_hash p2), (digit_not_hash p3),
      (digit_not_hash p4) by assumption. }
  rewrite pinStr_toLowerCase in Hp.
  rewrite toLowerCase_digits; [reflexivity|].
  rewrite Hp. cbn [all_digits]. now rewrite H1, H2, H3, H4.
Qed.

(** ** C4 *)

(** C4.  The obfuscation transform is an involution: scrambling a byte
    sequence twice with the same key, whatever the key, gives the sequence
    back.  For every valid room code, the key the receiver derives from the
    code as typed (in any letter case) is the key the sender derives from the
    code it generated, and that key is an integer in [0,255]. *)
Theorem obfuscation_involution_and_shared_key :
  (forall (k : Z) (b : bytes), Forall is_byte b -> scramble k (scramble k b) = b) /\
  (forall (shareCode : string) (cap : Captured),
      valid_room_code shareCode = true ->
      JS.toLowerCase (cap_receiveCode cap) = shareCode ->
      deriveKey (cap_receiveCode cap) = deriveKey shareCode /\
      0 <= deriveKey shareCode <= 255).
Proof.
  split.
  - exact scramble_twice.
  - intros shareCode cap Hvalid Htyped. split.
    + unfold deriveKey. rewrite pin_toLowerCase; rewrite Htyped; [reflexivity|assumption].
    + apply key_of_nonneg_pin. pose proof (valid_room_code_pin _ Hvalid). lia.
Qed.

Lemma obfuscation_involution_and_shared_key_witness :
  scramble 210 (scramble 210 [0; 7; 255]) = [0; 7; 255] /\
  deriveKey "ABC-def#1234" = deriveKey "abc-def#1234" /\
  0 <= deriveKey "abc-def#1234" <= 255.
Proof.
  split.
  - apply (proj1 obfuscation_involution_and_shared_key).
    repeat constructor; unfold is_byte; lia.
  - apply (proj2 obfuscation_involution_and_shared_key "abc-def#1234"%string
             {| cap_receiveCode := "ABC-def#1234"; cap_transferProgress := -1 |});
      reflexivity.
Defined.

(** ** C9 *)

Lemma split_first_segment (mid rest : string) :
  has_char "#" mid = false -> (rest = EmptyString \/ exists r, rest = String "#" r) ->
  hd_error (JS.split "#" (mid ++ rest)) = Some mid.
Proof.
  intros Hmid Hrest. induction mid as [|c mid IH]; cbn [append].
  - destruct Hrest as [-> | (r & ->)]; reflexivity.
  - cbn [has_char] in Hmid. apply orb_false_iff in Hmid as [Hc Hmid].
    specialize (IH Hmid). cbn [JS.split]. rewrite Hc.
    destruct (JS.split "#" (mid ++ rest)) as [|p ps]; [discriminate IH|].
    cbn in IH. injection IH as ->. reflexivity.
Qed.

(** The PIN text is what stands between the first [#] and the next one, or
    the end of the code; ["0"] replaces an empty text. *)
Lemma pinStr_between (pre mid rest : string) :
  has_char "#" pre = false -> has_char "#" mid = false ->
  (rest = EmptyString \/ exists r, rest = String "#" r) ->
  pinStr (pre ++ String "#" (mid ++ rest)) = JS.str_or (Some mid) "0".
Proof.
  intros Hpre Hmid Hrest. unfold pinStr. rewrite split_at_sep by assumption.
  pose proof (split_first_segment mid rest Hmid Hrest) as H.
  destruct (JS.split "#" (mid ++ rest)) as [|p ps]; [discriminate H|].
  cbn in H. injection H as ->. reflexivity.
Qed.

(** [a % 256] through the absolute value: the sign is that of [a]. *)
Lemma rem_sign_abs (a : Z) : JS.rem a 256 = Z.sgn a * (Z.abs a mod 256).
Proof.
  unfold JS.rem. destruct (Z.lt_trichotomy a 0) as [H|[->|H]]; [| reflexivity |].
  - rewrite Z.sgn_neg, Z.abs_neq by lia.
    replace a with (- - a) at 1 by lia. rewrite Z.rem_opp_l by lia.
    rewrite Z.rem_mod_nonneg by lia. lia.
  - rewrite Z.sgn_pos, Z.abs_eq by lia. rewrite Z.rem_mod_nonneg by lia. lia.
Qed.

(** The key of a code with a PIN of four digits is the number they write,
    modulo 256. *)
Lemma four_digit_key (pre : string) (p1 p2 p3 p4 : ascii) :
  has_char "#" pre = false ->
  is_digit p1 = true -> is_digit p2 = true -> is_digit p3 = true -> is_digit p4 = true ->
  deriveKey (pre ++ String "#" (String p1 (String p2 (String p3 (String p4 EmptyString))))) =
    (1000 * (JS.code p1 - 48) + 100 * (JS.code p2 - 48) + 10 * (JS.code p3 - 48)
     + (JS.code p4 - 48)) mod 256.
Proof.
  intros Hpre H1 H2 H3 H4. unfold deriveKey, pin.
  rewrite pinStr_after_hash; [|assumption| |discriminate].
  - rewrite parseInt_decimal by assumption.
    destruct (digit_val_decimal p1 H1) as [E1 B1], (digit_val_decimal p2 H2) as [E2 B2],
      (digit_val_decimal p3 H3) as [E3 B3], (digit_val_decimal p4 H4) as [E4 B4].
    cbn [JS.digits]. rewrite E1, E2, E3, E4. cbn [JS.digits option_map].
    set (v1 := JS.code p1 - 48) in *. set (v2 := JS.code p2 - 48) in *.
    set (v3 := JS.code p3 - 48) in *. set (v4 := JS.code p4 - 48) in *.
    replace (1 * (10 * (10 * (10 * (10 * 0 + v1) + v2) + v3) + v4))
      with (1000 * v1 + 100 * v2 + 10 * v3 + v4) by lia.
    set (v := 1000 * v1 + 100 * v2 + 10 * v3 + v4).
    assert (Hv : 0 <= v) by (unfold v; lia).
    clearbody v. unfold JS.rem. destruct v as [|q|q]; [reflexivity| |lia].
    cbn [JS.num_or]. apply Z.rem_mod_nonneg; lia.
  - cbn [has_char].
    now rewrite (digit_not_hash p1), (digit_not_hash p2), (digit_not_hash p3),
      (digit_not_hash p4) by assumption.
Qed.

(** C9, as stated, fails for a PIN text with a minus sign: [-500 % 256] is
    [-244] in JavaScript, which lies outside [0,255]. *)
Lemma key_derivation_negative_pin :
  plain_code "abc-def#-500" = true /\
  pinStr "abc-def#-500" = "-500"%string /\
  pin "abc-def#-500" = -500 /\
  deriveKey "abc-def#-500" = -244 /\
  ~ (0 <= deriveKey "abc-def#-500" <= 255).
Proof. repeat split. vm_compute. intros [H _]. apply H. reflexivity. Qed.

(** C9 (amended).  The PIN text of a room code is what stands between the
    first [#] of the code and the next one (or the end), ["0"] standing in
    for an empty text and for a code without [#].  For a plain room code
    (ASCII characters, PIN read as a safe integer): [pin] is the integer
    [parseInt] reads at the start of that text, and 1024 when there is none
    or when it is 0; the key is the JavaScript remainder [pin % 256], which
    has the sign of [pin]: it lies in [0,255] when [pin] is not negative,
    where it is [pin mod 256], and in [-255,0] when [pin] is negative.  A
    valid room code has a key in [0,255], the number its four digits write
    modulo 256.  What a byte is XOR-ed with is in every case the residue of
    the key modulo 256, an integer in [0,255].  When the code has no [#], or
    the PIN text does not start with an integer, or that integer is 0,
    [pin] is 1024 and the key is 0, so the scramble leaves every byte
    unchanged. *)
Theorem key_derivation :
  forall code : string,
    (forall pre mid rest : string,
        code = (pre ++ String "#" (mid ++ rest))%string ->
        has_char "#" pre = false -> has_char "#" mid = false ->
        rest = EmptyString \/ (exists r : string, rest = String "#" r) ->
        (mid <> EmptyString -> pinStr code = mid) /\
        (mid = EmptyString -> pinStr code = "0"%string)) /\
    (has_char "#" code = false -> pinStr code = "0"%string) /\
    (plain_code code = true ->
       (forall v : Z, JS.parseInt (pinStr code) = Some v -> v <> 0 -> pin code = v) /\
       deriveKey code = Z.sgn (pin code) * (Z.abs (pin code) mod 256) /\
       -255 <= deriveKey code <= 255 /\
       (0 <= pin code -> 0 <= deriveKey code <= 255 /\ deriveKey code = pin code mod 256) /\
       (pin code < 0 -> -255 <= deriveKey code <= 0) /\
       (valid_room_code code = true -> 0 <= deriveKey code <= 255) /\
       (forall (pre : string) (p1 p2 p3 p4 : ascii),
           code = (pre ++ String "#" (String p1 (String p2 (String p3 (String p4 EmptyString)))))%string ->
           has_char "#" pre = false ->
           is_digit p1 = true -> is_digit p2 = true -> is_digit p3 = true -> is_digit p4 = true ->
           deriveKey code =
             (1000 * (JS.code p1 - 48) + 100 * (JS.code p2 - 48) + 10 * (JS.code p3 - 48)
              + (JS.code p4 - 48)) mod 256) /\
       (0 <= deriveKey code mod 256 <= 255 /\
        forall b : bytes, Forall is_byte b ->
           scramble (deriveKey code) b = map (fun x => Z.lxor x (deriveKey code mod 256)) b) /\
       (has_char "#" code = false \/ JS.parseInt (pinStr code) = None \/
        JS.parseInt (pinStr code) = Some 0 ->
           pin code = 1024 /\ deriveKey code = 0 /\
           forall b : bytes, Forall is_byte b -> scramble (deriveKey code) b = b)).
Proof.
  intros code.
  split.
  { intros pre mid rest -> Hpre Hmid Hrest.
    rewrite pinStr_between by assumption.
    split; [destruct mid; [contradiction|reflexivity]|now intros ->]. }
  split; [apply pinStr_no_hash|].
  intros _. split.
  { intros v Hv Hne. unfold pin. rewrite Hv. destruct v; [contradiction|reflexivity..]. }
  split; [apply rem_sign_abs|]. split; [apply key_bounds|].
  split.
  { intros H. split; [now apply key_of_nonneg_pin|].
    unfold deriveKey, JS.rem. apply Z.rem_mod_nonneg; lia. }
  split.
  { intros H. unfold deriveKey. rewrite rem_sign_abs, Z.sgn_neg by assumption.
    pose proof (Z.mod_pos_bound (Z.abs (pin code)) 256 ltac:(lia)). lia. }
  split.
  { intros H. apply key_of_nonneg_pin. pose proof (valid_room_code_pin _ H). lia. }
  split.
  { intros pre p1 p2 p3 p4 -> Hpre H1 H2 H3 H4. now apply four_digit_key. }
  split.
  { split; [pose proof (Z.mod_pos_bound (deriveKey code) 256 ltac:(lia)); lia|].
    intros b Hb. unfold scramble. apply map_ext_in. intros x Hx.
    rewrite Forall_forall in Hb. now apply xor_byte_low_bits, Hb. }
  intros H.
  assert (Hpin : pin code = 1024).
  { unfold pin. destruct H as [H|[H|H]].
    - now rewrite pinStr_no_hash.
    - now rewrite H.
    - now rewrite H. }
  assert (Hkey : deriveKey code = 0) by (unfold deriveKey; now rewrite Hpin).
  repeat split; try assumption.
  intros b Hb. rewrite Hkey. unfold scramble.
  rewrite <- (map_id b) at 2. apply map_ext_in. intros x Hx.
  rewrite Forall_forall in Hb. rewrite Z.lxor_0_r. now apply uint8_of_byte, Hb.
Qed.

Lemma key_derivation_witness :
  pinStr "a#12#34" = "12"%string /\
  deriveKey "abc-def#1234" = 210 /\
  -255 <= deriveKey "abc-def#-500" <= 0 /\
  scramble (deriveKey "abc-def#-500") [0; 1; 255] = [12; 13; 243] /\
  (pin "abc-def" = 1024 /\ deriveKey "abc-def" = 0) /\
  (pin "abc-def#wxyz" = 1024 /\ deriveKey "abc-def#wxyz" = 0) /\
  (pin "abc-def#" = 1024 /\ deriveKey "abc-def#" = 0).
Proof.
  split.
  { destruct (key_derivation "a#12#34") as (H & _).
    apply (H "a"%string "12"%string "#34"%string);
      [reflexivity|reflexivity|reflexivity|right; now exists "34"%string|discriminate]. }
  split.
  { destruct (proj2 (proj2 (key_derivation "abc-def#1234")) eq_refl)
      as (_ & _ & _ & _ & _ & _ & H & _).
    apply (H "abc-def"%string "1"%char "2"%char "3"%char "4"%char); reflexivity. }
  split.
  { destruct (proj2 (proj2 (key_derivation "abc-def#-500")) eq_refl)
      as (_ & _ & _ & _ & H & _).
    apply H. reflexivity. }
  split.
  { destruct (proj2 (proj2 (key_derivation "abc-def#-500")) eq_refl)
      as (_ & _ & _ & _ & _ & _ & _ & H & _).
    apply (proj2 H [0; 1; 255]). repeat constructor; unfold is_byte; lia. }
  split; [|split].
  - destruct (proj2 (proj2 (key_derivation "abc-def")) eq_refl)
      as (_ & _ & _ & _ & _ & _ & _ & _ & H).
    destruct (H (or_introl eq_refl)) as (H1 & H2 & _). now split.
  - destruct (proj2 (proj2 (key_derivation "abc-def#wxyz")) eq_refl)
      as (_ & _ & _ & _ & _ & _ & _ & _ & H).
    destruct (H (or_intror (or_introl eq_refl))) as (H1 & H2 & _). now split.
  - destruct (proj2 (proj2 (key_derivation "abc-def#")) eq_refl)
      as (_ & _ & _ & _ & _ & _ & _ & _ & H).
    destruct (H (or_intror (or_intror eq_refl))) as (H1 & H2 & _). now split.
Defined.

(** ** The sender's reply to a chunk request *)

Lemma blob_slice_in_range (data : bytes) (lo hi : Z) :
  0 <= lo <= hi -> hi <= Z.of_nat (List.length data) ->
  JS.blob_slice data lo hi = byte_range data lo hi.
Proof.
  intros H1 H2. unfold JS.blob_slice, byte_range.
  destruct (Z.ltb_spec lo 0); [lia|]. destruct (Z.ltb_spec hi 0); [lia|].
  rewrite !Z.min_l by lia. now rewrite Z.max_l by lia.
Qed.

Lemma byte_range_length (data : bytes) (lo hi : Z) :
  0 <= lo <= hi -> hi <= Z.of_nat (List.length data) ->
  Z.of_nat (List.length (byte_range data lo hi)) = hi - lo.
Proof.
  intros H1 H2. unfold byte_range. rewrite length_firstn, length_skipn. lia.
Qed.

Lemma sendChunk_sized_reply (chunk_size : Z) (shareCode : string) (conn : nat)
    (a : App) (file : File) (o : Z) :
  0 <= chunk_size -> fileToShareRef a = Some file -> 0 <= o <= file_size file ->
  snd (sendChunk_sized chunk_size shareCode o (Some conn) a) =
    [(conn, chunk (Some (scramble (deriveKey shareCode)
                           (byte_range (file_bytes file) o
                              (Z.min (o + chunk_size) (file_size file))))) o)].
Proof.
  intros Hc Hf Ho. unfold sendChunk_sized. rewrite Hf. simpl.
  rewrite blob_slice_in_range; [reflexivity| |]; unfold file_size in *; lia.
Qed.

(** ** C10 *)

(** C10, as stated, fails in its last part: the bytes of a chunk that arrived
    before the metadata are not counted into the transfer that a later
    metadata message starts.  Here three bytes arrive first; the metadata
    message then empties the chunk buffer and sets the byte count to 0. *)
Lemma early_chunk_is_dropped_by_metadata :
  let a1 := fst (receiver_on_data demo_cap (chunk (Some [1; 2; 3]) 0) demo_receiver) in
  let a2 := fst (receiver_on_data demo_cap (metadata "a.bin" 10 "") a1) in
  fileMetaRef demo_receiver = None /\
  receivedBytesRef a1 = 3 /\
  receivedBytesRef a2 = 0 /\ receivedChunksRef a2 = [] /\
  ~ (3 <= receivedBytesRef a2).
Proof. vm_compute. repeat split. intros H. apply H. reflexivity. Qed.

(** C10 (amended).  A chunk with a non-empty payload that arrives while no
    metadata is stored is unscrambled, appended to the chunk buffer and
    counted in the byte count; the handler sets no error, sends nothing,
    leaves the progress value alone and completes nothing.  A metadata
    message that arrives afterwards starts the transfer from an empty chunk
    buffer and a byte count of 0: the early bytes are dropped. *)
Theorem chunk_before_metadata :
  forall (cap : Captured) (a : App) (buffer : bytes) (offset : Z),
    fileMetaRef a = None -> buffer <> [] ->
    let a1 := fst (receiver_on_data cap (chunk (Some buffer) offset) a) in
    snd (receiver_on_data cap (chunk (Some buffer) offset) a) = [] /\
    receivedChunksRef a1 =
      receivedChunksRef a ++ [scramble (deriveKey (cap_receiveCode cap)) buffer] /\
    receivedBytesRef a1 = receivedBytesRef a + Z.of_nat (List.length buffer) /\
    errorStatus a1 = errorStatus a /\
    transferProgress a1 = transferProgress a /\
    completedFile a1 = completedFile a /\
    fileMetaRef a1 = None /\
    forall (name : string) (size : Z) (mime : string),
      let a2 := fst (receiver_on_data cap (metadata name size mime) a1) in
      snd (receiver_on_data cap (metadata name size mime) a1) = [request_chunk 0] /\
      receivedChunksRef a2 = [] /\ receivedBytesRef a2 = 0 /\ transferProgress a2 = 0.
Proof.
  intros cap a buffer offset Hmeta Hne.
  open_app a. cbn [receiver_on_data]. rewrite scramble_length.
  destruct (Z.eqb_spec (Z.of_nat (List.length buffer)) 0) as [E|E].
  { destruct buffer; [contradiction|discriminate E]. }
  cbn. repeat split.
Qed.

Lemma chunk_before_metadata_witness :
  let a1 := fst (receiver_on_data demo_cap (chunk (Some [1; 2; 3]) 0) demo_receiver) in
  snd (receiver_on_data demo_cap (chunk (Some [1; 2; 3]) 0) demo_receiver) = [] /\
  receivedBytesRef a1 = receivedBytesRef demo_receiver + 3.
Proof.
  pose proof (chunk_before_metadata demo_cap demo_receiver [1; 2; 3] 0 eq_refl
                ltac:(discriminate)) as H.
  cbv zeta in H. destruct H as (H1 & _ & H3 & _).
  split; [exact H1|exact H3].
Defined.

(** ** Renders and effects *)

Lemma mode_eqb_refl (m : Mode) : mode_eqb m m = true.
Proof. now destruct m. Qed.

Lemma mode_eqb_eq (m1 m2 : Mode) : mode_eqb m1 m2 = true <-> m1 = m2.
Proof. destruct m1, m2; simpl; split; congruence. Qed.

Lemma effects_same_deps (prev cur : App) :
  mode prev = mode cur -> transferProgress prev = transferProgress cur ->
  isConnected prev = isConnected cur -> effects prev cur = cur.
Proof.
  intros Em Ep Ec. unfold effects, mode_changed, self_destruct_deps_changed.
  now rewrite Em, Ep, Ec, mode_eqb_refl, Z.eqb_refl, eqb_reflx.
Qed.

(** A handler that leaves [mode], [transferProgress] and [isConnected] as
    they were triggers no effect. *)
Lemma commit_same_deps (prev cur : App) :
  mode prev = mode cur -> transferProgress prev = transferProgress cur ->
  isConnected prev = isConnected cur -> commit prev cur = cur.
Proof.
  intros Hm Hp Hc. unfold commit.
  rewrite (effects_same_deps prev cur) by assumption. now apply effects_same_deps.
Qed.

(** What [resetConnection] leaves behind. *)
Lemma resetConnection_clears (a : App) :
  let z := resetConnection a in
  isConnected z = false /\ transferProgress z = -1 /\ fileMeta z = None /\
  fileMetaRef z = None /\ receivedChunksRef z = [] /\ receivedBytesRef z = 0 /\
  completedFile z = None /\ chatMessages z = [] /\ errorStatus z = None /\
  selfDestructSec z = 0 /\ selfDestructRef z = None /\
  connRef z = None /\ peerRef z = false /\ mode z = mode a /\
  handshakeInterval z = handshakeInterval a /\
  fileToShareRef z = fileToShareRef a /\ sessionTransfers z = sessionTransfers a.
Proof.
  open_app a. unfold resetConnection. cbn.
  split_tests; cbn in *; repeat split; assumption.
Qed.

Lemma resetConnection_closes (a : App) :
  (conn_open a = true -> peerRef a = true) -> conn_open (resetConnection a) = false.
Proof.
  intros H. open_app a. unfold resetConnection. cbn.
  split_tests; cbn in *; try reflexivity.
  all: destruct conn_open0; [specialize (H eq_refl); congruence|reflexivity].
Qed.

Lemma resetConnection_intervals (a : App) (id : nat) (p : Z) :
  intervals a = [(id, p)] -> selfDestructRef a = Some id ->
  intervals (resetConnection a) = [].
Proof.
  intros Hi Hr. open_app a. unfold resetConnection, clearInterval.
  destruct connRef0, peerRef0; cbn; now rewrite Nat.eqb_refl.
Qed.

Lemma resetConnection_no_intervals (a : App) :
  intervals a = [] -> intervals (resetConnection a) = [].
Proof.
  intros Hi. open_app a. unfold resetConnection, clearInterval.
  destruct connRef0, peerRef0, selfDestructRef0; reflexivity.
Qed.

Lemma self_destruct_timer_keeps (rendered a : App) :
  session_view (self_destruct_cleanup a) = session_view a /\
  session_view (self_destruct_effect rendered a) = session_view a.
Proof.
  unfold self_destruct_cleanup, self_destruct_effect, clearInterval.
  destruct a; cbn. split; split_tests; reflexivity.
Qed.

Lemma effects_same_mode (prev cur : App) :
  mode prev = mode cur -> session_view (effects prev cur) = session_view cur.
Proof.
  intros Hm. unfold effects, mode_changed. rewrite Hm, mode_eqb_refl. cbn [negb].
  destruct (self_destruct_deps_changed prev cur); [|reflexivity].
  destruct (self_destruct_timer_keeps cur (self_destruct_cleanup cur)) as [_ ->].
  apply self_destruct_timer_keeps. exact cur.
Qed.

Lemma effects_mode (prev cur : App) : mode (effects prev cur) = mode cur.
Proof.
  assert (V : forall a b, session_view a = session_view b -> mode a = mode b).
  { unfold session_view. intros a b E. now injection E. }
  unfold effects.
  set (a1 := if mode_changed prev cur then mode_cleanup cur else cur).
  assert (H1 : mode a1 = mode cur).
  { subst a1. destruct (mode_changed prev cur); [|reflexivity].
    pose proof (resetConnection_clears cur) as H. cbv zeta in H.
    unfold mode_cleanup. destruct (resetConnection cur); cbn in *. tauto. }
  destruct (self_destruct_deps_changed prev cur); [|assumption].
  rewrite <- H1. apply V.
  destruct (self_destruct_timer_keeps cur (self_destruct_cleanup a1)) as [_ ->].
  apply self_destruct_timer_keeps. exact cur.
Qed.

(** Without a change of [mode], the effects only touch the timer. *)
Lemma commit_same_mode (prev cur : App) :
  mode prev = mode cur -> session_view (commit prev cur) = session_view cur.
Proof.
  intros Hm. unfold commit.
  rewrite effects_same_mode by (now rewrite effects_mode).
  now apply effects_same_mode.
Qed.

(** ** C5: the handshake interval *)

Lemma handshake_over_view (a b : App) :
  session_view a = session_view b -> handshake_over b -> handshake_over a.
Proof.
  unfold session_view, handshake_over. intros E H.
  injection E as _ _ _ _ _ _ _ _ Ep _ _ Em _ _ Eo _. now rewrite Ep, Em, Eo.
Qed.

Lemma handshake_over_reset (a : App) :
  (conn_open a = true -> peerRef a = true) -> handshake_over (resetConnection a).
Proof.
  intros H. pose proof (resetConnection_closes a H) as Hc.
  split; [now right|]. rewrite Hc. discriminate.
Qed.

Lemma effects_handshake_over (prev cur : App) :
  handshake_over cur -> handshake_over (effects prev cur).
Proof.
  intros H. unfold effects.
  set (a1 := if mode_changed prev cur then mode_cleanup cur else cur).
  assert (H1 : handshake_over a1).
  { subst a1. destruct (mode_changed prev cur); [|assumption].
    pose proof (handshake_over_reset cur (proj2 H)) as Hr.
    unfold mode_cleanup. now destruct (resetConnection cur). }
  destruct (self_destruct_deps_changed prev cur); [|assumption].
  eapply handshake_over_view; [apply self_destruct_timer_keeps|].
  eapply handshake_over_view; [apply (self_destruct_timer_keeps cur)|]. assumption.
Qed.

Lemma receiver_on_data_no_handshake (cap : Captured) (m : Msg) (a : App) :
  ~ In request_metadata (snd (receiver_on_data cap m a)).
Proof.
  unfold receiver_on_data. split_tests; cbn; intros H;
    repeat destruct H as [H|H]; try discriminate H; assumption.
Qed.

Lemma receiver_on_data_keeps_meta (cap : Captured) (m : Msg) (a : App) :
  fileMetaRef a <> None -> fileMetaRef (fst (receiver_on_data cap m a)) = fileMetaRef a.
Proof.
  intros H. destruct a. unfold receiver_on_data, finalizeDownload.
  destruct m as [| | |[buf|]| |]; cbn in *; try reflexivity.
  - destruct fileMetaRef0; [reflexivity|contradiction].
  - destruct (Z.of_nat (List.length (scramble _ buf)) =? 0); [reflexivity|].
    destruct fileMetaRef0; [|reflexivity].
    destruct (_ <? _); reflexivity.
Qed.

Lemma receiver_on_data_conn (cap : Captured) (m : Msg) (a : App) :
  conn_open (fst (receiver_on_data cap m a)) = conn_open a /\
  peerRef (fst (receiver_on_data cap m a)) = peerRef a /\
  mode (fst (receiver_on_data cap m a)) = mode a.
Proof.
  destruct a. unfold receiver_on_data, finalizeDownload.
  destruct m as [| | |[buf|]| |]; cbn in *; try (repeat split; reflexivity).
  - destruct fileMetaRef0; repeat split.
  - destruct (Z.of_nat (List.length (scramble _ buf)) =? 0); [repeat split|].
    destruct fileMetaRef0; [|repeat split].
    destruct (_ <? _); repeat split.
Qed.

Lemma handle_handshake_over (cap : Captured) (e : Event) (a : App) :
  e <> conn_opened -> handshake_over a ->
  handshake_over (fst (handle cap e a)) /\ ~ In request_metadata (snd (handle cap e a)).
Proof.
  intros He H. destruct e; try contradiction; cbn [handle fst snd].
  - (* handshake_tick *)
    unfold handshake_fire. destruct H as [Hs Hp].
    assert (Hstop : is_some (fileMetaRef a) || negb (conn_open a) = true).
    { destruct Hs as [Hs|Hs].
      - destruct (fileMetaRef a); [reflexivity|contradiction].
      - rewrite Hs. apply orb_true_r. }
    rewrite Hstop. destruct (handshakeInterval a); cbn; (split; [|tauto]).
    + destruct a; split; assumption.
    + split; assumption.
  - (* conn_data *)
    split; [|apply receiver_on_data_no_handshake].
    destruct H as [Hs Hp]. destruct (receiver_on_data_conn cap m a) as (Eo & Ep & _).
    split; rewrite Eo, ?Ep; [|assumption].
    destruct Hs as [Hs|Hs]; [left|now right].
    now rewrite receiver_on_data_keeps_meta.
  - (* conn_closed *)
    split; [|tauto]. unfold receiver_on_close. destruct a; cbn.
    split_tests; cbn; (split; [now right|discriminate]).
  - (* conn_error *)
    split; [|tauto]. unfold receiver_on_conn_error. now destruct a.
  - (* peer_error *)
    split; [|tauto]. unfold receiver_on_peer_error. now destruct a.
  - (* self_destruct_tick *)
    split; [|tauto]. unfold self_destruct_fire.
    destruct (existsb _ _); [|exact H].
    destruct (selfDestructSec a <=? 1).
    + pose proof (handshake_over_reset a (proj2 H)) as Hr.
      now destruct (resetConnection a).
    + now destruct a.
  - (* receive_close_button *)
    split; [|tauto]. now destruct a.
  - (* manual_reset *)
    split; [|tauto].
    pose proof (handshake_over_reset a (proj2 H)) as Hr.
    now destruct (resetConnection a).
Qed.

Lemma step_handshake_over (cap : Captured) (e : Event) (a : App) :
  e <> conn_opened -> handshake_over a ->
  handshake_over (fst (step cap e a)) /\ ~ In request_metadata (snd (step cap e a)).
Proof.
  intros He H. destruct (handle_handshake_over cap e a He H) as [H1 H2].
  unfold step. destruct (handle cap e a) as [a' out]. cbn [fst snd] in *.
  split; [|assumption]. unfold commit. now do 2 apply effects_handshake_over.
Qed.

Lemma steps_handshake_over (cap : Captured) (es : list Event) (a : App) :
  ~ In conn_opened es -> handshake_over a ->
  Forall (fun out => ~ In request_metadata out) (snd (steps cap es a)).
Proof.
  revert a. induction es as [|e es IH]; intros a Hes H; cbn [steps].
  - constructor.
  - assert (He : e <> conn_opened) by (intros ->; apply Hes; now left).
    destruct (step_handshake_over cap e a He H) as [H1 H2].
    destruct (step cap e a) as [a1 out]. cbn [fst snd] in *.
    specialize (IH a1 (fun Hin => Hes (or_intror Hin)) H1).
    destruct (steps cap es a1) as [a2 outs]. cbn [snd] in *.
    now constructor.
Qed.

Lemma step_duplicate_metadata (cap : Captured) (a : App) (name : string) (size : Z)
    (mime : string) :
  fileMetaRef a <> None -> step cap (conn_data (metadata name size mime)) a = (a, []).
Proof.
  intros H. unfold step, handle, receiver_on_data.
  destruct (fileMetaRef a); [|contradiction].
  now rewrite commit_same_deps.
Qed.

Lemma step_first_metadata (cap : Captured) (a : App) (name : string) (size : Z)
    (mime : string) :
  fileMetaRef a = None ->
  let a1 := fst (step cap (conn_data (metadata name size mime)) a) in
  snd (step cap (conn_data (metadata name size mime)) a) = [request_chunk 0] /\
  fileMetaRef a1 = Some {| meta_name := name; meta_size := size; meta_type := mime |} /\
  fileMeta a1 = Some {| meta_name := name; meta_size := size; meta_type := mime |} /\
  receivedChunksRef a1 = [] /\ receivedBytesRef a1 = 0 /\ transferProgress a1 = 0.
Proof.
  intros H. unfold step, handle, receiver_on_data. rewrite H. cbn [fst snd].
  split; [reflexivity|].
  match goal with |- context [commit a ?c] =>
    pose proof (commit_same_mode a c) as V; destruct (commit a c) end.
  destruct a; cbn in *. specialize (V eq_refl). injection V as; subst. repeat split.
Qed.

Lemma steps_duplicate_metadata (cap : Captured) (ms : list Msg) (a : App) :
  fileMetaRef a <> None -> forallb is_metadata ms = true ->
  steps cap (map conn_data ms) a = (a, repeat [] (List.length ms)).
Proof.
  intros Ha. induction ms as [|m ms IH]; cbn [map steps List.length repeat forallb];
    [reflexivity|].
  intros H. apply andb_true_iff in H as [Hm Hms].
  destruct m; try discriminate Hm.
  rewrite step_duplicate_metadata by assumption. now rewrite IH.
Qed.

(** C5.  Opening the connection schedules the handshake interval with a
    period of 500 ms.  Each firing of the interval while no metadata is
    stored and the connection is open sends exactly one request-metadata
    message and leaves the state as it was; a firing once metadata is stored
    or the connection is no longer open sends nothing and cancels the
    interval, and from then on no event of the session makes the receiver
    send a request-metadata message again.  A metadata message that arrives
    when metadata is already stored changes nothing and sends nothing, so of
    any number of metadata replies only the first initialises the transfer:
    it stores the metadata, empties the chunk buffer, zeroes the byte count
    and the progress, and sends the one request for offset 0. *)
Theorem handshake_and_first_metadata :
  HANDSHAKE_MS = 500 /\
  (forall (cap : Captured) (a : App),
      handshakeInterval (fst (step cap conn_opened a)) = Some HANDSHAKE_MS /\
      snd (step cap conn_opened a) = []) /\
  (forall (cap : Captured) (a : App),
      handshakeInterval a <> None -> fileMetaRef a = None -> conn_open a = true ->
      step cap handshake_tick a = (a, [request_metadata])) /\
  (forall (cap : Captured) (a : App),
      fileMetaRef a <> None \/ conn_open a = false ->
      snd (step cap handshake_tick a) = [] /\
      handshakeInterval (fst (step cap handshake_tick a)) = None) /\
  (forall (cap : Captured) (a : App) (es : list Event),
      fileMetaRef a <> None \/ conn_open a = false ->
      (conn_open a = true -> peerRef a = true) ->
      ~ In conn_opened es ->
      Forall (fun out => ~ In request_metadata out) (snd (steps cap es a))) /\
  (forall (cap : Captured) (a : App) (name : string) (size : Z) (mime : string),
      fileMetaRef a <> None ->
      step cap (conn_data (metadata name size mime)) a = (a, [])) /\
  (forall (cap : Captured) (a : App) (name : string) (size : Z) (mime : string)
          (later : list Msg),
      fileMetaRef a = None -> forallb is_metadata later = true ->
      let a1 := fst (step cap (conn_data (metadata name size mime)) a) in
      steps cap (map conn_data (metadata name size mime :: later)) a =
        (a1, [request_chunk 0] :: repeat [] (List.length later)) /\
      fileMetaRef a1 = Some {| meta_name := name; meta_size := size; meta_type := mime |} /\
      receivedChunksRef a1 = [] /\ receivedBytesRef a1 = 0 /\ transferProgress a1 = 0).
Proof.
  split; [reflexivity|]. split.
  { intros cap a. unfold step, handle. cbn [fst snd]. split; [|reflexivity].
    match goal with |- context [commit a ?c] =>
      pose proof (commit_same_mode a c) as V; destruct (commit a c) end.
    destruct a; cbn in *. specialize (V eq_refl). now injection V as. }
  split.
  { intros cap a Hi Hm Ho. unfold step, handle, handshake_fire.
    destruct (handshakeInterval a); [|contradiction].
    rewrite Hm, Ho. cbn. now rewrite commit_same_deps. }
  split.
  { intros cap a Hs. unfold step, handle, handshake_fire.
    assert (Hstop : is_some (fileMetaRef a) || negb (conn_open a) = true).
    { destruct Hs as [Hs|Hs].
      - destruct (fileMetaRef a); [reflexivity|contradiction].
      - rewrite Hs. apply orb_true_r. }
    rewrite Hstop. destruct (handshakeInterval a) eqn:Hi; cbn [fst snd].
    - split; [reflexivity|].
      match goal with |- context [commit a ?c] =>
        pose proof (commit_same_mode a c) as V; destruct (commit a c) end.
      destruct a; cbn in *. specialize (V eq_refl). now injection V as.
    - split; [reflexivity|]. now rewrite commit_same_deps. }
  split.
  { intros cap a es Hs Hp Hes. apply steps_handshake_over; [assumption|]. now split. }
  split.
  { intros. now apply step_duplicate_metadata. }
  intros cap a name size mime later Hm Hl a1.
  destruct (step_first_metadata cap a name size mime Hm) as (Hout & Hmeta & _ & Hc & Hb & Hp).
  fold a1 in Hmeta, Hc, Hb, Hp.
  split; [|repeat split; assumption].
  cbn [map steps].
  destruct (step cap (conn_data (metadata name size mime)) a) as [a1' out] eqn:E.
  cbn [fst snd] in *. subst a1 out.
  rewrite steps_duplicate_metadata; [reflexivity| |assumption].
  rewrite Hmeta. discriminate.
Qed.

Lemma handshake_and_first_metadata_witness :
  step demo_cap handshake_tick demo_receiver = (demo_receiver, [request_metadata]) /\
  (let a1 := fst (step demo_cap (conn_data (metadata "a.bin" 10 "")) demo_receiver) in
   snd (step demo_cap handshake_tick a1) = [] /\
   Forall (fun out => ~ In request_metadata out)
     (snd (steps demo_cap [handshake_tick; conn_closed; handshake_tick; manual_reset;
                           handshake_tick] a1)) /\
   step demo_cap (conn_data (metadata "b.bin" 99 "")) a1 = (a1, [])) /\
  steps demo_cap (map conn_data [metadata "a.bin" 10 ""; metadata "a.bin" 10 "";
                                 metadata "a.bin" 10 ""]) demo_receiver =
    (fst (step demo_cap (conn_data (metadata "a.bin" 10 "")) demo_receiver),
     [[request_chunk 0]; []; []]).
Proof.
  destruct handshake_and_first_metadata as (_ & _ & Hsend & Hstop & Hnever & Hdup & Hfirst).
  split.
  { apply Hsend; [discriminate|reflexivity|reflexivity]. }
  split.
  { cbv zeta. split; [|split].
    - apply Hstop. left. vm_compute. discriminate.
    - apply Hnever.
      + left. vm_compute. discriminate.
      + reflexivity.
      + intros H. repeat destruct H as [H|H]; try discriminate H; assumption.
    - apply Hdup. vm_compute. discriminate. }
  apply (Hfirst demo_cap demo_receiver "a.bin"%string 10 ""%string
           [metadata "a.bin" 10 ""; metadata "a.bin" 10 ""]); reflexivity.
Defined.

(** ** C7: the self-destruct countdown *)

Lemma commit_arms (prev cur : App) :
  mode prev = mode cur ->
  transferProgress prev < 100 -> 100 <= transferProgress cur ->
  isConnected cur = true -> intervals cur = [] ->
  commit prev cur =
    cur |> set_selfDestructSec SELF_DESTRUCT_SEC
        |> set_intervals [(next_interval cur, SELF_DESTRUCT_TICK_MS)]
        |> set_selfDestructRef (Some (next_interval cur))
        |> set_next_interval (S (next_interval cur)).
Proof.
  intros Hm Hp Hc Hi Hn. unfold commit.
  assert (E : effects prev cur =
    cur |> set_selfDestructSec SELF_DESTRUCT_SEC
        |> set_intervals [(next_interval cur, SELF_DESTRUCT_TICK_MS)]
        |> set_selfDestructRef (Some (next_interval cur))
        |> set_next_interval (S (next_interval cur))).
  { unfold effects, mode_changed, self_destruct_deps_changed.
    rewrite Hm, mode_eqb_refl. cbn [negb].
    destruct (Z.eqb_spec (transferProgress prev) (transferProgress cur)); [lia|].
    cbn [andb negb].
    unfold self_destruct_effect. rewrite Hi, (proj2 (Z.leb_le _ _) Hc). cbn [andb].
    unfold self_destruct_cleanup, clearInterval.
    destruct cur; cbn in *; subst. destruct selfDestructRef0; reflexivity. }
  rewrite E. apply effects_same_deps; destruct cur; reflexivity.
Qed.

Lemma interval_scheduled (id : nat) (p : Z) :
  existsb (fun i : nat * Z => Nat.eqb (fst i) id) [(id, p)] = true.
Proof. cbn. now rewrite Nat.eqb_refl. Qed.

Lemma step_tick_decrement (cap : Captured) (id : nat) (sec : Z) (a : App) :
  counting_down id sec a -> 1 < sec ->
  step cap (self_destruct_tick id) a = (set_selfDestructSec (sec - 1) a, []) /\
  counting_down id (sec - 1) (set_selfDestructSec (sec - 1) a).
Proof.
  intros (Hi & Hr & Hs & Hp) Hsec. unfold step, handle, self_destruct_fire.
  rewrite Hi, interval_scheduled, Hs.
  destruct (Z.leb_spec sec 1); [lia|].
  split.
  - rewrite commit_same_deps; destruct a; reflexivity.
  - destruct a; cbn in *. repeat split; assumption.
Qed.

Lemma countdown_ticks (cap : Captured) (id : nat) (k : nat) :
  forall (sec : Z) (a : App),
    counting_down id sec a -> Z.of_nat k < sec ->
    steps cap (repeat (self_destruct_tick id) k) a =
      (set_selfDestructSec (sec - Z.of_nat k) a, repeat [] k) /\
    counting_down id (sec - Z.of_nat k) (set_selfDestructSec (sec - Z.of_nat k) a).
Proof.
  induction k as [|k IH]; intros sec a Ha Hk.
  - cbn [repeat steps]. replace (sec - Z.of_nat 0) with sec by lia.
    assert (E : set_selfDestructSec sec a = a).
    { destruct Ha as (_ & _ & Hs & _). destruct a; cbn in *. now subst. }
    rewrite E. now split.
  - cbn [repeat steps].
    destruct (step_tick_decrement cap id sec a Ha ltac:(lia)) as [E Ha1].
    rewrite E.
    destruct (IH (sec - 1) _ Ha1 ltac:(lia)) as [E2 Ha2].
    rewrite E2.
    assert (Es : set_selfDestructSec (sec - 1 - Z.of_nat k) (set_selfDestructSec (sec - 1) a)
                 = set_selfDestructSec (sec - Z.of_nat (S k)) a).
    { replace (sec - Z.of_nat (S k)) with (sec - 1 - Z.of_nat k) by lia.
      destruct a; reflexivity. }
    rewrite Es in Ha2. rewrite Es. cbn [repeat]. split; [reflexivity|].
    now replace (sec - Z.of_nat (S k)) with (sec - 1 - Z.of_nat k) at 1 by lia.
Qed.

Lemma mode_cleanup_torn_down (a : App) : torn_down a -> torn_down (mode_cleanup a).
Proof.
  intros H. unfold torn_down in H. decompose [and] H; clear H.
  pose proof (resetConnection_clears a) as Hc. cbv zeta in Hc.
  assert (Ho : conn_open (resetConnection a) = false)
    by (apply resetConnection_closes; congruence).
  assert (Hn : intervals (resetConnection a) = [])
    by (now apply resetConnection_no_intervals).
  unfold torn_down, mode_cleanup.
  destruct (resetConnection a); cbn in *. intuition congruence.
Qed.

Lemma effects_torn_down (prev cur : App) : torn_down cur -> torn_down (effects prev cur).
Proof.
  intros H. unfold effects.
  set (a1 := if mode_changed prev cur then mode_cleanup cur else cur).
  assert (H1 : torn_down a1).
  { subst a1. destruct (mode_changed prev cur); [now apply mode_cleanup_torn_down|assumption]. }
  destruct (self_destruct_deps_changed prev cur); [|assumption].
  assert (E1 : self_destruct_cleanup a1 = a1).
  { unfold self_destruct_cleanup.
    now replace (selfDestructRef a1) with (@None nat) by (symmetry; apply H1). }
  assert (E2 : self_destruct_effect cur a1 = a1).
  { unfold self_destruct_effect.
    now replace (transferProgress cur) with (-1) by (symmetry; apply H). }
  now rewrite E1, E2.
Qed.

Lemma teardown_torn_down (a : App) (id : nat) :
  counting_down id (selfDestructSec a) a ->
  torn_down (a |> resetConnection |> set_mode idle |> set_selfDestructSec 0).
Proof.
  intros (Hi & Hr & _ & Hp).
  pose proof (resetConnection_clears a) as Hc. cbv zeta in Hc.
  pose proof (resetConnection_closes a Hp) as Ho.
  pose proof (resetConnection_intervals a id _ Hi Hr) as Hn.
  unfold torn_down. destruct (resetConnection a); cbn in *. tauto.
Qed.

Lemma step_tick_expires (cap : Captured) (id : nat) (a : App) :
  counting_down id 1 a ->
  snd (step cap (self_destruct_tick id) a) = [] /\
  torn_down (fst (step cap (self_destruct_tick id) a)).
Proof.
  intros Ha. pose proof Ha as (Hi & Hr & Hs & Hp).
  unfold step, handle, self_destruct_fire.
  rewrite Hi, interval_scheduled, Hs. cbn [Z.leb Z.compare fst snd]. split; [reflexivity|].
  unfold commit. do 2 apply effects_torn_down.
  apply (teardown_torn_down a id). now rewrite Hs.
Qed.

Lemma step_tick_unscheduled (cap : Captured) (id : nat) (a : App) :
  intervals a = [] -> step cap (self_destruct_tick id) a = (a, []).
Proof.
  intros Hi. unfold step, handle, self_destruct_fire. rewrite Hi. cbn [existsb].
  now rewrite commit_same_deps.
Qed.

Lemma steps_ticks_unscheduled (cap : Captured) (ids : list nat) (a : App) :
  intervals a = [] ->
  steps cap (map self_destruct_tick ids) a = (a, repeat [] (List.length ids)).
Proof.
  intros Hi. induction ids as [|id ids IH]; cbn [map steps List.length repeat];
    [reflexivity|].
  now rewrite step_tick_unscheduled, IH.
Qed.

Lemma steps_app (cap : Captured) (es1 es2 : list Event) (a : App) :
  steps cap (es1 ++ es2) a =
    (fst (steps cap es2 (fst (steps cap es1 a))),
     snd (steps cap es1 a) ++ snd (steps cap es2 (fst (steps cap es1 a)))).
Proof.
  revert a. induction es1 as [|e es1 IH]; intros a; cbn [app steps fst snd].
  - now destruct (steps cap es2 a).
  - destruct (step cap e a) as [a1 out]. rewrite IH.
    destruct (steps cap es1 a1) as [a2 outs]. reflexivity.
Qed.

(** The handler of the chunk that completes the byte count. *)
Lemma receiver_on_final_chunk (cap : Captured) (a : App) (meta : FileMeta)
    (buffer : bytes) (offset : Z) :
  fileMetaRef a = Some meta -> buffer <> [] ->
  meta_size meta <= receivedBytesRef a + Z.of_nat (List.length buffer) ->
  receiver_on_data cap (chunk (Some buffer) offset) a =
    (a |> set_receivedChunksRef
            (receivedChunksRef a ++ [scramble (deriveKey (cap_receiveCode cap)) buffer])
       |> set_receivedBytesRef (receivedBytesRef a + Z.of_nat (List.length buffer))
       |> set_transferProgress 100
       |> set_completedFile
            (Some {| cf_blob :=
                       {| blob_bytes :=
                            concat (receivedChunksRef a ++
                                    [scramble (deriveKey (cap_receiveCode cap)) buffer]);
                          blob_type := JS.str_or (Some (meta_type meta))
                                         "application/octet-stream" |};
                     cf_name := meta_name meta; cf_type := meta_type meta |})
       |> set_sessionTransfers (sessionTransfers a + 1),
     []).
Proof.
  intros Hm Hne Hsz. cbn [receiver_on_data]. rewrite scramble_length.
  destruct (Z.eqb_spec (Z.of_nat (List.length buffer)) 0) as [E|E].
  { destruct buffer; [contradiction|discriminate E]. }
  destruct a; cbn in *; subst. cbn.
  destruct (Z.ltb_spec (receivedBytesRef0 + Z.of_nat (List.length buffer)) (meta_size meta));
    [lia|reflexivity].
Qed.

Lemma close_button_torn_down (id : nat) (sec : Z) (a : App) :
  counting_down id sec a -> torn_down (mode_cleanup (set_mode idle a)).
Proof.
  intros (Hi & Hr & _ & Hp).
  assert (Hi' : intervals (set_mode idle a) = [(id, SELF_DESTRUCT_TICK_MS)]) by now destruct a.
  assert (Hr' : selfDestructRef (set_mode idle a) = Some id) by now destruct a.
  assert (Hp' : conn_open (set_mode idle a) = true -> peerRef (set_mode idle a) = true)
    by now destruct a.
  assert (Hm' : mode (set_mode idle a) = idle) by now destruct a.
  pose proof (resetConnection_clears (set_mode idle a)) as Hc. cbv zeta in Hc.
  pose proof (resetConnection_closes _ Hp') as Ho.
  pose proof (resetConnection_intervals _ id _ Hi' Hr') as Hn.
  unfold torn_down, mode_cleanup. rewrite Hm' in Hc.
  destruct (resetConnection (set_mode idle a)); cbn in *. tauto.
Qed.

(** C7.  The self-destruct duration is 300 seconds and its interval fires
    every 1000 ms.  When the chunk that completes the byte count arrives on
    a connected session, the progress becomes 100, the file is assembled and
    the countdown starts at 300 with one interval scheduled.  Each of the
    first 299 firings only lowers the counter by one; the 300th tears the
    session down: mode idle, disconnected, connection closed, metadata,
    chunk buffer, byte count and completed file cleared, no interval left.
    A manual reset (or the close button of the receive panel) after fewer
    than 300 firings tears the session down at once and leaves no interval
    scheduled, and with no interval scheduled a late firing changes
    nothing. *)
Theorem self_destruct_countdown :
  SELF_DESTRUCT_SEC = 300 /\ SELF_DESTRUCT_TICK_MS = 1000 /\
  (forall (cap : Captured) (a : App) (meta : FileMeta) (buffer : bytes) (offset : Z),
      fileMetaRef a = Some meta -> buffer <> [] ->
      meta_size meta <= receivedBytesRef a + Z.of_nat (List.length buffer) ->
      transferProgress a < 100 -> isConnected a = true -> intervals a = [] ->
      let a1 := fst (step cap (conn_data (chunk (Some buffer) offset)) a) in
      transferProgress a1 = 100 /\ isConnected a1 = true /\ completedFile a1 <> None /\
      selfDestructSec a1 = 300 /\
      intervals a1 = [(next_interval a, SELF_DESTRUCT_TICK_MS)] /\
      selfDestructRef a1 = Some (next_interval a)) /\
  (forall (cap : Captured) (a : App) (id : nat),
      counting_down id 300 a ->
      (forall k : nat, (k < 300)%nat ->
          steps cap (repeat (self_destruct_tick id) k) a =
            (set_selfDestructSec (300 - Z.of_nat k) a, repeat [] k)) /\
      torn_down (fst (steps cap (repeat (self_destruct_tick id) 300) a))) /\
  (forall (cap : Captured) (a : App) (id : nat) (k : nat) (e : Event),
      counting_down id 300 a -> (k < 300)%nat ->
      e = manual_reset \/ (e = receive_close_button /\ mode a = receive) ->
      let a1 := fst (steps cap (repeat (self_destruct_tick id) k) a) in
      let a2 := fst (step cap e a1) in
      mode a1 = mode a /\ torn_down a2) /\
  (forall (cap : Captured) (a : App) (ids : list nat),
      intervals a = [] ->
      steps cap (map self_destruct_tick ids) a = (a, repeat [] (List.length ids))).
Proof.
  split; [reflexivity|]. split; [reflexivity|]. split.
  { intros cap a meta buffer offset Hm Hne Hsz Hp Hc Hi a1. subst a1.
    unfold step, handle.
    rewrite (receiver_on_final_chunk cap a meta buffer offset Hm Hne Hsz). cbn [fst].
    rewrite commit_arms.
    - destruct a; cbn in *; subst. repeat split. discriminate.
    - destruct a; reflexivity.
    - assumption.
    - destruct a; cbn; lia.
    - destruct a; assumption.
    - destruct a; assumption. }
  split.
  { intros cap a id Ha. split.
    - intros k Hk. apply (countdown_ticks cap id k 300 a Ha). lia.
    - change 300%nat with (299 + 1)%nat. rewrite repeat_app, steps_app. cbn [fst].
      destruct (countdown_ticks cap id 299 300 a Ha ltac:(lia)) as [E Ha1].
      rewrite E. cbn [fst repeat steps].
      pose proof (step_tick_expires cap id _ Ha1) as [_ Ht].
      destruct (step cap (self_destruct_tick id) _). exact Ht. }
  split.
  { intros cap a id k e Ha Hk He a1 a2.
    destruct (countdown_ticks cap id k 300 a Ha ltac:(lia)) as [E Ha1].
    subst a2 a1. rewrite E. cbn [fst].
    split; [now destruct a|].
    set (a1 := set_selfDestructSec (300 - Z.of_nat k) a) in *.
    destruct He as [->|[-> Hmode]]; unfold step, handle; cbn [fst].
    - unfold commit. do 2 apply effects_torn_down.
      pose proof Ha1 as (Hi & Hr & _ & Hp).
      pose proof (resetConnection_clears a1) as Hc. cbv zeta in Hc.
      pose proof (resetConnection_closes a1 Hp) as Ho.
      pose proof (resetConnection_intervals a1 id _ Hi Hr) as Hn.
      unfold torn_down. destruct (resetConnection a1); cbn in *. tauto.
    - unfold commit. apply effects_torn_down.
      assert (E1 : effects a1 (set_mode idle a1) = mode_cleanup (set_mode idle a1)).
      { unfold effects, mode_changed, self_destruct_deps_changed.
        subst a1. destruct a; cbn in *; subst. cbn.
        now rewrite Z.eqb_refl, eqb_reflx. }
      rewrite E1. apply (close_button_torn_down id _ a1 Ha1). }
  intros cap a ids Hi. now apply steps_ticks_unscheduled.
Qed.

Lemma self_destruct_countdown_witness :
  let a := fst (step demo_cap (conn_data (metadata "a.bin" 3 "")) demo_receiver) in
  let a1 := fst (step demo_cap (conn_data (chunk (Some [1; 2; 3]) 0)) a) in
  (transferProgress a1 = 100 /\ selfDestructSec a1 = 300) /\
  torn_down (fst (steps demo_cap (repeat (self_destruct_tick 1) 300) a1)) /\
  torn_down (fst (step demo_cap manual_reset
                    (fst (steps demo_cap (repeat (self_destruct_tick 1) 120) a1)))) /\
  steps demo_cap (map self_destruct_tick [1; 1; 2]%nat) (resetConnection a1) =
    (resetConnection a1, [[]; []; []]).
Proof.
  destruct self_destruct_countdown as (_ & _ & Hstart & Hcount & Hcancel & Hlate).
  cbv zeta.
  set (a := fst (step demo_cap (conn_data (metadata "a.bin" 3 "")) demo_receiver)).
  set (a1 := fst (step demo_cap (conn_data (chunk (Some [1; 2; 3]) 0)) a)).
  assert (Ha1 : counting_down 1 300 a1).
  { vm_compute. repeat split. }
  split; [|split; [|split]].
  - destruct (Hstart demo_cap a
                {| meta_name := "a.bin"; meta_size := 3; meta_type := "" |} [1; 2; 3] 0)
      as (H1 & _ & _ & H4 & _).
    + reflexivity.
    + discriminate.
    + vm_compute; discriminate.
    + reflexivity.
    + reflexivity.
    + reflexivity.
    + split; [exact H1|exact H4].
  - exact (proj2 (Hcount demo_cap a1 1%nat Ha1)).
  - refine (proj2 (Hcancel demo_cap a1 1%nat 120%nat manual_reset Ha1 _ (or_introl eq_refl))).
    apply Nat.ltb_lt. reflexivity.
  - apply (Hlate demo_cap (resetConnection a1) [1; 1; 2]%nat). reflexivity.
Defined.

(** ** C8: what the close handler tests *)

(** The form that runs [handleConnectReceiver] is rendered only while
    [transferProgress] is -1, so -1 is what its close handler tests. *)
Lemma submit_captures_initial_progress (receiveCode : string) (conn : nat) (a : App) :
  form_rendered a = true -> cap_transferProgress (fst (submit receiveCode conn a)) = -1.
Proof.
  unfold form_rendered, submit, capture. cbn [fst cap_transferProgress].
  intros H. apply andb_true_iff in H as [_ H]. now apply Z.eqb_eq in H.
Qed.

Lemma close_reports_nothing (cap : Captured) (a : App) :
  cap_transferProgress cap = -1 ->
  errorStatus (fst (step cap conn_closed a)) = errorStatus a.
Proof.
  intros Hc. unfold step, handle, receiver_on_close. rewrite Hc. cbn [fst Z.ltb Z.compare andb].
  match goal with |- context [commit a ?c] =>
    pose proof (commit_same_mode a c) as V; destruct (commit a c) end.
  destruct a; cbn in *. specialize (V eq_refl). now injection V as.
Qed.

(** C8 (code at the failing input).  A receiver submits the form, the
    connection opens, the metadata of an 8-byte file and a first chunk of 4
    bytes arrive, and the channel closes: 4 of 8 bytes are in, the progress
    shown is 50, and the close handler reports nothing, because the
    [transferProgress] it tests is the -1 of the render that showed the
    form. *)
Theorem close_mid_transfer_reports_nothing :
  form_rendered (initial |> set_mode receive) = true /\
  let cap := fst (submit demo_code 7 (initial |> set_mode receive)) in
  let a0 := snd (submit demo_code 7 (initial |> set_mode receive)) in
  let a := fst (steps cap [conn_opened; handshake_tick;
                           conn_data (metadata "a.bin" 8 "");
                           conn_data (chunk (Some [1; 2; 3; 4]) 0)] a0) in
  cap_transferProgress cap = -1 /\
  option_map meta_size (fileMetaRef a) = Some 8 /\ receivedBytesRef a = 4 /\
  transferProgress a = 50 /\ isConnected a = true /\
  errorStatus (fst (step cap conn_closed a)) = None /\
  isConnected (fst (step cap conn_closed a)) = false.
Proof. vm_compute. repeat split. Qed.

(** ** Arithmetic of chunks *)

Lemma chunk_count_pos (chunk_size size : Z) : (1 <= chunk_count chunk_size size)%nat.
Proof. unfold chunk_count. lia. Qed.

Lemma chunk_count_spec (chunk_size size : Z) (k : nat) :
  0 < chunk_size -> 0 < size ->
  (k < chunk_count chunk_size size)%nat <-> Z.of_nat k * chunk_size < size.
Proof.
  intros Hc Hs. unfold chunk_count.
  pose proof (Z.div_mod (size + chunk_size - 1) chunk_size ltac:(lia)) as E.
  pose proof (Z.mod_pos_bound (size + chunk_size - 1) chunk_size Hc) as B.
  set (q := (size + chunk_size - 1) / chunk_size) in *.
  assert (Hq : 1 <= q) by nia.
  rewrite Z.max_r by lia. split; intros Hk.
  - apply Nat2Z.inj_lt in Hk. rewrite Z2Nat.id in Hk by lia. nia.
  - apply Nat2Z.inj_lt. rewrite Z2Nat.id by lia. nia.
Qed.

Lemma chunk_count_empty (chunk_size : Z) : 0 < chunk_size -> chunk_count chunk_size 0 = 1%nat.
Proof.
  intros Hc. unfold chunk_count.
  rewrite Z.div_small by lia. reflexivity.
Qed.

Lemma chunk_offsets_S (chunk_size : Z) (n : nat) :
  chunk_offsets chunk_size (S n) = chunk_offsets chunk_size n ++ [Z.of_nat n * chunk_size].
Proof. unfold chunk_offsets. now rewrite seq_S, map_app. Qed.

Lemma firstn_byte_range (data : bytes) (lo hi : Z) :
  0 <= lo <= hi ->
  firstn (Z.to_nat lo) data ++ byte_range data lo hi = firstn (Z.to_nat hi) data.
Proof.
  intros H. unfold byte_range.
  rewrite <- (firstn_skipn (Z.to_nat lo) (firstn (Z.to_nat hi) data)).
  rewrite firstn_firstn, skipn_firstn_comm.
  rewrite Nat.min_l by lia. now rewrite Z2Nat.inj_sub by lia.
Qed.

Lemma Forall_firstn {A : Type} (P : A -> Prop) (n : nat) (l : list A) :
  Forall P l -> Forall P (firstn n l).
Proof.
  revert l. induction n as [|n IH]; intros l H; cbn; [constructor|].
  destruct H; constructor; auto.
Qed.

Lemma Forall_skipn {A : Type} (P : A -> Prop) (n : nat) (l : list A) :
  Forall P l -> Forall P (skipn n l).
Proof.
  revert l. induction n as [|n IH]; intros l H; cbn; [assumption|].
  destruct H; [constructor|auto].
Qed.

Lemma byte_range_bytes (data : bytes) (lo hi : Z) :
  Forall is_byte data -> Forall is_byte (byte_range data lo hi).
Proof. intros H. unfold byte_range. now apply Forall_firstn, Forall_skipn. Qed.

(** ** The transfer run: each delivery *)

Section TransferProofs.

Variable chunk_size : Z.
Variable shareCode : string.
Variable cap : Captured.
Variable conn : nat.
Variable file : File.
Variable r0 : App.
Variable d : nat.

Hypothesis chunk_size_pos : 0 < chunk_size.
Hypothesis same_key : deriveKey (cap_receiveCode cap) = deriveKey shareCode.
Hypothesis file_is_bytes : Forall is_byte (file_bytes file).

Local Abbreviation size := (file_size file).
Local Abbreviation data := (file_bytes file).
Local Abbreviation offset := (offset_of chunk_size).
Local Abbreviation chunk_k := (chunk_msg chunk_size shareCode file).

Lemma offset_of_S (k : nat) : offset (S k) = offset k + chunk_size.
Proof. unfold offset_of. rewrite Nat2Z.inj_succ. ring. Qed.

Lemma offset_of_nonneg (k : nat) : 0 <= offset k.
Proof. unfold offset_of. nia. Qed.

Lemma sender_handshake_reply_handler (s : App) :
  fileToShareRef s = Some file ->
  sender_on_data chunk_size shareCode conn request_metadata s =
    (s, [(conn, file_metadata file)]).
Proof. intros H. cbn [sender_on_data]. now rewrite H. Qed.

Lemma sender_chunk_reply_handler (s : App) (k : nat) :
  fileToShareRef s = Some file -> offset k <= size ->
  exists s' : App,
    sender_on_data chunk_size shareCode conn (request_chunk (offset k)) s =
      (s', [(conn, chunk_k k)]) /\
    fileToShareRef s' = Some file.
Proof.
  intros H Hk. pose proof (offset_of_nonneg k).
  cbn [sender_on_data]. unfold sendChunk_sized. rewrite H.
  rewrite blob_slice_in_range by (unfold file_size in *; lia).
  eexists. split; [reflexivity|]. now destruct s.
Qed.

Lemma sent_on_same (m : Msg) : sent_on conn [(conn, m)] = [m].
Proof. unfold sent_on. cbn. now rewrite Nat.eqb_refl. Qed.

Lemma receiver_first_metadata_handler :
  fileMetaRef r0 = None ->
  exists r : App,
    receiver_on_data cap (file_metadata file) r0 = (r, [request_chunk 0]) /\
    waiting chunk_size file r0 0 r.
Proof.
  intros H. unfold file_metadata. cbn [receiver_on_data]. rewrite H.
  eexists. split; [reflexivity|]. unfold waiting. destruct r0. app_cbn.
  repeat split.
Qed.

Lemma receiver_duplicate_metadata_handler (k : nat) (r : App) :
  waiting chunk_size file r0 k r ->
  receiver_on_data cap (file_metadata file) r = (r, []).
Proof.
  intros (H & _). unfold file_metadata. cbn [receiver_on_data]. now rewrite H.
Qed.

(** What the receiver does with chunk [k] up to the test on the byte
    count. *)
Lemma receiver_chunk (k : nat) (r : App) :
  waiting chunk_size file r0 k r -> offset k < size ->
  let e := Z.min (offset k + chunk_size) size in
  let r1 := r |> set_receivedChunksRef
                    (receivedChunksRef r ++ [byte_range data (offset k) e])
              |> set_receivedBytesRef e in
  concat (receivedChunksRef r1) = firstn (Z.to_nat e) data /\
  receiver_on_data cap (chunk_k k) r =
    if e <? size
    then (r1 |> set_transferProgress (Z.min 99 (percent e size)), [request_chunk e])
    else (r1 |> set_transferProgress 100
             |> finalizeDownload (file_name file) (file_type file), []).
Proof.
  intros (Hm & _ & Hc & _ & Hb & _) Hlt e r1.
  pose proof (offset_of_nonneg k) as Hk.
  assert (He : offset k < e <= size) by (subst e; lia).
  split.
  - subst r1. destruct r. app_cbn.
    rewrite concat_app, Hc. cbn [concat]. rewrite app_nil_r.
    apply firstn_byte_range. lia.
  - unfold chunk_msg. cbn [receiver_on_data].
    rewrite same_key, scramble_twice by (now apply byte_range_bytes).
    rewrite byte_range_length by (unfold file_size in *; lia).
    fold e. destruct (Z.eqb_spec (e - offset k) 0) as [E|_]; [lia|].
    subst r1. destruct r. app_cbn. subst.
    replace (offset k + (e - offset k)) with e by lia.
    unfold file_meta. app_cbn. reflexivity.
Qed.

Local Abbreviation n := (chunks chunk_size file).
Local Abbreviation in_phase := (Phase chunk_size shareCode file r0 d).
Local Abbreviation holds := (waiting chunk_size file r0).
Local Abbreviation progress := (progress_after chunk_size file).

Lemma receiver_chunk_more_handler (k : nat) (r : App) :
  holds k r -> offset (S k) < size ->
  exists r' : App,
    receiver_on_data cap (chunk_k k) r = (r', [request_chunk (offset (S k))]) /\
    holds (S k) r'.
Proof.
  intros Hw Hlt. pose proof (offset_of_nonneg k) as Hk. rewrite offset_of_S in Hlt.
  destruct (receiver_chunk k r Hw ltac:(lia)) as [Hc E]. cbv zeta in Hc, E.
  rewrite Z.min_l in Hc, E by lia.
  destruct (Z.ltb_spec (offset k + chunk_size) size); [|lia].
  rewrite <- offset_of_S in Hc, E. eexists. split; [exact E|].
  destruct Hw as (Hm & Hm' & _ & Hl & _ & _ & Hcf & He).
  unfold waiting. destruct r. app_cbn. subst.
  rewrite length_app, Nat.add_1_r. repeat split; assumption.
Qed.

Lemma receiver_chunk_last_handler (k : nat) (r : App) :
  holds k r -> offset k < size -> size <= offset (S k) -> (S k = n)%nat ->
  exists r' : App,
    receiver_on_data cap (chunk_k k) r = (r', []) /\
    completed chunk_size file r0 r'.
Proof.
  intros Hw Hlt Hge Hn. pose proof (offset_of_nonneg k) as Hk. rewrite offset_of_S in Hge.
  destruct (receiver_chunk k r Hw Hlt) as [Hc E]. cbv zeta in Hc, E.
  rewrite Z.min_r in Hc, E by lia.
  rewrite Z.ltb_irrefl in E. eexists. split; [exact E|].
  destruct Hw as (Hm & Hm' & _ & Hl & _ & _ & Hcf & He).
  assert (Hall : firstn (Z.to_nat size) data = data).
  { apply firstn_all2. unfold file_size. lia. }
  unfold completed. destruct r. app_cbn. subst. rewrite Hc, Hall.
  rewrite length_app, Nat.add_1_r. repeat split; assumption.
Qed.

Lemma receiver_chunk_empty_handler (r : App) :
  holds 0 r -> size = 0 ->
  exists r' : App,
    receiver_on_data cap (chunk_k 0) r = (r', []) /\ rejected file r0 r'.
Proof.
  intros (Hm & _ & _ & Hl & Hb & Hp & Hcf & He) Hs.
  unfold chunk_msg, offset_of. cbn [Z.of_nat Z.mul Z.add]. rewrite Hs.
  rewrite Z.min_r by lia. unfold byte_range. cbn [Z.sub Z.to_nat firstn scramble map].
  cbn [receiver_on_data scramble map List.length Z.of_nat Z.eqb].
  eexists. split; [reflexivity|].
  apply length_zero_iff_nil in Hl.
  unfold rejected. destruct r. app_cbn. subst. repeat split; assumption.
Qed.

(** *** The same, followed by the render *)

Lemma waiting_view (k : nat) (a b : App) :
  session_view a = session_view b -> holds k b -> holds k a.
Proof.
  unfold session_view, waiting. intros E H.
  injection E as _ _ E1 E2 E3 E4 _ _ _ _ _ E5 E6 E7 _ _.
  now rewrite E1, E2, E3, E4, E5, E6, E7.
Qed.

Lemma completed_view (a b : App) :
  session_view a = session_view b ->
  completed chunk_size file r0 b -> completed chunk_size file r0 a.
Proof.
  unfold session_view, completed. intros E H.
  injection E as _ _ E1 E2 E3 E4 _ _ _ _ _ E5 E6 E7 _ _.
  now rewrite E1, E2, E4, E5, E6, E7.
Qed.

Lemma rejected_view (a b : App) :
  session_view a = session_view b -> rejected file r0 b -> rejected file r0 a.
Proof.
  unfold session_view, rejected. intros E H.
  injection E as _ _ E1 E2 E3 E4 _ _ _ _ _ E5 E6 E7 _ _.
  now rewrite E1, E2, E4, E5, E6, E7.
Qed.

(** A property of the session that holds after the handler holds after the
    render that follows it. *)
Lemma receiver_step_lift (P : App -> Prop) (m : Msg) (r r' : App) (out : list Msg) :
  (forall a b : App, session_view a = session_view b -> P b -> P a) ->
  receiver_on_data cap m r = (r', out) -> P r' ->
  exists r'' : App, step cap (conn_data m) r = (r'', out) /\ P r''.
Proof.
  intros HP E H. unfold step, handle. rewrite E.
  eexists. split; [reflexivity|]. apply (HP _ r'); [|assumption].
  apply commit_same_mode.
  pose proof (receiver_on_data_conn cap m r) as (_ & _ & Hm). rewrite E in Hm.
  now symmetry.
Qed.

Lemma sender_handshake_reply (s : App) :
  fileToShareRef s = Some file ->
  sender_step chunk_size shareCode conn request_metadata s =
    (s, [(conn, file_metadata file)]).
Proof.
  intros H. unfold sender_step. rewrite (sender_handshake_reply_handler s H).
  now rewrite commit_same_deps.
Qed.

Lemma sender_chunk_reply (s : App) (k : nat) :
  fileToShareRef s = Some file -> offset k <= size ->
  exists s' : App,
    sender_step chunk_size shareCode conn (request_chunk (offset k)) s =
      (s', [(conn, chunk_k k)]) /\
    fileToShareRef s' = Some file.
Proof.
  intros H Hk. destruct (sender_chunk_reply_handler s k H Hk) as (s' & E & Hs').
  unfold sender_step. rewrite E. eexists. split; [reflexivity|].
  assert (Hm : mode s = mode s').
  { cbn [sender_on_data] in E. unfold sendChunk_sized in E. rewrite H in E.
    injection E as <-. now destruct s. }
  pose proof (commit_same_mode s s' Hm) as V. unfold session_view in V.
  injection V as _ _ _ _ _ _ _ _ _ _ V _ _ _ _ _. now rewrite V.
Qed.

Lemma receiver_first_metadata :
  fileMetaRef r0 = None ->
  exists r : App,
    step cap (conn_data (file_metadata file)) r0 = (r, [request_chunk 0]) /\ holds 0 r.
Proof.
  intros H. destruct (receiver_first_metadata_handler H) as (r & E & Hw).
  exact (receiver_step_lift _ _ _ _ _ (waiting_view 0) E Hw).
Qed.

Lemma receiver_duplicate_metadata (k : nat) (r : App) :
  holds k r -> step cap (conn_data (file_metadata file)) r = (r, []).
Proof.
  intros (H & _). unfold file_metadata. apply step_duplicate_metadata.
  rewrite H. discriminate.
Qed.

Lemma receiver_chunk_more (k : nat) (r : App) :
  holds k r -> offset (S k) < size ->
  exists r' : App,
    step cap (conn_data (chunk_k k)) r = (r', [request_chunk (offset (S k))]) /\
    holds (S k) r'.
Proof.
  intros Hw Hlt. destruct (receiver_chunk_more_handler k r Hw Hlt) as (r' & E & Hw').
  exact (receiver_step_lift _ _ _ _ _ (waiting_view (S k)) E Hw').
Qed.

Lemma receiver_chunk_last (k : nat) (r : App) :
  holds k r -> offset k < size -> size <= offset (S k) -> (S k = n)%nat ->
  exists r' : App,
    step cap (conn_data (chunk_k k)) r = (r', []) /\ completed chunk_size file r0 r'.
Proof.
  intros Hw Hlt Hge Hn.
  destruct (receiver_chunk_last_handler k r Hw Hlt Hge Hn) as (r' & E & Hw').
  exact (receiver_step_lift _ _ _ _ _ completed_view E Hw').
Qed.

Lemma receiver_chunk_empty (r : App) :
  holds 0 r -> size = 0 ->
  exists r' : App,
    step cap (conn_data (chunk_k 0)) r = (r', []) /\ rejected file r0 r'.
Proof.
  intros Hw Hs. destruct (receiver_chunk_empty_handler r Hw Hs) as (r' & E & Hw').
  exact (receiver_step_lift _ _ _ _ _ rejected_view E Hw').
Qed.

(** *** Deliveries *)

Lemma deliver_to_receiver_none (net : Net) :
  to_receiver net = [] -> deliver_to_receiver cap net = None.
Proof. intros H. unfold deliver_to_receiver. now rewrite H. Qed.

Lemma deliver_to_sender_none (net : Net) :
  to_sender net = [] -> deliver_to_sender chunk_size shareCode conn net = None.
Proof. intros H. unfold deliver_to_sender. now rewrite H. Qed.

Lemma deliver_to_receiver_cons (net : Net) (m : Msg) (rest : list Msg) (r : App)
    (out : list Msg) :
  to_receiver net = m :: rest ->
  step cap (conn_data m) (receiver_app net) = (r, out) ->
  deliver_to_receiver cap net =
    Some {| sender_app := sender_app net; receiver_app := r;
            to_sender := to_sender net ++ out; to_receiver := rest;
            requested := requested net ++ offsets_of out;
            shown := shown net ++ [transferProgress r] |}.
Proof. intros H E. unfold deliver_to_receiver. now rewrite H, E. Qed.

Lemma deliver_to_sender_cons (net : Net) (m : Msg) (rest : list Msg) (s : App)
    (reply : Msg) :
  to_sender net = m :: rest ->
  sender_step chunk_size shareCode conn m (sender_app net) = (s, [(conn, reply)]) ->
  deliver_to_sender chunk_size shareCode conn net =
    Some {| sender_app := s; receiver_app := receiver_app net;
            to_sender := rest; to_receiver := to_receiver net ++ [reply];
            requested := requested net; shown := shown net |}.
Proof. intros H E. unfold deliver_to_sender. now rewrite H, E, sent_on_same. Qed.

(** Whichever direction the scheduler prefers, the step taken is one of
    the two deliveries, and one of them is possible. *)
Lemma net_step_either (Q : Net -> Prop) (b : bool) (net : Net) :
  (deliver_to_receiver cap net = None \/
   exists net', deliver_to_receiver cap net = Some net' /\ Q net') ->
  (deliver_to_sender chunk_size shareCode conn net = None \/
   exists net', deliver_to_sender chunk_size shareCode conn net = Some net' /\ Q net') ->
  (to_receiver net <> [] \/ to_sender net <> []) ->
  exists net', net_step chunk_size shareCode cap conn b net = Some net' /\ Q net'.
Proof.
  intros HR HT Hone. unfold net_step.
  destruct HR as [HR|(nr & HR & Hr)], HT as [HT|(nt & HT & Ht)]; rewrite HR, HT.
  - exfalso. unfold deliver_to_receiver, deliver_to_sender in HR, HT.
    destruct (to_receiver net) as [|m1 l1].
    + destruct (to_sender net) as [|m2 l2]; [destruct Hone; congruence|].
      destruct (sender_step _ _ _ _ _); discriminate.
    + destruct (step _ _ _); discriminate.
  - exists nt. now destruct b.
  - exists nr. now destruct b.
  - destruct b; [exists nr|exists nt]; now split.
Qed.

Lemma repeat_snoc {A : Type} (x : A) (k : nat) : repeat x k ++ [x] = repeat x (S k).
Proof. symmetry. apply repeat_cons. Qed.

Lemma phase_index (a b : nat) (net : Net) : in_phase a net -> a = b -> in_phase b net.
Proof. now intros H <-. Qed.

Hypothesis receiver_fresh : fileMetaRef r0 = None.

(** *** One delivery in each phase *)

Lemma step_handshake (b : bool) (i j m : nat) (net : Net) :
  (i + j = d)%nat -> (1 <= d)%nat ->
  fileToShareRef (sender_app net) = Some file ->
  receiver_app net = r0 ->
  to_sender net = repeat request_metadata i ->
  to_receiver net = repeat (file_metadata file) j ->
  requested net = [] -> shown net = [] ->
  (2 * i + j + 2 * n = S m)%nat ->
  exists net', net_step chunk_size shareCode cap conn b net = Some net' /\ in_phase m net'.
Proof.
  intros Hd Hd1 Hs Hr Hts Htr Hq Hsh Hm. apply net_step_either.
  - destruct j as [|j]; [left; now apply deliver_to_receiver_none|right].
    destruct receiver_first_metadata as (r1 & E & Hw); [assumption|].
    rewrite <- Hr in E. cbn [repeat] in Htr.
    eexists. split; [exact (deliver_to_receiver_cons net _ _ _ _ Htr E)|].
    apply (phase_index (2 * i + j + 2 * n)); [|lia].
    apply (phase_first_request _ _ _ _ _ 1 i j); net_fields; try assumption; try lia; try reflexivity.
    + now rewrite Hts.
    + now rewrite Hq.
    + destruct Hw as (_ & _ & _ & _ & _ & -> & _). now rewrite Hsh.
  - destruct i as [|i]; [left; now apply deliver_to_sender_none|right].
    cbn [repeat] in Hts.
    eexists. split;
      [exact (deliver_to_sender_cons net _ _ _ _ Hts (sender_handshake_reply _ Hs))|].
    apply (phase_index (2 * i + S j + 2 * n)); [|lia].
    apply (phase_handshake _ _ _ _ _ i (S j)); net_fields; try assumption; try lia; try reflexivity.
    now rewrite Htr, repeat_snoc.
  - rewrite Hts, Htr. destruct i, j; cbn; [exfalso; lia|left|right|left]; discriminate.
Qed.

Lemma step_first_request (b : bool) (h i j m : nat) (net : Net) :
  (h + i + j = d)%nat -> (1 <= h)%nat ->
  fileToShareRef (sender_app net) = Some file ->
  holds 0 (receiver_app net) ->
  to_sender net = repeat request_metadata i ++ [request_chunk 0] ->
  to_receiver net = repeat (file_metadata file) j ->
  requested net = [0] -> shown net = repeat 0 h ->
  (2 * i + j + 2 * n = S m)%nat ->
  exists net', net_step chunk_size shareCode cap conn b net = Some net' /\ in_phase m net'.
Proof.
  intros Hd Hh Hs Hw Hts Htr Hq Hsh Hm. apply net_step_either.
  - destruct j as [|j]; [left; now apply deliver_to_receiver_none|right].
    cbn [repeat] in Htr.
    eexists. split;
      [exact (deliver_to_receiver_cons net _ _ _ _ Htr (receiver_duplicate_metadata _ _ Hw))|].
    apply (phase_index (2 * i + j + 2 * n)); [|lia].
    apply (phase_first_request _ _ _ _ _ (S h) i j); net_fields; try assumption; try lia; try reflexivity.
    + now rewrite app_nil_r.
    + now rewrite app_nil_r.
    + destruct Hw as (_ & _ & _ & _ & _ & -> & _). now rewrite Hsh, repeat_snoc.
  - right. destruct i as [|i]; cbn [repeat app] in Hts.
    + destruct (sender_chunk_reply (sender_app net) 0 Hs) as (s' & E & Hs').
      { unfold offset_of, file_size. cbn. lia. }
      change (offset 0) with 0 in E.
      eexists. split; [exact (deliver_to_sender_cons net _ _ _ _ Hts E)|].
      apply (phase_index (j + 2 * (n - 0) - 1)); [|lia].
      apply (phase_chunk_sent _ _ _ _ _ h j 0); net_fields; try assumption; try lia; try reflexivity.
      * pose proof (chunk_count_pos chunk_size size). unfold chunks. lia.
      * now rewrite Htr.
      * now rewrite Hsh, app_nil_r.
    + eexists. split;
        [exact (deliver_to_sender_cons net _ _ _ _ Hts (sender_handshake_reply _ Hs))|].
      apply (phase_index (2 * i + S j + 2 * n)); [|lia].
      apply (phase_first_request _ _ _ _ _ h i (S j)); net_fields; try assumption; try lia; try reflexivity.
      now rewrite Htr, repeat_snoc.
  - right. rewrite Hts. now destruct (repeat request_metadata i).
Qed.

Lemma chunks_more (k : nat) : 0 < size -> (k < n)%nat <-> offset k < size.
Proof. intros Hs. now apply chunk_count_spec. Qed.

Lemma step_chunk_sent (b : bool) (h j k m : nat) (net : Net) :
  (h + j = d)%nat -> (1 <= h)%nat -> (j = 0 \/ k = 0)%nat -> (k < n)%nat ->
  fileToShareRef (sender_app net) = Some file ->
  holds k (receiver_app net) ->
  to_sender net = [] ->
  to_receiver net = repeat (file_metadata file) j ++ [chunk_k k] ->
  requested net = chunk_offsets chunk_size (S k) ->
  shown net = repeat 0 h ++ map progress (seq 1 k) ->
  (j + 2 * (n - k) - 1 = S m)%nat ->
  exists net', net_step chunk_size shareCode cap conn b net = Some net' /\ in_phase m net'.
Proof.
  intros Hd Hh Hjk Hk Hs Hw Hts Htr Hq Hsh Hm. apply net_step_either.
  - right. destruct j as [|j]; cbn [repeat app] in Htr.
    + (* the chunk itself *)
      assert (Hhd : h = d) by lia. subst h.
      destruct (Z_lt_le_dec 0 size) as [Hpos|Hzero].
      * pose proof (proj1 (chunks_more k Hpos) Hk) as Hlt.
        destruct (Z_lt_le_dec (offset (S k)) size) as [Hmore|Hlast].
        -- destruct (receiver_chunk_more k _ Hw Hmore) as (r' & E & Hw').
           eexists. split; [exact (deliver_to_receiver_cons net _ _ _ _ Htr E)|].
           pose proof (proj2 (chunks_more (S k) Hpos) Hmore) as Hk'.
           apply (phase_index (2 * (n - S k))); [|lia].
           apply (phase_chunk_requested _ _ _ _ _ (S k)); net_fields;
             try assumption; try lia; try reflexivity.
           ++ now rewrite Hts.
           ++ now rewrite Hq, (chunk_offsets_S _ (S k)).
           ++ destruct Hw' as (_ & _ & _ & _ & _ & -> & _).
              now rewrite Hsh, seq_S, map_app, <- app_assoc.
        -- assert (Hn : S k = n).
           { destruct (Nat.lt_ge_cases (S k) n) as [Hc|Hc]; [|lia].
             apply (chunks_more (S k) Hpos) in Hc. lia. }
           destruct (receiver_chunk_last k _ Hw Hlt Hlast Hn) as (r' & E & Hw').
           eexists. split; [exact (deliver_to_receiver_cons net _ _ _ _ Htr E)|].
           apply (phase_index 0); [|lia].
           apply phase_complete; net_fields; try assumption; try reflexivity.
           ++ now rewrite Hts.
           ++ now rewrite Hq, app_nil_r, Hn.
           ++ destruct Hw' as (_ & _ & _ & _ & -> & _).
              rewrite Hsh, <- app_assoc. now replace (n - 1)%nat with k by lia.
      * assert (Hsz : size = 0) by (unfold file_size in *; lia).
        assert (Hn1 : n = 1%nat) by (unfold chunks; rewrite Hsz; now apply chunk_count_empty).
        assert (k = 0)%nat by lia. subst k.
        destruct (receiver_chunk_empty _ Hw Hsz) as (r' & E & Hw').
        eexists. split; [exact (deliver_to_receiver_cons net _ _ _ _ Htr E)|].
        apply (phase_index 0); [|lia].
        apply phase_rejected; net_fields; try assumption; try reflexivity.
        -- now rewrite Hts.
        -- now rewrite Hq, app_nil_r.
        -- destruct Hw' as (_ & _ & _ & -> & _). now rewrite Hsh, <- app_assoc.
    + (* a late copy of the metadata *)
      assert (k = 0)%nat by lia. subst k.
      eexists. split;
        [exact (deliver_to_receiver_cons net _ _ _ _ Htr (receiver_duplicate_metadata _ _ Hw))|].
      apply (phase_index (j + 2 * (n - 0) - 1)); [|lia].
      apply (phase_chunk_sent _ _ _ _ _ (S h) j 0); net_fields; try assumption; try lia; try reflexivity.
      * now rewrite Hts.
      * now rewrite app_nil_r.
      * destruct Hw as (_ & _ & _ & _ & _ & -> & _).
        cbn [seq map] in *. now rewrite Hsh, !app_nil_r, repeat_snoc.
  - left. now apply deliver_to_sender_none.
  - left. rewrite Htr. now destruct (repeat (file_metadata file) j).
Qed.

Lemma step_chunk_requested (b : bool) (k m : nat) (net : Net) :
  (1 <= d)%nat -> (1 <= k)%nat -> (k < n)%nat ->
  fileToShareRef (sender_app net) = Some file ->
  holds k (receiver_app net) ->
  to_sender net = [request_chunk (offset k)] ->
  to_receiver net = [] ->
  requested net = chunk_offsets chunk_size (S k) ->
  shown net = repeat 0 d ++ map progress (seq 1 k) ->
  (2 * (n - k) = S m)%nat ->
  exists net', net_step chunk_size shareCode cap conn b net = Some net' /\ in_phase m net'.
Proof.
  intros Hd Hk1 Hk Hs Hw Hts Htr Hq Hsh Hm. apply net_step_either.
  - left. now apply deliver_to_receiver_none.
  - right.
    assert (Hpos : 0 < size).
    { destruct (Z_lt_le_dec 0 size) as [Hp|Hz]; [assumption|].
      assert (Hsz : size = 0) by (unfold file_size in *; lia).
      unfold chunks in Hk. rewrite Hsz, chunk_count_empty in Hk by assumption. lia. }
    pose proof (proj1 (chunks_more k Hpos) Hk) as Hlt.
    destruct (sender_chunk_reply (sender_app net) k Hs ltac:(lia)) as (s' & E & Hs').
    eexists. split; [exact (deliver_to_sender_cons net _ _ _ _ Hts E)|].
    apply (phase_index (0 + 2 * (n - k) - 1)); [|lia].
    apply (phase_chunk_sent _ _ _ _ _ d 0 k); net_fields; try assumption; try lia; try reflexivity.
    now rewrite Htr.
  - right. rewrite Hts. discriminate.
Qed.

Lemma phase_step (b : bool) (m : nat) (net : Net) :
  in_phase (S m) net ->
  exists net', net_step chunk_size shareCode cap conn b net = Some net' /\ in_phase m net'.
Proof.
  intros H. remember (S m) as a eqn:Ha. destruct H.
  - eapply step_handshake; eassumption.
  - eapply step_first_request; eassumption.
  - eapply step_chunk_sent; eassumption.
  - eapply step_chunk_requested; eassumption.
  - discriminate Ha.
  - discriminate Ha.
Qed.

(** *** The whole run *)

Lemma phase_final_stops (b : bool) (net : Net) :
  in_phase 0 net -> net_step chunk_size shareCode cap conn b net = None.
Proof.
  intros H. pose proof (chunk_count_pos chunk_size size) as Hn. fold n in Hn.
  assert (E : to_sender net = [] /\ to_receiver net = []).
  { remember 0%nat as a eqn:Ha. destruct H; try (exfalso; lia); now split. }
  destruct E as [Hts Htr]. unfold net_step.
  rewrite (deliver_to_receiver_none net Htr), (deliver_to_sender_none net Hts).
  now destruct b.
Qed.

Lemma run_reaches_final (sched : list bool) :
  forall (m : nat) (net : Net),
    in_phase m net -> (m <= List.length sched)%nat ->
    in_phase 0 (run chunk_size shareCode cap conn sched net).
Proof.
  induction sched as [|b sched IH]; intros m net H Hm; cbn [run List.length] in *.
  - now replace m with 0%nat in H by lia.
  - destruct m as [|m].
    + now rewrite phase_final_stops.
    + destruct (phase_step b m net H) as (net' & -> & H').
      apply (IH m); [assumption|lia].
Qed.

Lemma start_in_phase (s : App) :
  fileToShareRef s = Some file -> (1 <= d)%nat ->
  in_phase (2 * d + 2 * n) (start d s r0).
Proof.
  intros Hs Hd. apply (phase_index (2 * d + 0 + 2 * n)); [|lia].
  apply (phase_handshake _ _ _ _ _ d 0); try reflexivity; try assumption. lia.
Qed.

(** Every schedule long enough ends the run in a final state. *)
Lemma run_outcome (s : App) (sched : list bool) :
  fileToShareRef s = Some file -> (1 <= d)%nat ->
  (2 * d + 2 * n <= List.length sched)%nat ->
  in_phase 0 (run chunk_size shareCode cap conn sched (start d s r0)).
Proof.
  intros Hs Hd Hlen. apply (run_reaches_final sched (2 * d + 2 * n)); [|assumption].
  now apply start_in_phase.
Qed.

Lemma final_cases (net : Net) :
  in_phase 0 net ->
  to_sender net = [] /\ to_receiver net = [] /\
  requested net = chunk_offsets chunk_size n /\
  ((0 < size /\ completed chunk_size file r0 (receiver_app net) /\
    shown net = repeat 0 d ++ map progress (seq 1 (n - 1)) ++ [100]) \/
   (size = 0 /\ rejected file r0 (receiver_app net) /\
    shown net = repeat 0 d ++ [0])).
Proof.
  intros H. pose proof (chunk_count_pos chunk_size size) as Hn. fold n in Hn.
  remember 0%nat as a eqn:Ha. destruct H; try (exfalso; lia).
  - split; [assumption|]. split; [assumption|]. split; [assumption|].
    left. split; [assumption|]. split; assumption.
  - split; [assumption|]. split; [assumption|]. split.
    + unfold chunks. rewrite H, chunk_count_empty by assumption. assumption.
    + right. split; [assumption|]. split; assumption.
Qed.

End TransferProofs.

(** ** C2 *)

Lemma scramble_nth (k : Z) (b : bytes) (i : nat) :
  Forall is_byte b -> (i < List.length b)%nat ->
  nth i (scramble k b) 0 = Z.lxor (nth i b 0) (k mod 256).
Proof.
  intros Hb Hi. unfold scramble.
  rewrite (nth_indep _ 0 (JS.to_uint8 (Z.lxor 0 k))) by now rewrite length_map.
  rewrite (map_nth (fun x => JS.to_uint8 (Z.lxor x k))).
  apply xor_byte_low_bits. rewrite Forall_forall in Hb. now apply Hb, nth_In.
Qed.

Lemma byte_range_nth (data : bytes) (lo hi : Z) (i : nat) :
  0 <= lo -> (i < List.length (byte_range data lo hi))%nat ->
  nth i (byte_range data lo hi) 0 = nth (Z.to_nat lo + i) data 0.
Proof.
  intros Hlo Hi. unfold byte_range in *.
  rewrite length_firstn in Hi. rewrite nth_firstn.
  destruct (Nat.ltb_spec i (Z.to_nat (hi - lo))); [|lia].
  now rewrite nth_skipn.
Qed.

(** C2.  [CHUNK_SIZE] is 16 KiB, and for every chunk request with an offset
    [o] between 0 and the size of the shared file, the sender sends exactly
    one message on the requesting connection: the chunk for offset [o], whose
    payload has [min(CHUNK_SIZE, size - o)] bytes and holds the bytes
    [[o, min(o + CHUNK_SIZE, size))] of the file, all XOR-ed with one byte
    value.  For a plain share code that value is the key of the share code
    modulo 256: the i-th byte of the payload is the byte [o + i] of the file
    XOR that residue, it differs from the byte of the file whenever the
    residue is not 0, and the same XOR on the payload gives the bytes of the
    file back.  The key of a share code with a PIN of four digits, as
    [generateCode] makes them, is the number the digits write, modulo 256. *)
Theorem chunk_request_reply :
  CHUNK_SIZE = 16384 /\
  (forall (shareCode : string) (conn : nat) (a : App) (file : File) (o : Z),
    fileToShareRef a = Some file ->
    0 <= o <= file_size file ->
    exists payload : bytes,
      snd (sender_on_data CHUNK_SIZE shareCode conn (request_chunk o) a) =
        [(conn, chunk (Some payload) o)] /\
      Z.of_nat (List.length payload) = Z.min CHUNK_SIZE (file_size file - o) /\
      (Forall is_byte (file_bytes file) ->
         exists k : Z, 0 <= k <= 255 /\
           forall i : nat, (i < List.length payload)%nat ->
             nth i payload 0 = Z.lxor (nth (Z.to_nat o + i) (file_bytes file) 0) k) /\
      (Forall is_byte (file_bytes file) -> plain_code shareCode = true ->
         (forall i : nat, (i < List.length payload)%nat ->
            nth i payload 0 =
              Z.lxor (nth (Z.to_nat o + i) (file_bytes file) 0) (deriveKey shareCode mod 256)) /\
         (deriveKey shareCode mod 256 <> 0 ->
            forall i : nat, (i < List.length payload)%nat ->
              nth i payload 0 <> nth (Z.to_nat o + i) (file_bytes file) 0) /\
         map (fun x : Z => Z.lxor x (deriveKey shareCode mod 256)) payload =
           byte_range (file_bytes file) o (Z.min (o + CHUNK_SIZE) (file_size file)))) /\
  (forall (pre : string) (p1 p2 p3 p4 : ascii),
      has_char "#" pre = false ->
      is_digit p1 = true -> is_digit p2 = true -> is_digit p3 = true -> is_digit p4 = true ->
      deriveKey (pre ++ String "#" (String p1 (String p2 (String p3 (String p4 EmptyString))))) =
        (1000 * (JS.code p1 - 48) + 100 * (JS.code p2 - 48) + 10 * (JS.code p3 - 48)
         + (JS.code p4 - 48)) mod 256).
Proof.
  split; [reflexivity|]. split; [|exact four_digit_key].
  intros shareCode conn a file o Hf Ho.
  set (range := byte_range (file_bytes file) o (Z.min (o + CHUNK_SIZE) (file_size file))).
  set (k := deriveKey shareCode).
  exists (scramble k range).
  split; [cbn [sender_on_data]; apply sendChunk_sized_reply;
          [unfold CHUNK_SIZE; lia|assumption..]|].
  split.
  { subst range. rewrite scramble_length, byte_range_length;
      unfold file_size, CHUNK_SIZE in *; lia. }
  assert (Hnth : Forall is_byte (file_bytes file) ->
             forall i : nat, (i < List.length (scramble k range))%nat ->
               nth i (scramble k range) 0 =
                 Z.lxor (nth (Z.to_nat o + i) (file_bytes file) 0) (k mod 256)).
  { intros Hbytes i Hi. rewrite scramble_length in Hi.
    rewrite scramble_nth by (try assumption; now apply byte_range_bytes). subst range.
    now rewrite byte_range_nth by (try assumption; lia). }
  split.
  { intros Hbytes. exists (k mod 256). split; [|now apply Hnth].
    pose proof (Z.mod_pos_bound k 256 ltac:(lia)). lia. }
  intros Hbytes _. specialize (Hnth Hbytes).
  assert (Hr : Forall is_byte range) by now apply byte_range_bytes.
  split; [exact Hnth|]. split.
  - intros Hk i Hi Heq. rewrite (Hnth i Hi) in Heq. apply lxor_fixes in Heq. contradiction.
  - unfold scramble. rewrite map_map. rewrite <- (map_id range) at 2.
    apply map_ext_in. intros x Hx. rewrite Forall_forall in Hr.
    rewrite xor_byte_low_bits by now apply Hr.
    now rewrite Z.lxor_assoc, Z.lxor_nilpotent, Z.lxor_0_r.
Qed.

Lemma chunk_request_reply_witness :
  snd (sender_on_data CHUNK_SIZE demo_code 3 (request_chunk 2)
         (demo_sender [10; 20; 30; 40; 50])) =
    [(3%nat, chunk (Some [204; 250; 224]) 2)] /\
  deriveKey demo_code = 210 /\
  map (fun x : Z => Z.lxor x 210) [204; 250; 224] = [30; 40; 50].
Proof.
  destruct (proj1 (proj2 chunk_request_reply) demo_code 3%nat
              (demo_sender [10; 20; 30; 40; 50]) (demo_file [10; 20; 30; 40; 50]) 2)
    as (payload & Hsent & Hlen & _ & Hxor).
  - reflexivity.
  - vm_compute. split; discriminate.
  - assert (Hk : deriveKey demo_code = 210).
    { apply (proj2 (proj2 chunk_request_reply) "abc-def"%string
               "1"%char "2"%char "3"%char "4"%char); reflexivity. }
    destruct Hxor as (Hnth & _ & Hback).
    { repeat constructor; unfold is_byte; cbn; lia. }
    { reflexivity. }
    assert (E : payload = [204; 250; 224]).
    { change (Z.min CHUNK_SIZE (file_size (demo_file [10; 20; 30; 40; 50]) - 2)) with 3 in Hlen.
      assert (Hl : List.length payload = 3%nat) by lia.
      destruct payload as [|x0 [|x1 [|x2 [|x3 rest]]]]; try discriminate Hl.
      pose proof (Hnth 0%nat ltac:(cbn; lia)) as H0.
      pose proof (Hnth 1%nat ltac:(cbn; lia)) as H1.
      pose proof (Hnth 2%nat ltac:(cbn; lia)) as H2.
      rewrite Hk in H0, H1, H2. cbn in H0, H1, H2. now subst. }
    subst payload. split; [exact Hsent|]. split; [exact Hk|].
    rewrite Hk in Hback. exact Hback.
Defined.

(** ** Progress values *)

Section Doubles.

Local Open Scope Q_scope.






(** *** Rounding to an integer *)





(** *** The binade *)


(** *** Rounding to a double *)












(** *** The percentage *)






End Doubles.


Lemma StronglySorted_map_seq (R : Z -> Z -> Prop) (f : nat -> Z) (s m : nat) :
  (forall a b : nat, (a < b)%nat -> R (f a) (f b)) ->
  StronglySorted R (map f (seq s m)).
Proof.
  intros Hf. revert s. induction m as [|m IH]; intros s; cbn; constructor.
  - apply IH.
  - apply Forall_forall. intros y Hy. apply in_map_iff in Hy as (j & <- & Hj).
    apply in_seq in Hj. apply Hf. lia.
Qed.



Lemma chunk_offsets_sorted (chunk_size : Z) (n : nat) :
  0 < chunk_size -> StronglySorted Z.lt (chunk_offsets chunk_size n).
Proof.
  intros Hc. unfold chunk_offsets. apply StronglySorted_map_seq.
  intros a b Hab. nia.
Qed.

Lemma chunk_offsets_NoDup (chunk_size : Z) (n : nat) :
  0 < chunk_size -> NoDup (chunk_offsets chunk_size n).
Proof.
  intros Hc. pose proof (chunk_offsets_sorted chunk_size n Hc) as H.
  induction H as [|a l Hl IH Ha]; constructor; [|assumption].
  intros Hin. rewrite Forall_forall in Ha. specialize (Ha a Hin). lia.
Qed.

Lemma chunk_offsets_length (chunk_size : Z) (n : nat) :
  List.length (chunk_offsets chunk_size n) = n.
Proof. unfold chunk_offsets. now rewrite length_map, length_seq. Qed.

Lemma chunk_offsets_nth (chunk_size : Z) (n i : nat) :
  (i < n)%nat -> nth i (chunk_offsets chunk_size n) 0 = Z.of_nat i * chunk_size.
Proof.
  intros Hi. unfold chunk_offsets.
  set (f := fun k : nat => Z.of_nat k * chunk_size).
  change (nth i (map f (seq 0 n)) (f 0%nat) = f i).
  now rewrite map_nth, seq_nth.
Qed.

(** ** C1 *)

(** C1 (code at the failing input).  A sender shares an empty file and a
    receiver fetches it with the sender's code.  Through the connect form
    the receiver requests offset 0, the sender answers with a chunk of
    length zero and shows 100 itself, and the receiver refuses that chunk:
    nothing is left in flight, no file is completed, the progress stays at
    0 and the error is recorded.  With the same sender, file and code, the
    handler registered by [connectToDevice] takes the same chunk and
    completes the empty file. *)
Lemma empty_file_never_completes :
  let form := run CHUNK_SIZE demo_code demo_cap 7 (repeat true 4)
                (start 1 (demo_sender []) demo_receiver) in
  let nearby := side_run (device_on_data demo_code) CHUNK_SIZE demo_code 7 (repeat true 4)
                  (start 1 (demo_sender []) demo_receiver) in
  (to_sender form = [] /\ to_receiver form = [] /\ requested form = [0] /\
   transferProgress (sender_app form) = 100 /\
   completedFile (receiver_app form) = None /\
   transferProgress (receiver_app form) = 0 /\
   transferProgress (receiver_app form) <> 100 /\
   errorStatus (receiver_app form) =
     Some "Data parsing error: Received chunk has zero length."%string) /\
  (to_sender nearby = [] /\ to_receiver nearby = [] /\ requested nearby = [0] /\
   transferProgress (sender_app nearby) = 100 /\
   completedFile (receiver_app nearby) =
     Some {| cf_blob := {| blob_bytes := []; blob_type := "application/octet-stream" |};
             cf_name := "a.bin"; cf_type := "" |} /\
   transferProgress (receiver_app nearby) = 100 /\
   errorStatus (receiver_app nearby) = None).
Proof. vm_compute. repeat split. discriminate. Qed.

(** ** The connect form: a whole transfer *)

(** X20.  A sender shares a file of any size S >= 0, a receiver that
    connected through the form has sent d >= 1 handshake requests, the two
    room codes are plain and give the same key, and the messages in flight
    are delivered in any order that keeps each direction first-in first-out.
    After 2d + 2 max(1, ceil(S / C)) deliveries nothing is in flight and the
    unscrambled chunks received, concatenated in the order of arrival, are
    the bytes of the file.  For S > 0 the transfer is complete: the byte
    count is S, the progress is 100 and the completed file holds exactly the
    bytes of the file.  For S = 0 the receiver has requested offset 0 once
    and refused the zero-length chunk sent in reply: the error is recorded,
    no file is completed and the progress is 0. *)
Theorem transfer_reassembles_file :
  forall (chunk_size : Z) (shareCode : string) (cap : Captured) (conn : nat)
         (file : File) (s r0 : App) (d : nat) (sched : list bool),
    0 < chunk_size ->
    plain_code shareCode = true ->
    plain_code (cap_receiveCode cap) = true ->
    deriveKey (cap_receiveCode cap) = deriveKey shareCode ->
    Forall is_byte (file_bytes file) ->
    fileToShareRef s = Some file ->
    fileMetaRef r0 = None ->
    (1 <= d)%nat ->
    (2 * d + 2 * chunk_count chunk_size (file_size file) <= List.length sched)%nat ->
    let net := run chunk_size shareCode cap conn sched (start d s r0) in
    let r := receiver_app net in
    to_sender net = [] /\ to_receiver net = [] /\
    concat (receivedChunksRef r) = file_bytes file /\
    (0 < file_size file ->
       receivedBytesRef r = file_size file /\
       transferProgress r = 100 /\
       completedFile r =
         Some {| cf_blob := {| blob_bytes := file_bytes file;
                               blob_type := JS.str_or (Some (file_type file))
                                              "application/octet-stream" |};
                 cf_name := file_name file; cf_type := file_type file |} /\
       errorStatus r = errorStatus r0) /\
    (file_size file = 0 ->
       requested net = [0] /\
       errorStatus r = Some "Data parsing error: Received chunk has zero length."%string /\
       completedFile r = completedFile r0 /\
       transferProgress r = 0 /\ receivedBytesRef r = 0).
Proof.
  intros chunk_size shareCode cap conn file s r0 d sched Hc _ _ Hkey Hbytes Hs Hr Hd Hlen net r.
  pose proof (run_outcome chunk_size shareCode cap conn file r0 d Hc Hkey Hbytes Hr
                s sched Hs Hd Hlen) as H.
  fold net in H.
  destruct (final_cases _ _ _ _ _ Hc net H) as (Hts & Htr & Hq & Hfin).
  split; [assumption|]. split; [assumption|].
  destruct Hfin as [(Hpos & Hdone & _)|(Hzero & Hrej & _)].
  - destruct Hdone as (_ & Hcat & _ & Hb & Hp & Hcf & He).
    split; [assumption|]. split; [now intros _|]. intros E. lia.
  - destruct Hrej as (_ & Hch & Hb & Hp & Hcf & He). fold r in Hch, Hb, Hp, Hcf, He.
    assert (Hnil : file_bytes file = []).
    { apply length_zero_iff_nil. unfold file_size in Hzero. lia. }
    split; [now rewrite Hch, Hnil|]. split; [intros E; lia|]. intros _.
    split; [|now repeat split].
    rewrite Hq. unfold chunks. rewrite Hzero, chunk_count_empty by assumption. reflexivity.
Qed.

Lemma transfer_reassembles_file_witness :
  to_receiver (run 4 demo_code demo_cap 7
                 [true; false; false; true; true; false; true; true; true; true; true; true]
                 (start 3 (demo_sender [1; 2; 3; 4; 5; 6; 7; 8; 9; 10]) demo_receiver)) = [] /\
  concat (receivedChunksRef (receiver_app
            (run 4 demo_code demo_cap 7
               [true; false; false; true; true; false; true; true; true; true; true; true]
               (start 3 (demo_sender [1; 2; 3; 4; 5; 6; 7; 8; 9; 10]) demo_receiver)))) =
    [1; 2; 3; 4; 5; 6; 7; 8; 9; 10] /\
  transferProgress (receiver_app
     (run 4 demo_code demo_cap 7
        [true; false; false; true; true; false; true; true; true; true; true; true]
        (start 3 (demo_sender [1; 2; 3; 4; 5; 6; 7; 8; 9; 10]) demo_receiver))) = 100.
Proof.
  pose proof (transfer_reassembles_file 4 demo_code demo_cap 7
                (demo_file [1; 2; 3; 4; 5; 6; 7; 8; 9; 10])
                (demo_sender [1; 2; 3; 4; 5; 6; 7; 8; 9; 10]) demo_receiver 3
                [true; false; false; true; true; false; true; true; true; true; true; true])
    as H.
  cbv zeta in H.
  destruct H as (_ & H2 & H3 & H4 & _).
  - lia.
  - reflexivity.
  - reflexivity.
  - reflexivity.
  - repeat constructor; unfold is_byte; lia.
  - reflexivity.
  - reflexivity.
  - lia.
  - vm_compute. lia.
  - destruct H4 as (_ & Hp & _); [reflexivity|].
    split; [exact H2|]. split; [exact H3|exact Hp].
Defined.

(** ** C3 *)

Lemma receiver_requests_after_append (cap : Captured) (a : App) (m : Msg) (o : Z) :
  In (request_chunk o) (snd (receiver_on_data cap m a)) ->
  snd (receiver_on_data cap m a) = [request_chunk o] /\
  o = receivedBytesRef (fst (receiver_on_data cap m a)) /\
  ((exists name size mime, m = metadata name size mime /\ o = 0) \/
   (exists buffer offset,
       m = chunk (Some buffer) offset /\ buffer <> [] /\
       receivedChunksRef (fst (receiver_on_data cap m a)) =
         receivedChunksRef a ++ [scramble (deriveKey (cap_receiveCode cap)) buffer] /\
       o = receivedBytesRef a + Z.of_nat (List.length buffer))).
Proof.
  destruct a. destruct m as [|name size mime|off|[buffer|] off|text|];
    cbn [receiver_on_data]; app_cbn; try (cbn; tauto).
  - destruct fileMetaRef0; cbn [snd fst]; [intros []|]. app_cbn.
    intros [E|[]]. injection E as <-. split; [reflexivity|]. split; [reflexivity|].
    left. now exists name, size, mime.
  - rewrite scramble_length.
    destruct (Z.eqb_spec (Z.of_nat (List.length buffer)) 0) as [E|E]; [intros []|].
    destruct fileMetaRef0 as [meta|]; [|intros []].
    destruct (_ <? _); cbn [snd fst]; [|intros []]. app_cbn.
    intros [E'|[]]. injection E' as <-. split; [reflexivity|]. split; [reflexivity|].
    right. exists buffer, off. repeat split. intros ->. now apply E.
Qed.

(** C3.  In every run of a transfer (any file size S, any chunk size C > 0,
    any number of handshake requests, any delivery order), the offsets the
    receiver requests are exactly 0, C, 2C, ..., one per chunk and a single 0
    for the empty file: they increase strictly, none occurs twice, the i-th
    is i * C, all lie below S and the ranges they start cover the file.
    Whenever the receiver's data handler sends a chunk request, it sends
    exactly one, for the byte count it holds after the handler ran: either
    offset 0 on accepting the metadata, or the count reached by appending
    the chunk just received. *)
Theorem requested_offsets_are_consecutive :
  forall (chunk_size : Z) (shareCode : string) (cap : Captured) (conn : nat)
         (file : File) (s r0 : App) (d : nat) (sched : list bool),
    0 < chunk_size ->
    deriveKey (cap_receiveCode cap) = deriveKey shareCode ->
    Forall is_byte (file_bytes file) ->
    fileToShareRef s = Some file ->
    fileMetaRef r0 = None ->
    (1 <= d)%nat ->
    (2 * d + 2 * chunk_count chunk_size (file_size file) <= List.length sched)%nat ->
    let net := run chunk_size shareCode cap conn sched (start d s r0) in
    requested net = chunk_offsets chunk_size (chunk_count chunk_size (file_size file)) /\
    StronglySorted Z.lt (requested net) /\ NoDup (requested net) /\
    (forall i : nat, (i < List.length (requested net))%nat ->
        nth i (requested net) 0 = Z.of_nat i * chunk_size) /\
    (0 < file_size file ->
        (forall o : Z, In o (requested net) -> 0 <= o < file_size file) /\
        file_size file <= Z.of_nat (List.length (requested net)) * chunk_size) /\
    (forall (a : App) (m : Msg) (o : Z),
        In (request_chunk o) (snd (receiver_on_data cap m a)) ->
        snd (receiver_on_data cap m a) = [request_chunk o] /\
        o = receivedBytesRef (fst (receiver_on_data cap m a)) /\
        ((exists name size mime, m = metadata name size mime /\ o = 0) \/
         (exists buffer offset,
             m = chunk (Some buffer) offset /\ buffer <> [] /\
             receivedChunksRef (fst (receiver_on_data cap m a)) =
               receivedChunksRef a ++ [scramble (deriveKey (cap_receiveCode cap)) buffer] /\
             o = receivedBytesRef a + Z.of_nat (List.length buffer)))).
Proof.
  intros chunk_size shareCode cap conn file s r0 d sched Hc Hkey Hbytes Hs Hr Hd Hlen net.
  pose proof (run_outcome chunk_size shareCode cap conn file r0 d Hc Hkey Hbytes Hr
                s sched Hs Hd Hlen) as H.
  fold net in H.
  destruct (final_cases _ _ _ _ _ Hc net H) as (_ & _ & Hq & _).
  unfold chunks in Hq. rewrite Hq.
  split; [reflexivity|]. split; [now apply chunk_offsets_sorted|].
  split; [now apply chunk_offsets_NoDup|]. rewrite chunk_offsets_length.
  split; [intros i Hi; now apply chunk_offsets_nth|].
  split; [|intros a m o; apply receiver_requests_after_append].
  intros Hpos. split.
  - intros o Ho. unfold chunk_offsets in Ho. apply in_map_iff in Ho as (k & <- & Hk).
    apply in_seq in Hk. split; [nia|].
    apply (chunk_count_spec chunk_size (file_size file) k Hc Hpos). lia.
  - set (n := chunk_count chunk_size (file_size file)).
    destruct (Z_lt_le_dec (Z.of_nat n * chunk_size) (file_size file)) as [Hlt|Hge];
      [|assumption].
    apply (chunk_count_spec chunk_size (file_size file) n Hc Hpos) in Hlt. lia.
Qed.

Lemma requested_offsets_are_consecutive_witness :
  let net := run 4 demo_code demo_cap 7 (repeat false 12)
               (start 3 (demo_sender [1; 2; 3; 4; 5; 6; 7; 8; 9; 10]) demo_receiver) in
  requested net = [0; 4; 8] /\ StronglySorted Z.lt (requested net) /\ NoDup (requested net).
Proof.
  pose proof (requested_offsets_are_consecutive 4 demo_code demo_cap 7
                (demo_file [1; 2; 3; 4; 5; 6; 7; 8; 9; 10])
                (demo_sender [1; 2; 3; 4; 5; 6; 7; 8; 9; 10]) demo_receiver 3
                (repeat false 12)) as H.
  cbv zeta in *.
  destruct H as (H1 & H2 & H3 & _).
  - lia.
  - reflexivity.
  - repeat constructor; unfold is_byte; lia.
  - reflexivity.
  - reflexivity.
  - lia.
  - vm_compute. lia.
  - split; [exact H1|]. split; [exact H2|exact H3].
Defined.

(** ** C6 *)





(** The scenario of the specification: a file of 40 KiB with chunks of
    16 KiB is fetched by three requests, at offsets 0, 16384 and 32768; the
    last chunk has 8192 bytes, the progress shown ends at 100 and the
    completed file has the 40960 bytes sent. *)
Example scenario_40_KiB :
  let data := repeat 7 (Z.to_nat 40960) in
  let net := run CHUNK_SIZE demo_code demo_cap 7 (repeat true 8)
               (start 1 (demo_sender data) demo_receiver) in
  requested net = [0; 16384; 32768] /\
  map (fun c : bytes => Z.of_nat (List.length c)) (receivedChunksRef (receiver_app net)) =
    [16384; 16384; 8192] /\
  shown net = [0; 40; 80; 100] /\
  option_map (fun c => forallb (Z.eqb 7) (blob_bytes (cf_blob c)))
    (completedFile (receiver_app net)) = Some true.
Proof. vm_compute. repeat split. Qed.

(** * Properties of the rest of the component *)

Lemma string_app_assoc (s t u : string) : ((s ++ t) ++ u = s ++ (t ++ u))%string.
Proof. induction s as [|c s IH]; simpl; [reflexivity|now rewrite IH]. Qed.

Lemma string_app_nil_r (s : string) : (s ++ "")%string = s.
Proof. induction s as [|c s IH]; simpl; [reflexivity|now rewrite IH]. Qed.

Lemma digit_char_digit (d : Z) : 0 <= d <= 9 -> is_digit (JS.digit_char d) = true.
Proof.
  intros H. assert (E : d = 0 \/ d = 1 \/ d = 2 \/ d = 3 \/ d = 4 \/ d = 5 \/ d = 6 \/
                        d = 7 \/ d = 8 \/ d = 9) by lia.
  repeat destruct E as [->|E]; try reflexivity. now subst.
Qed.

Lemma digit_char_code (d : Z) : 0 <= d <= 9 -> JS.code (JS.digit_char d) = 48 + d.
Proof.
  intros H. assert (E : d = 0 \/ d = 1 \/ d = 2 \/ d = 3 \/ d = 4 \/ d = 5 \/ d = 6 \/
                        d = 7 \/ d = 8 \/ d = 9) by lia.
  repeat destruct E as [->|E]; try reflexivity. now subst.
Qed.

Lemma to_digits_app (fuel : nat) (n : Z) (acc : string) :
  JS.to_digits fuel n acc = (JS.to_digits fuel n "" ++ acc)%string.
Proof.
  revert n acc. induction fuel as [|f IH]; intros n acc; cbn [JS.to_digits]; [reflexivity|].
  destruct (n <? 10); [reflexivity|].
  rewrite IH, (IH _ (String _ "")). now rewrite string_app_assoc.
Qed.

(** The digits written do not depend on the fuel once there is enough. *)
Lemma to_digits_fuel (f g : nat) :
  forall (n : Z) (acc : string),
    (1 <= f)%nat -> (f <= g)%nat -> 0 <= n < 2 ^ Z.of_nat f ->
    JS.to_digits g n acc = JS.to_digits f n acc.
Proof.
  revert g. induction f as [|f IH]; intros g n acc Hf Hg Hn; [lia|].
  destruct g as [|g]; [lia|]. cbn [JS.to_digits].
  destruct (Z.ltb_spec n 10) as [H|H]; [reflexivity|].
  assert (Hp : 2 ^ Z.of_nat (S f) = 2 * 2 ^ Z.of_nat f).
  { rewrite Nat2Z.inj_succ. apply Z.pow_succ_r. lia. }
  destruct f as [|f].
  { cbn in Hn. lia. }
  apply IH; [lia|lia|].
  split; [apply Z.div_pos; lia|].
  apply Z.div_lt_upper_bound; lia.
Qed.

Lemma digits_app (s t : string) (acc : option Z) :
  all_digits s = true ->
  JS.digits 10 (s ++ t) acc = JS.digits 10 t (JS.digits 10 s acc).
Proof.
  revert acc. induction s as [|c s IH]; intros acc H; cbn [append JS.digits all_digits] in *;
    [reflexivity|].
  apply andb_true_iff in H as [Hc Hs].
  destruct (digit_val_decimal c Hc) as [-> _]. now apply IH.
Qed.

Lemma all_digits_app (s t : string) :
  all_digits (s ++ t) = all_digits s && all_digits t.
Proof.
  induction s as [|c s IH]; cbn [append all_digits]; [reflexivity|].
  now rewrite IH, andb_assoc.
Qed.

(** The digits of a natural number are decimal digits that read back as
    the number. *)
Lemma to_digits_value (fuel : nat) :
  forall n : Z, (1 <= fuel)%nat -> 0 <= n < 2 ^ Z.of_nat fuel ->
    all_digits (JS.to_digits fuel n "") = true /\
    JS.digits 10 (JS.to_digits fuel n "") None = Some n.
Proof.
  induction fuel as [|f IH]; intros n Hf Hn; [lia|].
  assert (Hp : 2 ^ Z.of_nat (S f) = 2 * 2 ^ Z.of_nat f).
  { rewrite Nat2Z.inj_succ. apply Z.pow_succ_r. lia. }
  pose proof (Z.mod_pos_bound n 10 ltac:(lia)) as Hm.
  pose proof (digit_char_digit (n mod 10) ltac:(lia)) as Hd.
  destruct (digit_val_decimal _ Hd) as [Ev _].
  rewrite digit_char_code in Ev by lia.
  cbn [JS.to_digits].
  destruct (Z.ltb_spec n 10) as [H|H].
  - cbn [all_digits JS.digits]. rewrite Hd, Ev. split; [reflexivity|].
    rewrite Z.mod_small by lia. f_equal. lia.
  - destruct f as [|f]; [cbn in Hn; lia|].
    destruct (IH (n / 10)) as (Ha & Ev2); [lia| |].
    { split; [apply Z.div_pos; lia|]. apply Z.div_lt_upper_bound; lia. }
    rewrite to_digits_app. rewrite all_digits_app, Ha. cbn [all_digits]. rewrite Hd.
    split; [reflexivity|].
    rewrite digits_app by assumption. rewrite Ev2. cbn [JS.digits]. rewrite Ev.
    f_equal. pose proof (Z.div_mod n 10 ltac:(lia)). lia.
Qed.

Lemma log2_fuel (n : Z) : 0 <= n -> 0 <= n < 2 ^ Z.of_nat (S (Z.to_nat (Z.log2 n))).
Proof.
  intros H. split; [assumption|].
  rewrite Nat2Z.inj_succ, Z2Nat.id by apply Z.log2_nonneg.
  destruct (Z.eq_dec n 0) as [->|Hz]; [reflexivity|].
  apply Z.log2_spec. lia.
Qed.

Lemma number_toString_nonneg (n : Z) :
  0 <= n ->
  all_digits (JS.number_toString n) = true /\
  JS.digits 10 (JS.number_toString n) None = Some n.
Proof.
  intros H. unfold JS.number_toString.
  destruct (Z.ltb_spec n 0); [lia|].
  destruct (to_digits_value (S (Z.to_nat (Z.log2 n))) n ltac:(lia) (log2_fuel n H)) as (H1 & H2).
  now split.
Qed.

Lemma to_digits_nonempty (fuel : nat) (n : Z) (acc : string) :
  (1 <= fuel)%nat -> JS.to_digits fuel n acc <> EmptyString.
Proof.
  intros H. destruct fuel as [|f]; [lia|]. cbn [JS.to_digits].
  destruct (n <? 10); [discriminate|].
  rewrite to_digits_app. destruct (JS.to_digits f (n / 10) ""); discriminate.
Qed.

(** A non-empty string of decimal digits is read in radix 10: it has no
    white space, no sign and no [0x] prefix. *)
Lemma parseInt_all_digits (s : string) :
  s <> EmptyString -> all_digits s = true -> JS.parseInt s = JS.digits 10 s None.
Proof.
  intros Hne H. destruct s as [|c1 [|c2 r]]; [contradiction| |].
  - cbn [all_digits] in H. apply andb_true_iff in H as [H _].
    ascii_cases c1; try discriminate H; reflexivity.
  - cbn [all_digits] in H. apply andb_true_iff in H as [H1 H]. apply andb_true_iff in H as [H2 _].
    rewrite parseInt_decimal by assumption.
    destruct (JS.digits 10 _ None) as [v|]; [|reflexivity].
    cbn [option_map]. f_equal. now destruct v.
Qed.

(** Writing a natural number and reading it back. *)
Lemma parseInt_number_toString (n : Z) :
  0 <= n -> JS.parseInt (JS.number_toString n) = Some n.
Proof.
  intros H. destruct (number_toString_nonneg n H) as [H1 H2].
  rewrite parseInt_all_digits; [assumption| |assumption].
  unfold JS.number_toString. destruct (Z.ltb_spec n 0); [lia|].
  apply to_digits_nonempty. lia.
Qed.


(** ** Generated room codes *)

Lemma floor_of_draw (r : Q) (n : Z) :
  (0 <= r)%Q -> (r < 1)%Q -> 0 < n -> 0 <= JS.Math_floor (r * inject_Z n) < n.
Proof.
  intros H0 H1 Hn. unfold JS.Math_floor. split.
  - rewrite <- (Qfloor_Z 0). apply Qfloor_resp_le.
    apply Qmult_le_0_compat; [assumption|]. change 0%Q with (inject_Z 0).
    rewrite <- Zle_Qle. lia.
  - apply Z.lt_nge. intros H.
    assert (H2 : (inject_Z n <= r * inject_Z n)%Q).
    { eapply Qle_trans; [|apply Qfloor_le]. now rewrite <- Zle_Qle. }
    assert (H3 : (r * inject_Z n < 1 * inject_Z n)%Q).
    { apply Qmult_lt_compat_r; [|assumption]. change 0%Q with (inject_Z 0).
      now rewrite <- Zlt_Qlt. }
    rewrite Qmult_1_l in H3. apply (Qlt_irrefl (inject_Z n)).
    eapply Qle_lt_trans; eassumption.
Qed.

Lemma floor_of_pin_draw (r : Q) :
  (0 <= r)%Q -> (r < 1)%Q ->
  1000 <= JS.Math_floor (inject_Z 1000 + r * inject_Z 9000) <= 9999.
Proof.
  intros H0 H1. unfold JS.Math_floor.
  assert (Hlo : (inject_Z 1000 <= inject_Z 1000 + r * inject_Z 9000)%Q).
  { rewrite <- (Qplus_0_r (inject_Z 1000)) at 1. apply Qplus_le_r.
    apply Qmult_le_0_compat; [assumption|discriminate]. }
  assert (Hhi : (inject_Z 1000 + r * inject_Z 9000 < inject_Z 10000)%Q).
  { change (inject_Z 10000) with (inject_Z 1000 + 1 * inject_Z 9000)%Q.
    apply Qplus_lt_r. apply Qmult_lt_compat_r; [reflexivity|assumption]. }
  split.
  - rewrite <- (Qfloor_Z 1000) at 1. now apply Qfloor_resp_le.
  - apply Z.lt_succ_r. change (Z.succ 9999) with 10000. rewrite Zlt_Qlt.
    eapply Qle_lt_trans; [apply Qfloor_le|assumption].
Qed.

Lemma charAt_code_chars (k : Z) :
  0 <= k < 31 ->
  exists c : ascii,
    JS.charAt code_chars k = String c EmptyString /\
    is_lower_alnum c = true /\ look_alike c = false.
Proof.
  intros H. unfold JS.charAt. destruct (Z.ltb_spec k 0); [lia|].
  assert (Hn : (Z.to_nat k < 31)%nat) by lia.
  generalize dependent (Z.to_nat k). intros n Hn.
  do 31 (destruct n as [|n]; [eexists; repeat split; reflexivity|]). lia.
Qed.

Lemma lower_alnum_plain (c : ascii) :
  is_lower_alnum c = true ->
  Ascii.eqb c "-" = false /\ Ascii.eqb c "#" = false /\
  JS.lower_char c = c /\ JS.is_white c = false.
Proof. ascii_cases c; intros H; try discriminate H; repeat split. Qed.

Lemma number_toString_four_digits (p : Z) :
  1000 <= p <= 9999 ->
  exists p1 p2 p3 p4 : ascii,
    JS.number_toString p = String p1 (String p2 (String p3 (String p4 EmptyString))) /\
    is_digit p1 = true /\ is_digit p2 = true /\ is_digit p3 = true /\ is_digit p4 = true.
Proof.
  intros H. unfold JS.number_toString. destruct (Z.ltb_spec p 0); [lia|].
  assert (Hl : Z.log2 p < 14).
  { apply Z.log2_lt_pow2; [lia|]. change (2 ^ 14) with 16384. lia. }
  pose proof (Z.log2_nonneg p) as Hl0.
  rewrite <- (to_digits_fuel (S (Z.to_nat (Z.log2 p))) 14) by (try lia; apply log2_fuel; lia).
  cbn [JS.to_digits].
  destruct (Z.ltb_spec p 10); [lia|].
  destruct (Z.ltb_spec (p / 10) 10); [Z.div_mod_to_equations; lia|].
  destruct (Z.ltb_spec (p / 10 / 10) 10); [Z.div_mod_to_equations; lia|].
  destruct (Z.ltb_spec (p / 10 / 10 / 10) 10); [|Z.div_mod_to_equations; lia].
  do 4 eexists. split; [reflexivity|].
  repeat split; apply digit_char_digit; Z.div_mod_to_equations; lia.
Qed.

(** The text of a generated code: three characters of the alphabet, a dash,
    three more, a hash and the four digits of the PIN drawn. *)
Lemma generateCode_shape (random : nat -> Q) :
  (forall i : nat, (0 <= random i)%Q /\ (random i < 1)%Q) ->
  exists a1 a2 a3 b1 b2 b3 : ascii,
    generateCode random =
      (String a1 (String a2 (String a3 (String "-" (String b1 (String b2 (String b3
         (String "#" (JS.number_toString
                        (JS.Math_floor (inject_Z 1000 + random 6%nat * inject_Z 9000)))))))))))
    /\ (is_lower_alnum a1 = true /\ look_alike a1 = false)
    /\ (is_lower_alnum a2 = true /\ look_alike a2 = false)
    /\ (is_lower_alnum a3 = true /\ look_alike a3 = false)
    /\ (is_lower_alnum b1 = true /\ look_alike b1 = false)
    /\ (is_lower_alnum b2 = true /\ look_alike b2 = false)
    /\ (is_lower_alnum b3 = true /\ look_alike b3 = false).
Proof.
  intros Hr.
  assert (Hc : forall i, exists c : ascii,
             JS.charAt code_chars
               (JS.Math_floor (random i * inject_Z (Z.of_nat (String.length code_chars))))
             = String c EmptyString /\ is_lower_alnum c = true /\ look_alike c = false).
  { intros i. apply charAt_code_chars. destruct (Hr i). apply floor_of_draw; try assumption.
    reflexivity. }
  destruct (Hc 0%nat) as (a1 & E1 & A1), (Hc 1%nat) as (a2 & E2 & A2),
    (Hc 2%nat) as (a3 & E3 & A3), (Hc 3%nat) as (b1 & E4 & B1),
    (Hc 4%nat) as (b2 & E5 & B2), (Hc 5%nat) as (b3 & E6 & B3).
  exists a1, a2, a3, b1, b2, b3. split; [|tauto].
  unfold generateCode. cbn [random_chars]. rewrite E1, E2, E3, E4, E5, E6. reflexivity.
Qed.

(** X1.  Whatever [Math.random] returns (numbers in [0, 1)), the code that
    [generateCode] builds is a valid room code: three characters, a dash,
    three characters, a hash and four digits, twelve characters in all, which
    the connect form accepts; and the part before the hash contains none of
    the look-alike characters 0, 1, i, l, o. *)
Theorem generated_code_is_valid (random : nat -> Q) :
  (forall i : nat, (0 <= random i)%Q /\ (random i < 1)%Q) ->
  valid_room_code (generateCode random) = true /\
  String.length (generateCode random) = 12%nat /\
  all_chars (fun c => negb (look_alike c))
    (hd EmptyString (JS.split "#" (generateCode random))) = true.
Proof.
  intros Hr.
  destruct (generateCode_shape random Hr)
    as (a1 & a2 & a3 & b1 & b2 & b3 & E & [A1 L1] & [A2 L2] & [A3 L3] & [B1 M1] & [B2 M2]
        & [B3 M3]).
  destruct (Hr 6%nat) as [H0 H1].
  destruct (number_toString_four_digits _ (floor_of_pin_draw _ H0 H1))
    as (p1 & p2 & p3 & p4 & Ep & D1 & D2 & D3 & D4).
  rewrite E, Ep. clear E Ep. split; [|split].
  - unfold valid_room_code. cbn [list_ascii_of_string forallb].
    now rewrite A1, A2, A3, B1, B2, B3, D1, D2, D3, D4.
  - reflexivity.
  - change (String a1 (String a2 (String a3 (String "-" (String b1 (String b2 (String b3
              (String "#" (String p1 (String p2 (String p3 (String p4 EmptyString))))))))))))
      with (String a1 (String a2 (String a3 (String "-" (String b1 (String b2 (String b3
              EmptyString)))))) ++
            String "#" (String p1 (String p2 (String p3 (String p4 EmptyString)))))%string.
    rewrite split_at_sep.
    + cbn [hd all_chars]. now rewrite L1, L2, L3, M1, M2, M3.
    + cbn [has_char].
      now rewrite (lower_alnum_not_hash a1), (lower_alnum_not_hash a2),
        (lower_alnum_not_hash a3), (lower_alnum_not_hash b1), (lower_alnum_not_hash b2),
        (lower_alnum_not_hash b3) by assumption.
Qed.

Lemma generated_code_is_valid_witness :
  valid_room_code (generateCode (fun i => if Nat.even i then 1 # 3 else 3 # 4)) = true /\
  String.length (generateCode (fun i => if Nat.even i then 1 # 3 else 3 # 4)) = 12%nat /\
  all_chars (fun c => negb (look_alike c))
    (hd EmptyString
       (JS.split "#" (generateCode (fun i => if Nat.even i then 1 # 3 else 3 # 4)))) = true.
Proof.
  apply (generated_code_is_valid (fun i => if Nat.even i then 1 # 3 else 3 # 4)).
  intros i. destruct (Nat.even i); split; vm_compute; congruence.
Defined.

(** X2.  The PIN drawn by [generateCode], [Math.floor(1000 + r * 9000)]
    for the seventh random number [r], has four digits, and it is the PIN
    that both sides read back from the generated code: the text after the
    hash is its decimal writing, [parseInt] of that text is the number
    drawn, and the key is its residue modulo 256. *)
Theorem generated_code_pin (random : nat -> Q) :
  (forall i : nat, (0 <= random i)%Q /\ (random i < 1)%Q) ->
  let drawn := JS.Math_floor (inject_Z 1000 + random 6%nat * inject_Z 9000) in
  1000 <= drawn <= 9999 /\
  pinStr (generateCode random) = JS.number_toString drawn /\
  pin (generateCode random) = drawn /\
  deriveKey (generateCode random) = drawn mod 256.
Proof.
  intros Hr drawn.
  destruct (generateCode_shape random Hr)
    as (a1 & a2 & a3 & b1 & b2 & b3 & E & [A1 L1] & [A2 L2] & [A3 L3] & [B1 M1] & [B2 M2]
        & [B3 M3]).
  destruct (Hr 6%nat) as [H0 H1].
  pose proof (floor_of_pin_draw _ H0 H1) as Hd. fold drawn in Hd, E.
  destruct (number_toString_four_digits _ Hd) as (p1 & p2 & p3 & p4 & Ep & D1 & D2 & D3 & D4).
  assert (Hs : pinStr (generateCode random) = JS.number_toString drawn).
  { rewrite E.
    apply (pinStr_after_hash
             (String a1 (String a2 (String a3 (String "-" (String b1 (String b2
                (String b3 EmptyString)))))))).
    - cbn [has_char].
      now rewrite (lower_alnum_not_hash a1), (lower_alnum_not_hash a2),
        (lower_alnum_not_hash a3), (lower_alnum_not_hash b1), (lower_alnum_not_hash b2),
        (lower_alnum_not_hash b3) by assumption.
    - rewrite Ep. cbn [has_char].
      now rewrite (digit_not_hash p1), (digit_not_hash p2), (digit_not_hash p3),
        (digit_not_hash p4) by assumption.
    - rewrite Ep. discriminate. }
  assert (Hp : pin (generateCode random) = drawn).
  { unfold pin. rewrite Hs, parseInt_number_toString by lia.
    destruct drawn; try lia. reflexivity. }
  repeat split; try lia; try assumption.
  unfold deriveKey, JS.rem. rewrite Hp. apply Z.rem_mod_nonneg; lia.
Qed.

Lemma generated_code_pin_witness :
  let drawn := JS.Math_floor (inject_Z 1000 + (1 # 3) * inject_Z 9000) in
  1000 <= drawn <= 9999 /\
  pinStr (generateCode (fun i => if Nat.even i then 1 # 3 else 3 # 4)) =
    JS.number_toString drawn /\
  pin (generateCode (fun i => if Nat.even i then 1 # 3 else 3 # 4)) = drawn /\
  deriveKey (generateCode (fun i => if Nat.even i then 1 # 3 else 3 # 4)) = drawn mod 256.
Proof.
  apply (generated_code_pin (fun i => if Nat.even i then 1 # 3 else 3 # 4)).
  intros i. destruct (Nat.even i); split; vm_compute; congruence.
Defined.

(** ** Peer identifiers *)

Lemma split_nonempty (sep : ascii) (s : string) : JS.split sep s <> [].
Proof.
  destruct s as [|c s]; cbn [JS.split]; [discriminate|].
  destruct (Ascii.eqb c sep); [discriminate|]. destruct (JS.split sep s); discriminate.
Qed.

Lemma has_char_app (c : ascii) (s t : string) :
  has_char c (s ++ t) = has_char c s || has_char c t.
Proof.
  induction s as [|x s IH]; cbn [append has_char]; [reflexivity|].
  now rewrite IH, orb_assoc.
Qed.

Lemma white_not_hash (s : string) : all_chars JS.is_white s = true -> has_char "#" s = false.
Proof.
  induction s as [|c s IH]; cbn [all_chars has_char]; [reflexivity|].
  intros H. apply andb_true_iff in H as [Hc Hs]. rewrite (IH Hs), orb_false_r.
  ascii_cases c; try discriminate Hc; reflexivity.
Qed.

Lemma trim_start_split (s : string) :
  exists ws : string, s = (ws ++ JS.trim_start s)%string /\ all_chars JS.is_white ws = true.
Proof.
  induction s as [|c s (ws & E & Hw)]; cbn [JS.trim_start].
  - now exists EmptyString.
  - destruct (JS.is_white c) eqn:Hc.
    + exists (String c ws). cbn [append all_chars]. now rewrite <- E, Hc, Hw.
    + now exists EmptyString.
Qed.

Lemma trim_end_split (s : string) :
  exists ws : string, s = (JS.trim_end s ++ ws)%string /\ all_chars JS.is_white ws = true.
Proof.
  induction s as [|c s (ws & E & Hw)]; cbn [JS.trim_end].
  - now exists EmptyString.
  - destruct (JS.trim_end s) as [|c' t] eqn:Et.
    + cbn [append] in E. subst ws. destruct (JS.is_white c) eqn:Hc.
      * exists (String c s). cbn [append all_chars]. now rewrite Hc, Hw.
      * now exists s.
    + exists ws. cbn [append] in *. now rewrite <- E.
Qed.

Lemma trim_split (s : string) :
  exists ws1 ws2 : string,
    s = (ws1 ++ JS.trim s ++ ws2)%string /\
    all_chars JS.is_white ws1 = true /\ all_chars JS.is_white ws2 = true.
Proof.
  destruct (trim_start_split s) as (ws1 & E1 & H1).
  destruct (trim_end_split (JS.trim_start s)) as (ws2 & E2 & H2).
  exists ws1, ws2. unfold JS.trim. now rewrite <- E2, <- E1.
Qed.

(** What is read after the digits does not count. *)
Lemma digits_then_white (s ws : string) (acc : option Z) :
  all_digits s = true -> all_chars JS.is_white ws = true ->
  JS.digits 10 (s ++ ws) acc = JS.digits 10 s acc.
Proof.
  intros Hs Hw. rewrite digits_app by assumption.
  destruct ws as [|c ws]; [reflexivity|]. cbn [all_chars] in Hw.
  apply andb_true_iff in Hw as [Hc _]. cbn [JS.digits].
  ascii_cases c; try discriminate Hc; reflexivity.
Qed.

(** The shape of a text that is a valid room code once lower-cased. *)
Lemma typed_code_shape (core : string) :
  valid_room_code (JS.toLowerCase core) = true ->
  exists pre p1 p2 p3 p4,
    core = (pre ++ String "#" (String p1 (String p2 (String p3 (String p4 EmptyString)))))%string
    /\ has_char "#" pre = false
    /\ is_digit p1 = true /\ is_digit p2 = true /\ is_digit p3 = true /\ is_digit p4 = true.
Proof.
  unfold valid_room_code. intros H.
  destruct core as [|a1 [|a2 [|a3 [|dash [|b1 [|b2 [|b3 [|hash [|p1 [|p2 [|p3 [|p4 [|? ?]]]]]]]]]]]]];
    try discriminate H.
  cbn [JS.toLowerCase list_ascii_of_string forallb] in H.
  repeat match goal with
         | E : (_ && _)%bool = true |- _ => apply andb_true_iff in E as [? ?]
         end.
  exists (String a1 (String a2 (String a3 (String dash (String b1 (String b2 (String b3 EmptyString))))))).
  exists p1, p2, p3, p4.
  repeat match goal with
         | E : is_digit (JS.lower_char ?p) = true |- _ =>
             rewrite (lower_char_digit p E) in E
         end.
  match goal with E : Ascii.eqb (JS.lower_char hash) "#" = true |- _ =>
    rewrite lower_char_hash in E; apply Ascii.eqb_eq in E; subst hash end.
  split; [reflexivity|]. split; [|repeat split; assumption].
  cbn [has_char].
  repeat match goal with
         | E : is_lower_alnum (JS.lower_char ?c) = true |- _ =>
             apply lower_alnum_not_hash in E; rewrite lower_char_hash in E; rewrite E; clear E
         end.
  match goal with E : Ascii.eqb (JS.lower_char dash) "-" = true |- _ =>
    assert (Hd : Ascii.eqb dash "#" = false)
      by (rewrite <- lower_char_hash; apply Ascii.eqb_eq in E; now rewrite E) end.
  now rewrite Hd.
Qed.

(** The PIN read from a code typed with blanks around it. *)
Lemma pin_of_typed (typed : string) :
  valid_room_code (JS.toLowerCase (JS.trim typed)) = true ->
  pin typed = pin (JS.toLowerCase (JS.trim typed)).
Proof.
  intros H. rewrite <- pin_toLowerCase by assumption.
  destruct (trim_split typed) as (ws1 & ws2 & E & H1 & H2).
  destruct (typed_code_shape _ H) as (pre & p1 & p2 & p3 & p4 & Ec & Hpre & D1 & D2 & D3 & D4).
  set (digits := String p1 (String p2 (String p3 (String p4 EmptyString)))) in *.
  assert (Hd : all_digits digits = true) by (cbn; now rewrite D1, D2, D3, D4).
  assert (Hh : has_char "#" digits = false).
  { cbn. now rewrite (digit_not_hash p1), (digit_not_hash p2), (digit_not_hash p3),
      (digit_not_hash p4) by assumption. }
  assert (E1 : pinStr (JS.trim typed) = digits).
  { rewrite Ec. apply pinStr_after_hash; [assumption..|discriminate]. }
  assert (E2 : pinStr typed = (digits ++ ws2)%string).
  { rewrite E, Ec.
    replace (ws1 ++ (pre ++ String "#" digits) ++ ws2)%string
      with ((ws1 ++ pre) ++ String "#" (digits ++ ws2))%string
      by (now rewrite !string_app_assoc).
    apply pinStr_after_hash.
    - now rewrite has_char_app, (white_not_hash ws1 H1), Hpre.
    - now rewrite has_char_app, (white_not_hash ws2 H2), Hh.
    - discriminate. }
  unfold pin. rewrite E1, E2.
  assert (E3 : JS.parseInt (digits ++ ws2) = JS.parseInt digits).
  { subst digits. cbn [append]. rewrite !parseInt_decimal by assumption. f_equal.
    exact (digits_then_white (String p1 (String p2 (String p3 (String p4 EmptyString))))
             ws2 None Hd H2). }
  now rewrite E3.
Qed.

Lemma replace_first_plain (pat : ascii) (new s : string) :
  has_char pat s = false -> JS.replace_first pat new s = s.
Proof.
  induction s as [|c s IH]; cbn [JS.replace_first has_char]; [reflexivity|].
  intros H. apply orb_false_iff in H as [Hc Hs]. now rewrite Hc, IH.
Qed.

Lemma replace_all_plain (pat : ascii) (new s : string) :
  has_char pat s = false -> JS.replace_all pat new s = s.
Proof.
  induction s as [|c s IH]; cbn [JS.replace_all has_char]; [reflexivity|].
  intros H. apply orb_false_iff in H as [Hc Hs]. now rewrite Hc, IH.
Qed.

(** The two sides compute the same identifier from a valid room code. *)
Lemma peer_id_of_valid_code (code : string) :
  valid_room_code code = true ->
  JS.replace_first "-" "" (hd EmptyString (JS.split "#" code)) =
  JS.toLowerCase (JS.replace_all "-" "" (hd EmptyString (JS.split "#" code))).
Proof.
  unfold valid_room_code. intros H.
  destruct code as [|a1 [|a2 [|a3 [|dash [|b1 [|b2 [|b3 [|hash [|p1 [|p2 [|p3 [|p4 [|? ?]]]]]]]]]]]]];
    try discriminate H.
  cbn [list_ascii_of_string forallb] in H.
  repeat match goal with
         | E : (_ && _)%bool = true |- _ => apply andb_true_iff in E as [? ?]
         end.
  repeat match goal with
         | E : Ascii.eqb _ _ = true |- _ => apply Ascii.eqb_eq in E; subst
         end.
  change (String a1 (String a2 (String a3 (String "-" (String b1 (String b2 (String b3
              (String "#" (String p1 (String p2 (String p3 (String p4 EmptyString))))))))))))
    with (String a1 (String a2 (String a3 (String "-" (String b1 (String b2 (String b3
              EmptyString)))))) ++
          String "#" (String p1 (String p2 (String p3 (String p4 EmptyString)))))%string.
  repeat match goal with
         | E : is_lower_alnum ?c = true |- _ =>
             destruct (lower_alnum_plain c E) as (? & ? & ? & _); clear E
         end.
  rewrite split_at_sep.
  - cbn [hd JS.replace_first JS.replace_all JS.toLowerCase append].
    repeat match goal with E : Ascii.eqb _ "-" = false |- _ => rewrite E; clear E end.
    cbn [JS.replace_first JS.replace_all JS.toLowerCase append].
    change (Ascii.eqb "-" "-") with true. cbv iota.
    cbn [JS.toLowerCase]. congruence.
  - cbn [has_char].
    repeat match goal with E : Ascii.eqb _ "#" = false |- _ => rewrite E; clear E end.
    reflexivity.
Qed.


(** X3.  A receiver who types a valid room code in any letter case, with or
    without blanks around it, connects to the peer identifier that the
    sender of that code registered ([mephisto-] followed by the six
    characters of the room), and derives the sender's key. *)
Theorem typed_code_reaches_sender (shareCode typed : string) :
  valid_room_code shareCode = true ->
  JS.toLowerCase (JS.trim typed) = shareCode ->
  receiver_target_id typed = sender_peer_id shareCode /\
  deriveKey typed = deriveKey shareCode.
Proof.
  intros Hv Ht. split.
  - unfold receiver_target_id, sender_peer_id. rewrite Ht. f_equal.
    now apply peer_id_of_valid_code.
  - unfold deriveKey. rewrite pin_of_typed; rewrite Ht; [reflexivity|assumption].
Qed.

Lemma typed_code_reaches_sender_witness :
  receiver_target_id " ABC-def#1234"%string = sender_peer_id "abc-def#1234"%string /\
  deriveKey " ABC-def#1234"%string = deriveKey "abc-def#1234"%string.
Proof.
  apply (typed_code_reaches_sender "abc-def#1234"%string " ABC-def#1234"%string); reflexivity.
Defined.

(** ** A PIN that is not the sender's *)

Lemma xor_byte_two_keys (k1 k2 b : Z) :
  is_byte b ->
  JS.to_uint8 (Z.lxor (JS.to_uint8 (Z.lxor b k1)) k2) =
  Z.lxor b (Z.lxor (k1 mod 256) (k2 mod 256)).
Proof.
  intros Hb. apply Z.bits_inj'. intros n Hn.
  rewrite uint8_bits, !Z.lxor_spec, uint8_bits, Z.lxor_spec by lia.
  fold (JS.to_uint8 k1) (JS.to_uint8 k2). rewrite !uint8_bits by lia.
  rewrite <- (uint8_of_byte b Hb). rewrite !uint8_bits by lia.
  now destruct (n <? 8), (Z.testbit b n), (Z.testbit k1 n), (Z.testbit k2 n).
Qed.

Lemma scramble_two_keys (k1 k2 : Z) (b : bytes) :
  Forall is_byte b ->
  scramble k2 (scramble k1 b) = map (fun x => Z.lxor x (Z.lxor (k1 mod 256) (k2 mod 256))) b.
Proof.
  intros Hb. unfold scramble. rewrite map_map. apply map_ext_in. intros x Hx.
  rewrite Forall_forall in Hb. now apply xor_byte_two_keys, Hb.
Qed.


Lemma valid_code_key (code : string) :
  valid_room_code code = true -> deriveKey code = pin code mod 256.
Proof.
  intros H. pose proof (valid_room_code_pin code H). unfold deriveKey, JS.rem.
  apply Z.rem_mod_nonneg; lia.
Qed.

(** X4.  The PIN is no part of the peer identifier: a receiver who types
    the room of a sender with any other four-digit PIN reaches that sender.
    What it stores of a chunk is then the content XOR-ed with the difference
    of the two residues modulo 256: the content itself when the two PINs
    are congruent modulo 256, and something else for every non-empty chunk
    when they are not. *)
Theorem pin_counts_modulo_256 (shareCode typed : string) :
  valid_room_code shareCode = true ->
  valid_room_code (JS.toLowerCase (JS.trim typed)) = true ->
  hd EmptyString (JS.split "#" (JS.toLowerCase (JS.trim typed))) =
    hd EmptyString (JS.split "#" shareCode) ->
  receiver_target_id typed = sender_peer_id shareCode /\
  forall b : bytes, Forall is_byte b ->
    let received := scramble (deriveKey typed) (scramble (deriveKey shareCode) b) in
    received = map (fun x => Z.lxor x (Z.lxor (pin shareCode mod 256) (pin typed mod 256))) b /\
    (pin typed mod 256 = pin shareCode mod 256 -> received = b) /\
    (pin typed mod 256 <> pin shareCode mod 256 -> b <> [] -> received <> b).
Proof.
  intros Hs Ht Hroom. split.
  { unfold receiver_target_id, sender_peer_id. rewrite Hroom. f_equal.
    now apply peer_id_of_valid_code. }
  intros b Hb received.
  assert (Kt : deriveKey typed = pin typed mod 256).
  { unfold deriveKey. rewrite pin_of_typed by assumption. now apply valid_code_key. }
  assert (Ks : deriveKey shareCode = pin shareCode mod 256) by now apply valid_code_key.
  assert (E : received =
              map (fun x => Z.lxor x (Z.lxor (pin shareCode mod 256) (pin typed mod 256))) b).
  { subst received. rewrite scramble_two_keys by assumption. rewrite Ks, Kt.
    now rewrite !Z.mod_mod by lia. }
  split; [exact E|]. split.
  - intros Hk. rewrite E, Hk, Z.lxor_nilpotent.
    rewrite <- (map_id b) at 2. apply map_ext. intros x. apply Z.lxor_0_r.
  - intros Hk Hne Heq. rewrite E in Heq. destruct b as [|x b]; [contradiction|].
    cbn [map] in Heq. injection Heq as Hx _. apply lxor_fixes in Hx.
    apply Z.lxor_eq in Hx. congruence.
Qed.

Lemma pin_counts_modulo_256_witness :
  receiver_target_id "abc-def#1490"%string = sender_peer_id "abc-def#1234"%string /\
  scramble (deriveKey "abc-def#1490") (scramble (deriveKey "abc-def#1234") [0; 7; 255]) =
    [0; 7; 255] /\
  scramble (deriveKey "abc-def#1235") (scramble (deriveKey "abc-def#1234") [0; 7; 255]) <>
    [0; 7; 255].
Proof.
  split; [|split].
  - apply (pin_counts_modulo_256 "abc-def#1234"%string "abc-def#1490"%string); reflexivity.
  - apply (proj2 (pin_counts_modulo_256 "abc-def#1234"%string "abc-def#1490"%string
                    eq_refl eq_refl eq_refl) [0; 7; 255]).
    + repeat constructor; unfold is_byte; lia.
    + reflexivity.
  - apply (proj2 (pin_counts_modulo_256 "abc-def#1234"%string "abc-def#1235"%string
                    eq_refl eq_refl eq_refl) [0; 7; 255]).
    + repeat constructor; unfold is_byte; lia.
    + vm_compute. discriminate.
    + discriminate.
Defined.

(** X5.  The data handlers of the three ways to connect as a receiver (the
    connect form, a device of the nearby list, a room named in the page
    address) do the same on every message but two: a chunk with an empty
    buffer, which only the connect form refuses, and a chunk without a
    buffer, for which the handler of the page address sets another error
    text. *)
Theorem receiver_handlers_agree (code : string) (progress : Z) (m : Msg) (a : App) :
  is_empty_chunk m = false ->
  let cap := {| cap_receiveCode := code; cap_transferProgress := progress |} in
  device_on_data code m a = receiver_on_data cap m a /\
  (is_missing_buffer m = false -> autojoin_on_data code m a = receiver_on_data cap m a) /\
  (is_missing_buffer m = true ->
     snd (autojoin_on_data code m a) = snd (receiver_on_data cap m a) /\
     set_errorStatus None (fst (autojoin_on_data code m a)) =
       set_errorStatus None (fst (receiver_on_data cap m a))).
Proof.
  intros Hm cap.
  destruct m as [| | |[[|b buf]|] o| |]; try discriminate Hm; cbn [is_missing_buffer].
  all: split; [reflexivity|split; intros H; try discriminate H; try reflexivity].
  split; [reflexivity|]. now destruct a.
Qed.

Lemma receiver_handlers_agree_witness :
  device_on_data "abc-def#1234" (chunk (Some [1; 2; 3]) 0) demo_receiver =
    receiver_on_data demo_cap (chunk (Some [1; 2; 3]) 0) demo_receiver /\
  autojoin_on_data "abc-def#1234" (metadata "a.bin" 3 "") demo_receiver =
    receiver_on_data demo_cap (metadata "a.bin" 3 "") demo_receiver.
Proof.
  pose proof (receiver_handlers_agree "abc-def#1234" (-1) (chunk (Some [1; 2; 3]) 0)
                demo_receiver eq_refl) as H1.
  pose proof (receiver_handlers_agree "abc-def#1234" (-1) (metadata "a.bin" 3 "")
                demo_receiver eq_refl) as H2.
  cbv zeta in H1, H2. split.
  - exact (proj1 H1).
  - exact (proj1 (proj2 H2) eq_refl).
Defined.

(** X6.  An empty file completes for a receiver that connected from the
    nearby list or from the page address: the sender answers the metadata
    request with size 0 and the request for offset 0 with an empty chunk
    (and shows 100 itself), and the receiver's handler then shows 100 and
    assembles the empty file, with no error and one more transfer counted. *)
Theorem empty_file_on_the_other_paths (shareCode code : string) (conn : nat) (file : File)
    (s a : App) :
  file_bytes file = [] -> fileToShareRef s = Some file -> fileMetaRef a = None ->
  let described := metadata (file_name file) (file_size file) (file_type file) in
  sender_on_data CHUNK_SIZE shareCode conn request_metadata s = (s, [(conn, described)]) /\
  snd (sender_on_data CHUNK_SIZE shareCode conn (request_chunk 0) s) =
    [(conn, chunk (Some []) 0)] /\
  transferProgress (fst (sender_on_data CHUNK_SIZE shareCode conn (request_chunk 0) s)) = 100 /\
  (snd (device_on_data code described a) = [request_chunk 0] /\
   snd (device_on_data code (chunk (Some []) 0) (fst (device_on_data code described a))) = [] /\
   holds_file file a
     (fst (device_on_data code (chunk (Some []) 0) (fst (device_on_data code described a))))) /\
  (snd (autojoin_on_data code described a) = [request_chunk 0] /\
   snd (autojoin_on_data code (chunk (Some []) 0) (fst (autojoin_on_data code described a))) = [] /\
   holds_file file a
     (fst (autojoin_on_data code (chunk (Some []) 0)
             (fst (autojoin_on_data code described a))))).
Proof.
  intros Hb Hs Ha described. subst described.
  destruct file as [name type data]. cbn in Hb. subst data.
  split; [|split; [|split; [|split]]].
  - cbn [sender_on_data]. now rewrite Hs.
  - cbn [sender_on_data]. unfold sendChunk_sized. now rewrite Hs.
  - cbn [sender_on_data]. unfold sendChunk_sized. rewrite Hs. now destruct s.
  - destruct a; cbn in Ha; subst. repeat split.
  - destruct a; cbn in Ha; subst. repeat split.
Qed.

Lemma empty_file_on_the_other_paths_witness :
  holds_file (demo_file []) demo_receiver
    (fst (device_on_data demo_code (chunk (Some []) 0)
            (fst (device_on_data demo_code (metadata "a.bin" 0 "") demo_receiver)))).
Proof.
  pose proof (empty_file_on_the_other_paths demo_code demo_code 7 (demo_file [])
                (demo_sender []) demo_receiver eq_refl eq_refl eq_refl) as H.
  cbv zeta in H. exact (proj2 (proj2 (proj1 (proj2 (proj2 (proj2 H)))))).
Defined.

(** ** The countdown and the connection *)

Lemma close_keeps_timer (cap : Captured) (a : App) :
  intervals (receiver_on_close cap a) = intervals a /\
  selfDestructRef (receiver_on_close cap a) = selfDestructRef a /\
  selfDestructSec (receiver_on_close cap a) = selfDestructSec a /\
  completedFile (receiver_on_close cap a) = completedFile a /\
  transferProgress (receiver_on_close cap a) = transferProgress a /\
  mode (receiver_on_close cap a) = mode a /\
  isConnected (receiver_on_close cap a) = false.
Proof. unfold receiver_on_close. destruct a; cbn. split_tests; repeat split. Qed.

(** X7.  When the connection closes during the self-destruct countdown,
    the countdown stops: the interval is cancelled, the seconds shown stay
    where they were, the completed file and the progress stay, and no later
    firing tears the session down. *)
Theorem close_stops_the_countdown (cap : Captured) (a : App) (id : nat) (sec : Z) :
  counting_down id sec a -> isConnected a = true ->
  let a1 := fst (step cap conn_closed a) in
  isConnected a1 = false /\ intervals a1 = [] /\ selfDestructSec a1 = sec /\
  completedFile a1 = completedFile a /\ transferProgress a1 = transferProgress a /\
  mode a1 = mode a /\
  forall ids : list nat,
    steps cap (map self_destruct_tick ids) a1 = (a1, repeat [] (List.length ids)).
Proof.
  intros (Hi & Hr & Hs & _) Hc a1.
  destruct (close_keeps_timer cap a) as (Ki & Kr & Ks & Kf & Kp & Km & Kc).
  assert (E : a1 = set_intervals [] (receiver_on_close cap a)).
  { subst a1. unfold step, handle. cbn [fst]. 
    set (c := receiver_on_close cap a) in *.
    assert (E1 : effects a c = set_intervals [] c).
    { unfold effects, mode_changed, self_destruct_deps_changed.
      rewrite Km, mode_eqb_refl, Kp, Z.eqb_refl, Hc, Kc. cbn [negb andb Bool.eqb].
      unfold self_destruct_effect. rewrite Kc, andb_false_r.
      unfold self_destruct_cleanup, clearInterval. rewrite Kr, Hr, Ki, Hi.
      cbn [filter fst]. now rewrite Nat.eqb_refl. }
    unfold commit. rewrite E1. apply effects_same_deps; now destruct c. }
  rewrite E. destruct (receiver_on_close cap a); cbn in *. subst.
  repeat split. intros ids. now apply steps_ticks_unscheduled.
Qed.

Lemma close_stops_the_countdown_witness :
  let a := fst (steps demo_cap [conn_data (metadata "a.bin" 3 "");
                                conn_data (chunk (Some [1; 2; 3]) 0);
                                self_destruct_tick 1; self_destruct_tick 1] demo_receiver) in
  let a1 := fst (step demo_cap conn_closed a) in
  selfDestructSec a = 298 /\ intervals a1 = [] /\ selfDestructSec a1 = 298 /\
  completedFile a1 = completedFile a.
Proof.
  cbv zeta.
  set (a := fst (steps demo_cap _ demo_receiver)).
  assert (Ha : counting_down 1 298 a) by (vm_compute; repeat split).
  pose proof (close_stops_the_countdown demo_cap a 1%nat 298 Ha eq_refl) as H.
  cbv zeta in H. destruct H as (_ & H2 & H3 & H4 & _).
  split; [reflexivity|]. now split; [|split].
Defined.

Lemma one_timer_same (a b : App) :
  intervals b = intervals a -> selfDestructRef b = selfDestructRef a ->
  one_timer a -> one_timer b.
Proof. unfold one_timer. intros -> ->. tauto. Qed.

Lemma one_timer_reset (a : App) : one_timer a -> intervals (resetConnection a) = [].
Proof.
  intros [H|(id & H1 & H2)].
  - now apply resetConnection_no_intervals.
  - eapply resetConnection_intervals; eassumption.
Qed.

Lemma one_timer_none (a : App) : intervals a = [] -> one_timer a.
Proof. now left. Qed.

Lemma handle_one_timer (cap : Captured) (e : Event) (a : App) :
  one_timer a -> one_timer (fst (handle cap e a)).
Proof.
  intros H. destruct e; cbn [handle fst].
  - apply (one_timer_same a); [| |assumption]; now destruct a.
  - apply (one_timer_same a); [| |assumption];
      unfold handshake_fire; destruct a; cbn; split_tests; reflexivity.
  - apply (one_timer_same a); [| |assumption];
      unfold receiver_on_data, finalizeDownload; destruct a; cbn; split_tests; reflexivity.
  - apply (one_timer_same a); [| |assumption]; apply close_keeps_timer.
  - apply (one_timer_same a); [| |assumption]; now destruct a.
  - apply (one_timer_same a); [| |assumption]; now destruct a.
  - unfold self_destruct_fire. destruct (existsb _ _); [|assumption].
    destruct (selfDestructSec a <=? 1).
    + apply one_timer_none. pose proof (one_timer_reset a H) as Hr.
      now destruct (resetConnection a).
    + apply (one_timer_same a); [| |assumption]; now destruct a.
  - apply (one_timer_same a); [| |assumption]; now destruct a.
  - apply one_timer_none. pose proof (one_timer_reset a H) as Hr.
    now destruct (resetConnection a).
Qed.

Lemma effects_one_timer (prev cur : App) : one_timer cur -> one_timer (effects prev cur).
Proof.
  intros H. unfold effects.
  set (a1 := if mode_changed prev cur then mode_cleanup cur else cur).
  assert (H1 : one_timer a1).
  { subst a1. destruct (mode_changed prev cur); [|assumption].
    apply one_timer_none. pose proof (one_timer_reset cur H) as Hr.
    unfold mode_cleanup. now destruct (resetConnection cur). }
  destruct (self_destruct_deps_changed prev cur); [|assumption].
  assert (H2 : intervals (self_destruct_cleanup a1) = []).
  { unfold self_destruct_cleanup, clearInterval.
    destruct H1 as [H1|(id & H1 & H1')].
    - destruct (selfDestructRef a1); [|assumption]. destruct a1; cbn in *. now subst.
    - rewrite H1'. destruct a1; cbn in *. subst. cbn. now rewrite Nat.eqb_refl. }
  unfold self_destruct_effect.
  destruct ((100 <=? transferProgress cur) && isConnected cur); [|now left].
  right. exists (next_interval (self_destruct_cleanup a1)).
  destruct (self_destruct_cleanup a1); cbn in *. subst. now split.
Qed.

Lemma step_one_timer (cap : Captured) (e : Event) (a : App) :
  one_timer a -> one_timer (fst (step cap e a)).
Proof.
  intros H. pose proof (handle_one_timer cap e a H) as H1.
  unfold step. destruct (handle cap e a) as [a' out]. cbn [fst] in *.
  unfold commit. now do 2 apply effects_one_timer.
Qed.

Lemma steps_one_timer (cap : Captured) (es : list Event) (a : App) :
  one_timer a -> one_timer (fst (steps cap es a)).
Proof.
  revert a. induction es as [|e es IH]; intros a H; cbn [steps]; [assumption|].
  pose proof (step_one_timer cap e a H) as H1.
  destruct (step cap e a) as [a1 out]. cbn [fst] in H1.
  specialize (IH a1 H1). now destruct (steps cap es a1).
Qed.

(** X8.  Over every sequence of events of a receiver's session, at most one
    self-destruct interval is scheduled, it has the period of 1000 ms and it
    is the one [selfDestructRef] names; so [resetConnection] always leaves
    no interval behind. *)
Theorem never_two_countdowns (cap : Captured) (es : list Event) (a : App) :
  one_timer a ->
  let z := fst (steps cap es a) in
  (List.length (intervals z) <= 1)%nat /\
  (forall i : nat * Z, In i (intervals z) ->
     selfDestructRef z = Some (fst i) /\ snd i = SELF_DESTRUCT_TICK_MS) /\
  intervals (resetConnection z) = [].
Proof.
  intros H z. pose proof (steps_one_timer cap es a H) as Hz. fold z in Hz.
  split; [|split].
  - destruct Hz as [->|(id & -> & _)]; cbn; lia.
  - intros i Hi. destruct Hz as [Hz|(id & Hz & Hr)]; rewrite Hz in Hi; [contradiction|].
    destruct Hi as [<-|[]]. now split.
  - now apply one_timer_reset.
Qed.

Lemma never_two_countdowns_witness :
  let z := fst (steps demo_cap [conn_data (metadata "a.bin" 3 "");
                                conn_data (chunk (Some [1; 2; 3]) 0);
                                conn_closed; conn_opened; self_destruct_tick 1]
                  demo_receiver) in
  (List.length (intervals z) <= 1)%nat /\ intervals (resetConnection z) = [].
Proof.
  pose proof (never_two_countdowns demo_cap
                [conn_data (metadata "a.bin" 3 ""); conn_data (chunk (Some [1; 2; 3]) 0);
                 conn_closed; conn_opened; self_destruct_tick 1]
                demo_receiver (or_introl eq_refl)) as H.
  cbv zeta in *. split; [exact (proj1 H)|exact (proj2 (proj2 H))].
Defined.

(** ** A new attempt to connect *)

(** X9.  Whatever a receiver's session went through before, submitting
    the connect form with a code starts from a clean state: progress 0, no
    error, not connected, no metadata, no chunk and no byte received, no
    completed file, no chat message, no countdown and no interval left; a
    new peer is held, no connection yet, and the count of transfers of the
    session is kept. *)
Theorem connecting_starts_clean (cap : Captured) (es : list Event) (a0 : App)
    (receiveCode : string) :
  one_timer a0 -> receiveCode <> EmptyString ->
  let a := handleConnectReceiver receiveCode (fst (steps cap es a0)) in
  transferProgress a = 0 /\ errorStatus a = None /\ isConnected a = false /\
  fileMeta a = None /\ fileMetaRef a = None /\
  receivedChunksRef a = [] /\ receivedBytesRef a = 0 /\
  completedFile a = None /\ chatMessages a = [] /\
  selfDestructSec a = 0 /\ selfDestructRef a = None /\ intervals a = [] /\
  connRef a = None /\ peerRef a = true /\
  sessionTransfers a = sessionTransfers (fst (steps cap es a0)).
Proof.
  intros H0 Hc. pose proof (steps_one_timer cap es a0 H0) as H.
  set (b := fst (steps cap es a0)) in *. cbv zeta.
  pose proof (resetConnection_clears b) as Hr. cbv zeta in Hr.
  pose proof (one_timer_reset b H) as Hi.
  unfold handleConnectReceiver. destruct receiveCode; [contradiction|].
  destruct (resetConnection b); cbn in *. intuition congruence.
Qed.

Lemma connecting_starts_clean_witness :
  let a := handleConnectReceiver "xyz-uvw#4321"
             (fst (steps demo_cap [conn_data (metadata "a.bin" 3 "");
                                   conn_data (chunk (Some [1; 2; 3]) 0);
                                   self_destruct_tick 1; conn_closed] demo_receiver)) in
  transferProgress a = 0 /\ completedFile a = None /\ intervals a = [].
Proof.
  pose proof (connecting_starts_clean demo_cap
                [conn_data (metadata "a.bin" 3 ""); conn_data (chunk (Some [1; 2; 3]) 0);
                 self_destruct_tick 1; conn_closed] demo_receiver "xyz-uvw#4321"
                (or_introl eq_refl) ltac:(discriminate)) as H.
  cbv zeta in *. destruct H as (H1 & _ & _ & _ & _ & _ & _ & H8 & _ & _ & _ & H12 & _).
  now split; [|split].
Defined.

Lemma room_effects_badge (prev cur : Room) : badge_ok cur -> badge_ok (room_effects prev cur).
Proof.
  intros H. unfold room_effects, badge_ok. cbn [multiConnsRef peerCount].
  destruct (mode_changed _ _); [reflexivity|assumption].
Qed.

Lemma room_handle_badge (chunk_size : Z) (shareCode : string) (e : RoomEvent) (r : Room) :
  badge_ok r -> badge_ok (fst (room_handle chunk_size shareCode e r)).
Proof.
  unfold badge_ok. intros H. destruct e; cbn [room_handle fst multiConnsRef peerCount];
    try assumption; try reflexivity.
  - rewrite length_app, H. cbn. lia.
  - now destruct (sender_on_data _ _ _ _ _).
  - destruct (existsb _ _); [|assumption]. now destruct (_ <=? _).
Qed.

Lemma room_step_badge (chunk_size : Z) (shareCode : string) (e : RoomEvent) (r : Room) :
  badge_ok r -> badge_ok (fst (room_step chunk_size shareCode e r)).
Proof.
  intros H. pose proof (room_handle_badge chunk_size shareCode e r H) as H1.
  unfold room_step. destruct (room_handle _ _ e r) as [r' out]. cbn [fst] in *.
  unfold room_commit. now do 2 apply room_effects_badge.
Qed.

(** X10.  From [initSender] on, over every sequence of events of the room
    (connections arriving, opening, sending data, closing, failing, the
    self-destruct interval firing, the close button), the number shown on
    the room badge is the number of connections held in [multiConnsRef]. *)
Theorem badge_counts_the_room (chunk_size : Z) (shareCode code : string)
    (es : list RoomEvent) (r : Room) :
  code <> EmptyString ->
  let z := room_steps chunk_size shareCode es (initSender code r) in
  peerCount z = Z.of_nat (List.length (multiConnsRef z)).
Proof.
  intros Hc z. subst z.
  assert (H0 : badge_ok (initSender code r)).
  { destruct code; [contradiction|reflexivity]. }
  generalize dependent (initSender code r). clear r.
  induction es as [|e es IH]; intros r H; cbn [room_steps]; [exact H|].
  apply IH. now apply room_step_badge.
Qed.

Lemma badge_counts_the_room_witness :
  let z := room_steps CHUNK_SIZE demo_code
             [room_connection 1; room_conn_open 1; room_connection 2; room_conn_open 2;
              room_conn_data 1 request_metadata; room_conn_close 1; room_conn_close 5]
             (initSender demo_code
                {| room_app := demo_sender [1; 2; 3]; multiConnsRef := []; peerCount := 0 |}) in
  peerCount z = Z.of_nat (List.length (multiConnsRef z)).
Proof.
  apply (badge_counts_the_room CHUNK_SIZE demo_code demo_code). discriminate.
Defined.

(** ** The progress the two sides show *)

(** X11.  When the sender answers the request for the offset that the
    receiver has reached, and the receiver handles that answer, the two
    sides show the same progress: the receiver then holds
    [min(offset + chunk size, size)] bytes, and both show 100 exactly when
    that is the whole file. *)
Theorem both_sides_show_the_same_progress (chunk_size : Z) (shareCode : string)
    (cap : Captured) (conn : nat) (file : File) (s a : App) (o : Z) :
  0 < chunk_size -> fileToShareRef s = Some file ->
  fileMetaRef a = Some (file_meta file) -> receivedBytesRef a = o ->
  0 <= o < file_size file ->
  exists (reply : Msg) (s' a' : App) (out : list Msg),
    sender_on_data chunk_size shareCode conn (request_chunk o) s = (s', [(conn, reply)]) /\
    receiver_on_data cap reply a = (a', out) /\
    receivedBytesRef a' = Z.min (o + chunk_size) (file_size file) /\
    transferProgress s' = transferProgress a' /\
    (transferProgress a' = 100 <-> file_size file <= o + chunk_size).
Proof.
  intros Hc Hs Hm Hb Ho.
  cbn [sender_on_data]. unfold sendChunk_sized. rewrite Hs.
  set (end_ := Z.min (o + chunk_size) (file_size file)).
  assert (He : o < end_ <= file_size file) by (subst end_; lia).
  rewrite blob_slice_in_range by (unfold file_size in *; lia).
  pose proof (byte_range_length (file_bytes file) o end_ ltac:(lia)
                ltac:(unfold file_size in *; lia)) as Hl.
  set (reply := chunk _ o).
  assert (Hr : exists a' out, receiver_on_data cap reply a = (a', out) /\
             receivedBytesRef a' = end_ /\
             transferProgress a' =
               if end_ =? file_size file then 100
               else Z.min 99 (percent end_ (file_size file))).
  { subst reply. cbn [receiver_on_data]. rewrite !scramble_length, Hl.
    destruct (Z.eqb_spec (end_ - o) 0); [lia|].
    destruct a; cbn in Hm, Hb; subst. cbn.
    replace (o + (end_ - o)) with end_ by lia.
    destruct (Z.ltb_spec end_ (file_size file)), (Z.eqb_spec end_ (file_size file));
      try lia; do 2 eexists; (split; [reflexivity|]); cbn; split; reflexivity. }
  destruct Hr as (a' & out & Er & Eb & Ep).
  exists reply, (set_transferProgress
                   (if end_ =? file_size file then 100
                    else Z.min 99 (percent end_ (file_size file))) s), a', out.
  split; [reflexivity|]. split; [assumption|]. split; [assumption|].
  rewrite Ep. split; [now destruct s|].
  destruct (Z.eqb_spec end_ (file_size file)) as [E|E].
  - split; intros _; [subst end_; lia|reflexivity].
  - pose proof (Z.le_min_l 99 (percent end_ (file_size file))).
    split; intros H1; [lia|subst end_; lia].
Qed.

Lemma both_sides_show_the_same_progress_witness :
  exists (reply : Msg) (s' a' : App) (out : list Msg),
    sender_on_data 2 demo_code 7 (request_chunk 0) (demo_sender [10; 20; 30]) =
      (s', [(7%nat, reply)]) /\
    receiver_on_data demo_cap reply
      (fst (receiver_on_data demo_cap (metadata "a.bin" 3 "") demo_receiver)) = (a', out) /\
    receivedBytesRef a' = Z.min (0 + 2) (file_size (demo_file [10; 20; 30])) /\
    transferProgress s' = transferProgress a' /\
    (transferProgress a' = 100 <-> file_size (demo_file [10; 20; 30]) <= 0 + 2).
Proof.
  apply (both_sides_show_the_same_progress 2 demo_code demo_cap 7 (demo_file [10; 20; 30])
           (demo_sender [10; 20; 30])
           (fst (receiver_on_data demo_cap (metadata "a.bin" 3 "") demo_receiver)) 0).
  - lia.
  - reflexivity.
  - reflexivity.
  - reflexivity.
  - vm_compute. split; [discriminate|reflexivity].
Defined.

Lemma nearby_ids_map (f : Device -> Device) (l : list Device) :
  (forall d, dev_id (f d) = dev_id d) -> map dev_id (map f l) = map dev_id l.
Proof. intros H. rewrite map_map. apply map_ext. exact H. Qed.

Lemma nearby_find_none (id : string) (l : list Device) :
  find (fun d => String.eqb (dev_id d) id) l = None -> ~ In id (map dev_id l).
Proof.
  induction l as [|d l IH]; cbn [find map]; [tauto|].
  destruct (String.eqb_spec (dev_id d) id) as [E|E]; [discriminate|].
  intros H [Hd|Hin]; [contradiction|]. now apply IH.
Qed.

Lemma nearby_cleanup_ids (now : Z) (devices : list Device) :
  NoDup (map dev_id devices) -> NoDup (map dev_id (nearby_cleanup now devices)).
Proof.
  unfold nearby_cleanup. intros H.
  induction devices as [|d devices IH]; cbn [filter map]; [constructor|].
  cbn [map] in H. apply NoDup_cons_iff in H as [Hd Hrest].
  destruct (now - dev_time d <? 10000); [|now apply IH].
  cbn [map]. apply NoDup_cons; [|now apply IH].
  intros Hin. apply Hd. apply in_map_iff in Hin as (y & <- & Hy).
  apply filter_In in Hy as [Hy _]. now apply in_map.
Qed.

Lemma nearby_step_ids (deviceId : string) (e : NearbyEvent) (l : list Device) :
  NoDup (map dev_id l) /\ ~ In deviceId (map dev_id l) ->
  NoDup (map dev_id (nearby_step deviceId e l)) /\
  ~ In deviceId (map dev_id (nearby_step deviceId e l)).
Proof.
  intros [Hn Hs]. destruct e as [[id name time code|]|now]; cbn [nearby_step nearby_on_message].
  - destruct (String.eqb_spec id deviceId) as [E|E]; cbn [negb]; [now split|].
    destruct (find _ l) eqn:Hf.
    + rewrite nearby_ids_map; [now split|].
      intros x. now destruct (String.eqb (dev_id x) id).
    + rewrite map_app. cbn [map dev_id]. split.
      * apply NoDup_app; [assumption|repeat constructor; tauto|].
        intros x Hx [<-|[]]. revert Hx. now apply nearby_find_none.
      * rewrite in_app_iff. intros [H|[H|[]]]; [contradiction|congruence].
  - now split.
  - split; [now apply nearby_cleanup_ids|]. unfold nearby_cleanup.
    intros Hin. apply Hs. apply in_map_iff in Hin as (y & <- & Hy).
    apply filter_In in Hy as [Hy _]. now apply in_map.
Qed.

(** X12.  Over every sequence of messages of the broadcast channel and of
    cleanup firings, the list of nearby devices holds each device identifier
    at most once and never the identifier of the device itself, whose own
    announcements change nothing; and every device left by a cleanup at time
    [now] announced itself less than 10 seconds before. *)
Theorem nearby_devices_are_distinct (deviceId : string) (es : list NearbyEvent) :
  let listed := fold_left (fun l e => nearby_step deviceId e l) es [] in
  (NoDup (map dev_id listed) /\ ~ In deviceId (map dev_id listed)) /\
  (forall (shareCode : string) (now : Z),
      nearby_on_message deviceId (announcement deviceId shareCode now) listed = listed) /\
  (forall (now : Z) (d : Device),
      In d (nearby_cleanup now listed) -> In d listed /\ now - dev_time d < 10000).
Proof.
  cbv zeta. split; [|split].
  2:{ intros shareCode now. unfold announcement. cbn [nearby_on_message].
      now rewrite String.eqb_refl. }
  2:{ intros now d Hd. apply filter_In in Hd as [Hd Ht]. split; [assumption|].
      now apply Z.ltb_lt. }
  assert (H0 : NoDup (map dev_id []) /\ ~ In deviceId (map dev_id [])).
  { split; [constructor|intros []]. }
  generalize dependent (@nil Device).
  induction es as [|e es IH]; intros l H; cbn [fold_left]; [exact H|].
  apply IH. now apply nearby_step_ids.
Qed.

Lemma nearby_message_keeps_code (deviceId : string) (data : Broadcast) (l : list Device)
    (id : string) :
  (exists d, In d l /\ dev_id d = id) ->
  (forall d, In d l -> dev_id d = id -> has_code d = true) ->
  (exists d, In d (nearby_on_message deviceId data l) /\ dev_id d = id) /\
  (forall d, In d (nearby_on_message deviceId data l) -> dev_id d = id -> has_code d = true).
Proof.
  intros (d0 & Hin0 & Hid0) Hall.
  destruct data as [id' name time code|]; cbn [nearby_on_message]; [|now split; [exists d0|]].
  destruct (negb (String.eqb id' deviceId)); [|now split; [exists d0|]].
  destruct (find _ l) eqn:Hf.
  - split.
    + exists (if String.eqb (dev_id d0) id'
              then {| dev_id := dev_id d0; dev_name := dev_name d0; dev_time := time;
                      dev_code := code_or code (dev_code d0) |}
              else d0).
      split; [|now destruct (String.eqb (dev_id d0) id')].
      apply in_map_iff. now exists d0.
    + intros x Hx Hxi. apply in_map_iff in Hx as (y & <- & Hy).
      destruct (String.eqb (dev_id y) id') eqn:E; [|now apply Hall].
      cbn [dev_id] in Hxi. specialize (Hall y Hy Hxi). unfold has_code in *.
      cbn [dev_code]. destruct code as [[|c s]|]; try assumption. reflexivity.
  - split.
    + exists d0. split; [|assumption]. apply in_or_app. now left.
    + intros x Hx Hxi. apply in_app_iff in Hx as [Hx|[<-|[]]]; [now apply Hall|].
      cbn [dev_id] in Hxi. subst id'. exfalso.
      apply (nearby_find_none _ _ Hf). rewrite <- Hid0. now apply in_map.
Qed.

(** X13.  A listed device that has announced a room code stays listed with
    a room code over every later sequence of messages, also when its later
    announcements carry none. *)
Theorem room_code_stays_listed (deviceId : string) (msgs : list Broadcast) (l : list Device)
    (d : Device) :
  In d l -> (forall x, In x l -> dev_id x = dev_id d -> has_code x = true) ->
  let listed := fold_left (fun l m => nearby_on_message deviceId m l) msgs l in
  (exists x, In x listed /\ dev_id x = dev_id d) /\
  (forall x, In x listed -> dev_id x = dev_id d -> has_code x = true).
Proof.
  intros Hin Hall. cbv zeta.
  assert (H0 : (exists x, In x l /\ dev_id x = dev_id d) /\
               (forall x, In x l -> dev_id x = dev_id d -> has_code x = true)).
  { split; [now exists d|assumption]. }
  clear Hin Hall. revert l H0.
  induction msgs as [|m msgs IH]; intros l [H1 H2]; cbn [fold_left]; [now split|].
  apply IH. now apply nearby_message_keeps_code.
Qed.

Lemma room_code_stays_listed_witness :
  exists x,
    In x (fold_left (fun l m => nearby_on_message "me" m l)
            [announce "x1" "Device-x1" 13 None; announce "x2" "Device-x2" 14 None]
            [{| dev_id := "x1"; dev_name := "Device-x1"; dev_time := 10;
                dev_code := Some "abc-def#1234"%string |}]) /\
    dev_id x = "x1"%string.
Proof.
  refine (proj1 (room_code_stays_listed "me"
            [announce "x1" "Device-x1" 13 None; announce "x2" "Device-x2" 14 None]
            [{| dev_id := "x1"; dev_name := "Device-x1"; dev_time := 10;
                dev_code := Some "abc-def#1234"%string |}]
            {| dev_id := "x1"; dev_name := "Device-x1"; dev_time := 10;
               dev_code := Some "abc-def#1234"%string |} _ _)).
  - now left.
  - intros x [<-|[]] _. reflexivity.
Defined.

Lemma number_toString_one_digit (n : Z) :
  0 <= n < 10 -> JS.number_toString n = String (JS.digit_char n) EmptyString.
Proof.
  intros H. unfold JS.number_toString. destruct (Z.ltb_spec n 0); [lia|].
  assert (Hl : Z.log2 n < 7).
  { destruct (Z.eq_dec n 0) as [->|]; [reflexivity|].
    apply Z.log2_lt_pow2; [lia|]. change (2 ^ 7) with 128. lia. }
  pose proof (Z.log2_nonneg n) as Hl0.
  rewrite <- (to_digits_fuel (S (Z.to_nat (Z.log2 n))) 7) by (try lia; apply log2_fuel; lia).
  cbn [JS.to_digits]. destruct (Z.ltb_spec n 10); [|lia].
  now rewrite Z.mod_small by lia.
Qed.

Lemma number_toString_two_digits (n : Z) :
  10 <= n < 100 ->
  JS.number_toString n =
    String (JS.digit_char (n / 10)) (String (JS.digit_char (n mod 10)) EmptyString).
Proof.
  intros H. unfold JS.number_toString. destruct (Z.ltb_spec n 0); [lia|].
  assert (Hl : Z.log2 n < 7).
  { apply Z.log2_lt_pow2; [lia|]. change (2 ^ 7) with 128. lia. }
  pose proof (Z.log2_nonneg n) as Hl0.
  rewrite <- (to_digits_fuel (S (Z.to_nat (Z.log2 n))) 7) by (try lia; apply log2_fuel; lia).
  cbn [JS.to_digits]. destruct (Z.ltb_spec n 10); [lia|].
  destruct (Z.ltb_spec (n / 10) 10); [|Z.div_mod_to_equations; lia].
  now rewrite (Z.mod_small (n / 10)) by (Z.div_mod_to_equations; lia).
Qed.

Lemma digits_not_colon (s : string) : all_digits s = true -> has_char ":" s = false.
Proof.
  induction s as [|c s IH]; cbn [all_digits has_char]; [reflexivity|].
  intros H. apply andb_true_iff in H as [Hc Hs]. rewrite (IH Hs), orb_false_r.
  ascii_cases c; try discriminate Hc; reflexivity.
Qed.

Lemma all_digits_zeros (k : nat) : all_digits (string_of_list_ascii (repeat "0"%char k)) = true.
Proof. induction k as [|k IH]; cbn; [reflexivity|exact IH]. Qed.

Lemma digits_leading_zero (t : string) :
  t <> EmptyString -> all_digits t = true ->
  JS.digits 10 (String "0" t) None = JS.digits 10 t None.
Proof.
  intros Hne Ht. destruct t as [|c r]; [contradiction|].
  cbn [all_digits] in Ht. apply andb_true_iff in Ht as [Hc _].
  destruct (digit_val_decimal c Hc) as [E _].
  change (JS.digits 10 (String "0" (String c r)) None)
    with (JS.digits 10 (String c r) (Some (10 * 0 + 0))).
  cbn [JS.digits]. rewrite E. reflexivity.
Qed.

Lemma digits_zeros (k : nat) (s : string) :
  s <> EmptyString -> all_digits s = true ->
  JS.digits 10 (string_of_list_ascii (repeat "0"%char k) ++ s) None = JS.digits 10 s None.
Proof.
  intros Hne Hs. induction k as [|k IH]; [reflexivity|].
  cbn [repeat string_of_list_ascii append]. rewrite <- IH.
  apply digits_leading_zero.
  - destruct (string_of_list_ascii (repeat "0"%char k)); [assumption|discriminate].
  - now rewrite all_digits_app, all_digits_zeros.
Qed.

(** Padding a number with zeros does not change what is read back. *)
Lemma parseInt_padded (n : Z) (width : nat) :
  0 <= n -> JS.parseInt (JS.padStart (JS.number_toString n) width "0") = Some n.
Proof.
  intros H. destruct (number_toString_nonneg n H) as [Hd Hv].
  assert (Hne : JS.number_toString n <> EmptyString).
  { unfold JS.number_toString. destruct (Z.ltb_spec n 0); [lia|].
    apply to_digits_nonempty. lia. }
  unfold JS.padStart. rewrite parseInt_all_digits.
  - now rewrite digits_zeros.
  - destruct (string_of_list_ascii _); [|discriminate].
    cbn [append]. assumption.
  - now rewrite all_digits_app, all_digits_zeros.
Qed.

Lemma padded_all_digits (n : Z) (width : nat) :
  0 <= n -> all_digits (JS.padStart (JS.number_toString n) width "0") = true.
Proof.
  intros H. unfold JS.padStart. rewrite all_digits_app, all_digits_zeros.
  apply (number_toString_nonneg n H).
Qed.

Lemma padded_two (n : Z) :
  0 <= n < 100 -> String.length (JS.padStart (JS.number_toString n) 2 "0") = 2%nat.
Proof.
  intros H. destruct (Z.lt_ge_cases n 10).
  - now rewrite number_toString_one_digit by lia.
  - now rewrite number_toString_two_digits by lia.
Qed.

Lemma string_length_app (s t : string) :
  String.length (s ++ t) = (String.length s + String.length t)%nat.
Proof. induction s as [|c s IH]; cbn; [reflexivity|now rewrite IH]. Qed.

(** X14.  For a connection time of [s] seconds, [formatTime] writes the
    minutes, a colon and the seconds, the seconds always on two digits: read
    back, the two numbers are [s / 60] and [s mod 60]; below 100 minutes the
    text has the five characters of [MM:SS]. *)
Theorem connection_time_reads_back (s : Z) :
  0 <= s ->
  exists mm ss : string,
    JS.split ":" (formatTime s) = [mm; ss] /\
    JS.parseInt mm = Some (s / 60) /\ JS.parseInt ss = Some (s mod 60) /\
    String.length ss = 2%nat /\
    (s < 6000 -> String.length (formatTime s) = 5%nat).
Proof.
  intros H. unfold formatTime, JS.Math_floor, JS.rem.
  rewrite <- Zdiv_Qdiv, Z.rem_mod_nonneg by lia.
  pose proof (Z.mod_pos_bound s 60 ltac:(lia)) as Hr.
  assert (Hm : 0 <= s / 60) by (apply Z.div_pos; lia).
  set (mm := JS.padStart (JS.number_toString (s / 60)) 2 "0").
  set (ss := JS.padStart (JS.number_toString (s mod 60)) 2 "0").
  exists mm, ss. split; [|split; [|split; [|split]]].
  - change (mm ++ ":" ++ ss)%string with (mm ++ String ":" ss)%string.
    rewrite split_at_sep by (apply digits_not_colon, padded_all_digits; lia).
    rewrite split_no_sep by (apply digits_not_colon, padded_all_digits; lia). reflexivity.
  - now apply parseInt_padded.
  - apply parseInt_padded. lia.
  - apply padded_two. lia.
  - intros Hs. rewrite string_length_app. cbn [append String.length].
    subst mm ss. rewrite !padded_two; [reflexivity|lia|].
    split; [lia|]. apply Z.div_lt_upper_bound; lia.
Qed.

Lemma connection_time_reads_back_witness :
  exists mm ss : string,
    JS.split ":" (formatTime 754) = [mm; ss] /\
    JS.parseInt mm = Some (754 / 60) /\ JS.parseInt ss = Some (754 mod 60) /\
    String.length ss = 2%nat /\
    (754 < 6000 -> String.length (formatTime 754) = 5%nat).
Proof. apply (connection_time_reads_back 754). lia. Defined.

(** ** The ZIP preview *)

Lemma sort_insert_file (x : ZipLine) (ds fs : list ZipLine) :
  zl_dir x = false -> Forall (fun d => zl_dir d = true) ds ->
  Forall (fun f => zl_dir f = false) fs ->
  JS.sort_insert dirs_first x (ds ++ fs) = ds ++ x :: fs.
Proof.
  intros Hx Hds Hfs. induction Hds as [|d ds Hd _ IH]; cbn [app JS.sort_insert].
  - destruct Hfs as [|f fs Hf _]; [reflexivity|].
    cbn [JS.sort_insert]. unfold dirs_first. now rewrite Hx, Hf.
  - unfold dirs_first at 1. rewrite Hx, Hd. cbn. now rewrite IH.
Qed.

Lemma sort_insert_dir (x : ZipLine) (l : list ZipLine) :
  zl_dir x = true -> JS.sort_insert dirs_first x l = x :: l.
Proof.
  intros Hx. destruct l as [|y l]; [reflexivity|].
  cbn [JS.sort_insert]. unfold dirs_first. rewrite Hx. now destruct (zl_dir y).
Qed.

Lemma sort_dirs_first (l : list ZipLine) :
  JS.sort dirs_first l = filter zl_dir l ++ filter (fun x => negb (zl_dir x)) l.
Proof.
  induction l as [|x l IH]; [reflexivity|].
  unfold JS.sort in *. cbn [fold_right filter]. rewrite IH.
  destruct (zl_dir x) eqn:Hx; cbn [negb].
  - now apply sort_insert_dir.
  - apply sort_insert_file; [assumption| |]; apply Forall_forall; intros y Hy;
      apply filter_In in Hy as [_ Hy]; [assumption|now destruct (zl_dir y)].
Qed.

Lemma split_ends_with (sep : ascii) (pre post : string) :
  has_char sep post = false ->
  exists (p : string) (l : list string),
    JS.split sep (pre ++ String sep post) = p :: l ++ [post].
Proof.
  intros Hpost. induction pre as [|c pre (p & l & IH)]; cbn [append JS.split].
  - rewrite Ascii.eqb_refl, split_no_sep by assumption. now exists EmptyString, [].
  - rewrite IH. destruct (Ascii.eqb c sep).
    + now exists EmptyString, (p :: l).
    + now exists (String c p), l.
Qed.

Lemma entry_label_last_segment (folders base : string) :
  has_char "/" base = false -> base <> EmptyString ->
  entry_label (folders ++ String "/" base) = base.
Proof.
  intros Hb Hne. unfold entry_label.
  destruct (split_ends_with "/" folders base Hb) as (p & l & ->).
  change (p :: l ++ [base]) with ((p :: l) ++ [base]).
  rewrite filter_app, map_app. cbn [filter].
  destruct (String.eqb_spec base EmptyString); [contradiction|].
  cbn [negb map]. rewrite last_last. now destruct base.
Qed.

Lemma entry_label_plain (name : string) :
  has_char "/" name = false -> entry_label name = name.
Proof.
  intros H. unfold entry_label. rewrite split_no_sep by assumption. cbn [filter].
  destruct (String.eqb_spec name EmptyString) as [->|]; [reflexivity|].
  cbn. now destruct name.
Qed.

Lemma split_trailing_sep (sep : ascii) (s : string) :
  JS.split sep (s ++ String sep EmptyString) = JS.split sep s ++ [EmptyString].
Proof.
  induction s as [|c s IH]; cbn [append JS.split].
  - now rewrite Ascii.eqb_refl.
  - rewrite IH. destruct (Ascii.eqb c sep); [reflexivity|].
    pose proof (split_nonempty sep s) as Hne.
    destruct (JS.split sep s); [contradiction|reflexivity].
Qed.

(** The name of a directory entry ends with a slash, which does not count
    as a segment. *)
Lemma entry_label_directory (folders base : string) :
  has_char "/" base = false -> base <> EmptyString ->
  entry_label (folders ++ String "/" (base ++ "/")) = base /\
  entry_label (base ++ "/") = base.
Proof.
  intros Hb Hne.
  assert (Hkeep : negb (String.eqb base EmptyString) = true).
  { destruct (String.eqb_spec base EmptyString); [contradiction|reflexivity]. }
  split; unfold entry_label.
  - replace (folders ++ String "/" (base ++ "/"))%string
      with ((folders ++ String "/" base) ++ "/")%string
      by (rewrite string_app_assoc; reflexivity).
    rewrite split_trailing_sep.
    destruct (split_ends_with "/" folders base Hb) as (p & l & ->).
    change (p :: l ++ [base]) with ((p :: l) ++ [base]).
    rewrite !filter_app. cbn [filter]. rewrite Hkeep. cbn [String.eqb negb].
    rewrite app_nil_r, map_app. cbn [map]. rewrite last_last. now destruct base.
  - rewrite split_trailing_sep, split_no_sep by assumption.
    cbn [app filter]. rewrite Hkeep. cbn. now destruct base.
Qed.

(** X15.  The ZIP preview lists the directories of the archive first and
    the files after them, each group in the order of the archive; a line is
    named by the last segment of the entry's name, a slash that ends the
    name of a directory entry apart, and by the whole name when it has no
    slash. *)
Theorem zip_preview_lists_folders_first (entries : list (string * ZipEntry)) :
  let lines := map (fun pe => zip_line (fst pe) (snd pe)) entries in
  zip_contents entries = filter zl_dir lines ++ filter (fun x => negb (zl_dir x)) lines /\
  (forall (path : string) (e : ZipEntry) (folders base : string),
      In (path, e) entries -> ze_name e = (folders ++ String "/" base)%string ->
      has_char "/" base = false -> base <> EmptyString ->
      In {| zl_name := base; zl_path := path; zl_dir := ze_dir e;
            zl_size := JS.num_or (ze_size e) 0 |} (zip_contents entries)) /\
  (forall (path : string) (e : ZipEntry),
      In (path, e) entries -> has_char "/" (ze_name e) = false ->
      In {| zl_name := ze_name e; zl_path := path; zl_dir := ze_dir e;
            zl_size := JS.num_or (ze_size e) 0 |} (zip_contents entries)) /\
  (forall (path : string) (e : ZipEntry) (folders base : string),
      In (path, e) entries ->
      ze_name e = (folders ++ String "/" (base ++ "/"))%string \/
      ze_name e = (base ++ "/")%string ->
      has_char "/" base = false -> base <> EmptyString ->
      In {| zl_name := base; zl_path := path; zl_dir := ze_dir e;
            zl_size := JS.num_or (ze_size e) 0 |} (zip_contents entries)).
Proof.
  intros lines.
  assert (E : zip_contents entries =
              filter zl_dir lines ++ filter (fun x => negb (zl_dir x)) lines)
    by apply sort_dirs_first.
  assert (Hin : forall x, In x lines -> In x (zip_contents entries)).
  { intros x Hx. rewrite E. apply in_or_app.
    destruct (zl_dir x) eqn:Hd; [left|right]; apply filter_In; split; try assumption.
    now rewrite Hd. }
  split; [exact E|]. split.
  - intros path e folders base He Hn Hb Hne. apply Hin.
    apply in_map_iff. exists (path, e). split; [|assumption].
    unfold zip_line. cbn [fst snd]. now rewrite Hn, entry_label_last_segment.
  - split.
    + intros path e He Hn. apply Hin.
      apply in_map_iff. exists (path, e). split; [|assumption].
      unfold zip_line. cbn [fst snd]. now rewrite entry_label_plain.
    + intros path e folders base He Hn Hb Hne. apply Hin.
      apply in_map_iff. exists (path, e). split; [|assumption].
      unfold zip_line. cbn [fst snd].
      destruct (entry_label_directory folders base Hb Hne) as [E1 E2].
      destruct Hn as [-> | ->]; now rewrite ?E1, ?E2.
Qed.

Lemma Entry_nested_ind (P : Entry -> Prop) :
  (forall f, P (entry_file f)) -> P entry_other ->
  (forall name batches, Forall (Forall P) batches -> P (entry_dir name batches)) ->
  forall e, P e.
Proof.
  intros P_file P_other P_dir. fix IH 1. intros [f|name batches|].
  - apply P_file.
  - apply P_dir. induction batches as [|b bs IHbs]; constructor; [|exact IHbs].
    induction b as [|x b IHb]; constructor; [apply IH|exact IHb].
  - apply P_other.
Qed.

(** [p] starts with [pre]. *)
Lemma prefix_app (pre s : string) : String.prefix pre (pre ++ s) = true.
Proof.
  induction pre as [|c pre IH]; cbn [append String.prefix]; [now destruct s|].
  destruct (ascii_dec c c); [exact IH|contradiction].
Qed.

Lemma prefix_trans_app (pre mid p : string) :
  String.prefix (pre ++ mid) p = true -> String.prefix pre p = true.
Proof.
  revert p. induction pre as [|c pre IH]; intros p.
  - now destruct p.
  - destruct p as [|c' p]; [discriminate|]. cbn [append String.prefix].
    destruct (ascii_dec c c'); [apply IH|discriminate].
Qed.

Lemma includes_app_r (c : ascii) (s t : string) :
  JS.includes c t = true -> JS.includes c (s ++ t) = true.
Proof.
  intros H. induction s as [|x s IH]; cbn [append JS.includes]; [assumption|].
  rewrite IH. apply orb_true_r.
Qed.

Lemma includes_prefix (c : ascii) (pre p : string) :
  String.prefix pre p = true -> JS.includes c pre = true -> JS.includes c p = true.
Proof.
  revert p. induction pre as [|x pre IH]; intros p Hp Hc; [discriminate|].
  destruct p as [|y p]; [discriminate|]. cbn [String.prefix] in Hp.
  destruct (ascii_dec x y) as [<-|]; [|discriminate]. cbn [JS.includes] in *.
  apply orb_true_iff in Hc as [Hc|Hc]; [now rewrite Hc|].
  rewrite (IH p Hp Hc). apply orb_true_r.
Qed.

(** Every file found below a directory carries a path that starts with the
    path of that directory. *)
Lemma scanEntry_paths (e : Entry) :
  forall path : string,
    Forall (fun f => exists p, pk_customPath f = Some p /\ String.prefix path p = true)
      (scanEntry e path).
Proof.
  induction e as [f| |name batches IH] using Entry_nested_ind; intros path; cbn [scanEntry].
  - repeat constructor. eexists. split; [reflexivity|]. apply prefix_app.
  - constructor.
  - induction IH as [|b bs Hb _ IHbs]; [constructor|].
    destruct b as [|x b]; [constructor|].
    apply Forall_app. split; [|exact IHbs].
    apply Forall_flat_map. apply Forall_forall. intros c Hc.
    rewrite Forall_forall in Hb. specialize (Hb c Hc (path ++ name ++ "/")%string).
    eapply Forall_impl; [|exact Hb].
    intros f (p & Hp & Hpre). exists p. split; [assumption|].
    now apply prefix_trans_app in Hpre.
Qed.

Lemma prefix_nonempty_slash (name p : string) :
  String.prefix (name ++ "/") p = true -> JS.includes "/" p = true /\ p <> EmptyString.
Proof.
  intros H. split.
  - apply (includes_prefix "/" (name ++ "/") p H). now apply includes_app_r.
  - intros ->. destruct name; discriminate H.
Qed.

Lemma zip_path_custom (f : Picked) (p : string) :
  pk_customPath f = Some p -> p <> EmptyString -> zip_path f = p.
Proof. unfold zip_path. intros -> H. now destruct p. Qed.

(** X16.  Dropping a folder never shares a file as it is.  With no file
    below the folder nothing changes; with at least one, also with exactly
    one, what is shared is a bundle named [mephisto-bundle-<seconds>.zip] of
    type [application/zip], made of every file found below the folder, each
    under a path that starts with the name of the folder and a slash. *)
Theorem dropped_folder_is_bundled (generateAsync : list (string * File) -> bytes)
    (now : Z) (name : string) (batches : list (list Entry)) (a : App) :
  let files := scanEntry (entry_dir name batches) EmptyString in
  let shared := handleDrop generateAsync now [item_entry (entry_dir name batches)] a in
  (files = [] -> shared = a) /\
  (files <> [] ->
     let entries := map (fun f => (zip_path f, pk_file f)) files in
     shared =
       a |> set_fileToShareRef
              (Some {| file_name :=
                         ("mephisto-bundle-" ++ JS.number_toString (now / 1000) ++ ".zip")%string;
                       file_type := "application/zip";
                       file_bytes := generateAsync entries |}) /\
     Forall (fun pe => String.prefix (name ++ "/") (fst pe) = true) entries).
Proof.
  intros files shared.
  assert (Es : shared = processFiles generateAsync now files a).
  { subst shared files. unfold handleDrop, dropped_files. cbn [flat_map].
    now rewrite app_nil_r. }
  pose proof (scanEntry_paths (entry_dir name batches) EmptyString) as Hp. fold files in Hp.
  assert (Hq : Forall (fun f => exists p, pk_customPath f = Some p /\
                                 String.prefix (name ++ "/") p = true) files).
  { subst files. cbn [scanEntry] in *. clear Es shared Hp.
    induction batches as [|b bs IH]; [constructor|].
    destruct b as [|x b]; [constructor|].
    apply Forall_app. split; [|exact IH].
    apply Forall_flat_map, Forall_forall. intros c _.
    apply (scanEntry_paths c ("" ++ name ++ "/")). }
  rewrite Es. clear Es shared Hp. split.
  - now intros ->.
  - intros Hne entries. destruct files as [|f files'] eqn:Ef; [contradiction|].
    assert (Hz : needsZip (f :: files') = true).
    { unfold needsZip. apply orb_true_iff. right. cbn [existsb].
      inversion_clear Hq as [|? ? (p & Hp & Hpre) _].
      unfold in_a_folder. rewrite Hp.
      now rewrite (proj1 (prefix_nonempty_slash name p Hpre)). }
    split.
    + unfold processFiles. rewrite Hz. cbn [negb]. unfold JS.Math_floor.
      now rewrite <- Zdiv_Qdiv.
    + subst entries. apply Forall_map. eapply Forall_impl; [|exact Hq].
      intros x (p & Hp & Hpre). cbn [fst].
      rewrite (zip_path_custom x p Hp); [assumption|].
      apply (prefix_nonempty_slash name p Hpre).
Qed.


(** ** The countdown of a sender *)

Lemma room_effects_app (prev cur : Room) :
  room_app (room_effects prev cur) = effects (room_app prev) (room_app cur).
Proof.
  unfold room_effects, effects, mode_cleanup. cbn [room_app].
  now destruct (mode_changed _ _).
Qed.

Lemma room_commit_app (prev cur : Room) :
  room_app (room_commit prev cur) = commit (room_app prev) (room_app cur).
Proof. unfold room_commit, commit. now rewrite !room_effects_app. Qed.

Lemma room_effects_same_mode (prev cur : Room) :
  mode (room_app prev) = mode (room_app cur) ->
  multiConnsRef (room_effects prev cur) = multiConnsRef cur /\
  peerCount (room_effects prev cur) = peerCount cur.
Proof.
  intros H. unfold room_effects, mode_changed. rewrite H, mode_eqb_refl. now split.
Qed.

Lemma room_effects_room (prev cur : Room) :
  multiConnsRef (room_effects prev cur) =
    (if mode_changed (room_app prev) (room_app cur) then [] else multiConnsRef cur) /\
  peerCount (room_effects prev cur) =
    (if mode_changed (room_app prev) (room_app cur) then 0 else peerCount cur).
Proof. unfold room_effects. now destruct (mode_changed _ _). Qed.

Lemma room_commit_same_mode (prev cur : Room) :
  mode (room_app prev) = mode (room_app cur) ->
  multiConnsRef (room_commit prev cur) = multiConnsRef cur /\
  peerCount (room_commit prev cur) = peerCount cur.
Proof.
  intros H. unfold room_commit.
  destruct (room_effects_same_mode prev cur H) as [E1 E2].
  destruct (room_effects_same_mode cur (room_effects prev cur)) as [E3 E4].
  { now rewrite room_effects_app, effects_mode. }
  now rewrite E3, E4.
Qed.

(** A render whose state no longer asks for the countdown cancels the
    interval that runs. *)
Lemma commit_disarms (prev cur : App) (id : nat) (p : Z) :
  mode prev = mode cur -> self_destruct_deps_changed prev cur = true ->
  (100 <=? transferProgress cur) && isConnected cur = false ->
  intervals cur = [(id, p)] -> selfDestructRef cur = Some id ->
  commit prev cur = set_intervals [] cur.
Proof.
  intros Hm Hd Hc Hi Hr.
  assert (E1 : effects prev cur = set_intervals [] cur).
  { unfold effects, mode_changed. rewrite Hm, mode_eqb_refl, Hd. cbn [negb].
    unfold self_destruct_effect. rewrite Hc.
    unfold self_destruct_cleanup, clearInterval. rewrite Hr, Hi.
    cbn [filter fst]. now rewrite Nat.eqb_refl. }
  unfold commit. rewrite E1. apply effects_same_deps; now destruct cur.
Qed.

Lemma sendChunk_sized_keeps (chunk_size : Z) (shareCode : string) (o : Z) (conn : nat)
    (a : App) :
  let a' := fst (sendChunk_sized chunk_size shareCode o (Some conn) a) in
  mode a' = mode a /\ isConnected a' = isConnected a /\ intervals a' = intervals a /\
  selfDestructRef a' = selfDestructRef a /\ selfDestructSec a' = selfDestructSec a /\
  fileToShareRef a' = fileToShareRef a /\ next_interval a' = next_interval a.
Proof.
  unfold sendChunk_sized. cbv zeta.
  destruct (fileToShareRef a) eqn:E; cbn [fst]; [destruct a; cbn in *|]; repeat split;
    assumption.
Qed.

Lemma sendChunk_sized_progress (chunk_size : Z) (shareCode : string) (o : Z) (conn : nat)
    (a : App) (file : File) :
  fileToShareRef a = Some file ->
  transferProgress (fst (sendChunk_sized chunk_size shareCode o (Some conn) a)) =
    if Z.min (o + chunk_size) (file_size file) =? file_size file then 100
    else Z.min 99 (percent (Z.min (o + chunk_size) (file_size file)) (file_size file)).
Proof. intros H. unfold sendChunk_sized. rewrite H. now destruct a. Qed.

(** X17.  On the sender, the chunk that ends at the end of the file puts the
    progress at 100 and starts a self-destruct countdown of its own; while
    it runs, a request of any receiver for a chunk that is not the last one
    lowers the progress again and cancels it, the file staying shared and
    the room as it was; and the firing that finds one second left resets
    the room: idle, no connection held, badge at 0, nothing shared. *)
Theorem sender_countdown (chunk_size : Z) (shareCode : string) (conn : nat) (file : File)
    (r : Room) (o : Z) :
  fileToShareRef (room_app r) = Some file -> isConnected (room_app r) = true ->
  let r1 := fst (room_step chunk_size shareCode (room_conn_data conn (request_chunk o)) r) in
  (* the last chunk starts the countdown *)
  (file_size file <= o + chunk_size -> transferProgress (room_app r) < 100 ->
   intervals (room_app r) = [] ->
   transferProgress (room_app r1) = 100 /\ selfDestructSec (room_app r1) = SELF_DESTRUCT_SEC /\
   intervals (room_app r1) = [(next_interval (room_app r), SELF_DESTRUCT_TICK_MS)] /\
   selfDestructRef (room_app r1) = Some (next_interval (room_app r))) /\
  (* a chunk that is not the last one cancels it *)
  (forall (id : nat) (sec : Z),
      o + chunk_size < file_size file -> transferProgress (room_app r) = 100 ->
      counting_down id sec (room_app r) ->
      transferProgress (room_app r1) < 100 /\ intervals (room_app r1) = [] /\
      selfDestructSec (room_app r1) = sec /\
      fileToShareRef (room_app r1) = Some file /\
      multiConnsRef r1 = multiConnsRef r) /\
  (* the last second resets the room *)
  (forall id : nat,
      counting_down id 1 (room_app r) -> mode (room_app r) = send ->
      let z := fst (room_step chunk_size shareCode (room_self_destruct_tick id) r) in
      torn_down (room_app z) /\ fileToShareRef (room_app z) = None /\
      multiConnsRef z = [] /\ peerCount z = 0).
Proof.
  intros Hf Hc r1.
  assert (E1 : room_app r1 =
               commit (room_app r)
                 (fst (sendChunk_sized chunk_size shareCode o (Some conn) (room_app r)))).
  { subst r1. unfold room_step, room_handle. cbn [sender_on_data].
    destruct (sendChunk_sized _ _ _ _ _) as [a out]. cbn [fst]. now rewrite room_commit_app. }
  pose proof (sendChunk_sized_keeps chunk_size shareCode o conn (room_app r)) as K.
  cbv zeta in K. destruct K as (Km & Kc & Ki & Kr & Ks & Kf & Kn).
  pose proof (sendChunk_sized_progress chunk_size shareCode o conn (room_app r) file Hf) as Kp.
  set (a := fst (sendChunk_sized chunk_size shareCode o (Some conn) (room_app r))) in *.
  split; [|split].
  - intros Hlast Hp Hi.
    rewrite Z.min_r, Z.eqb_refl in Kp by lia.
    rewrite E1, commit_arms; try congruence; try lia.
    rewrite Kn. destruct a; cbn in *. repeat split. assumption.
  - intros id sec Hmore Hp (Hi & Hr & Hs & _).
    rewrite Z.min_l in Kp by lia.
    destruct (Z.eqb_spec (o + chunk_size) (file_size file)); [lia|].
    pose proof (Z.le_min_l 99 (percent (o + chunk_size) (file_size file))) as Hle.
    assert (E2 : room_app r1 = set_intervals [] a).
    { rewrite E1. apply (commit_disarms _ _ id SELF_DESTRUCT_TICK_MS); try congruence.
      - unfold self_destruct_deps_changed. rewrite Hp.
        destruct (Z.eqb_spec 100 (transferProgress a)); [lia|reflexivity].
      - destruct (Z.leb_spec 100 (transferProgress a)); [lia|reflexivity]. }
    rewrite E2. split; [destruct a; cbn in *; lia|].
    split; [now destruct a|]. split; [destruct a; cbn in *; congruence|].
    split; [destruct a; cbn in *; congruence|].
    subst r1. unfold room_step, room_handle. cbn [sender_on_data].
    destruct (sendChunk_sized _ _ _ _ _) as [a' out] eqn:Ea. cbn [fst].
    match goal with |- multiConnsRef (room_commit r ?c) = _ =>
      destruct (room_commit_same_mode r c) as [E _]; [|exact E] end.
    cbn [room_app]. subst a. cbn [fst] in Km. congruence.
  - intros id Hcd Hmode z. pose proof Hcd as (Hi & Hr & Hs & Hp).
    subst z. unfold room_step, room_handle.
    rewrite Hi, interval_scheduled, Hs. change (1 <=? 1) with true. cbn [fst].
    set (c := {| room_app := _; multiConnsRef := _; peerCount := _ |}).
    assert (Ht : torn_down (room_app c)).
    { subst c. cbn [room_app room_reset]. apply (teardown_torn_down _ id). now rewrite Hs. }
    assert (Hcm : mode_changed (room_app r) (room_app c) = true).
    { unfold mode_changed. rewrite Hmode. replace (mode (room_app c)) with idle; [reflexivity|].
      symmetry. apply Ht. }
    split; [|split; [|split]].
    + rewrite room_commit_app. unfold commit. now do 2 apply effects_torn_down.
    + rewrite room_commit_app. unfold commit.
      assert (V : forall x y, session_view x = session_view y ->
                              fileToShareRef x = fileToShareRef y).
      { unfold session_view. intros x y E. now injection E. }
      rewrite (V _ _ (effects_same_mode _ _ (eq_sym (effects_mode _ _)))).
      unfold effects. rewrite Hcm.
      set (m := mode_cleanup (room_app c)).
      assert (Hm : fileToShareRef m = None) by (subst m; unfold mode_cleanup; now destruct (resetConnection _)).
      destruct (self_destruct_deps_changed _ _); [|assumption].
      rewrite <- Hm. apply V.
      destruct (self_destruct_timer_keeps (room_app c) (self_destruct_cleanup m)) as [_ ->].
      apply self_destruct_timer_keeps. exact m.
    + unfold room_commit.
      rewrite (proj1 (room_effects_room _ _)), (proj1 (room_effects_room r c)), Hcm.
      now destruct (mode_changed (room_app c) _).
    + unfold room_commit.
      rewrite (proj2 (room_effects_room _ _)), (proj2 (room_effects_room r c)), Hcm.
      now destruct (mode_changed (room_app c) _).
Qed.

Lemma sender_countdown_witness :
  let r := room_steps CHUNK_SIZE demo_code [room_connection 1; room_conn_open 1]
             (initSender demo_code
                {| room_app := demo_sender [1; 2; 3]; multiConnsRef := []; peerCount := 0 |}) in
  let r1 := fst (room_step CHUNK_SIZE demo_code (room_conn_data 1 (request_chunk 0)) r) in
  transferProgress (room_app r1) = 100 /\ selfDestructSec (room_app r1) = SELF_DESTRUCT_SEC.
Proof.
  cbv zeta.
  set (r := room_steps CHUNK_SIZE demo_code _ _).
  destruct (sender_countdown CHUNK_SIZE demo_code 1 (demo_file [1; 2; 3]) r 0 eq_refl eq_refl)
    as [H _].
  destruct H as (H1 & H2 & _).
  - vm_compute. discriminate.
  - vm_compute. reflexivity.
  - reflexivity.
  - split; assumption.
Defined.

(** ** Requests outside the file *)

(** X18.  Whatever offset a chunk request carries, also a negative one or
    one beyond the end of the file, the sender answers with one chunk on
    the requesting connection whose payload is a run of consecutive bytes of
    the file, scrambled, of at most the chunk size; it starts at the offset
    when the offset lies in the file, and it is empty when the offset is at
    or beyond the end. *)
Theorem chunk_reply_stays_in_the_file (chunk_size : Z) (shareCode : string) (conn : nat)
    (a : App) (file : File) (o : Z) :
  0 <= chunk_size -> fileToShareRef a = Some file ->
  exists start len : nat,
    snd (sender_on_data chunk_size shareCode conn (request_chunk o) a) =
      [(conn, chunk (Some (scramble (deriveKey shareCode)
                             (firstn len (skipn start (file_bytes file))))) o)] /\
    (start + len <= List.length (file_bytes file))%nat /\
    Z.of_nat len <= chunk_size /\
    (0 <= o <= file_size file -> Z.of_nat start = o) /\
    (file_size file <= o -> len = 0%nat).
Proof.
  intros Hc Hf. cbn [sender_on_data]. unfold sendChunk_sized. rewrite Hf. cbn [snd].
  unfold JS.blob_slice, file_size.
  set (sz := Z.of_nat (List.length (file_bytes file))).
  set (end_ := Z.min (o + chunk_size) sz).
  set (s := if o <? 0 then Z.max (sz + o) 0 else Z.min o sz).
  set (e := if end_ <? 0 then Z.max (sz + end_) 0 else Z.min end_ sz).
  exists (Z.to_nat s), (Z.to_nat (Z.max (e - s) 0)).
  split; [reflexivity|].
  assert (Hsz : 0 <= sz) by (subst sz; lia).
  subst s e end_.
  destruct (Z.ltb_spec o 0), (Z.ltb_spec (Z.min (o + chunk_size) sz) 0); repeat split; lia.
Qed.

Lemma chunk_reply_stays_in_the_file_witness :
  exists start len : nat,
    snd (sender_on_data CHUNK_SIZE demo_code 3 (request_chunk (-2))
           (demo_sender [10; 20; 30; 40; 50])) =
      [(3%nat, chunk (Some (scramble (deriveKey demo_code)
                              (firstn len (skipn start
                                 (file_bytes (demo_file [10; 20; 30; 40; 50])))))) (-2))] /\
    (start + len <= 5)%nat /\
    Z.of_nat len <= CHUNK_SIZE /\
    (0 <= -2 <= file_size (demo_file [10; 20; 30; 40; 50]) -> Z.of_nat start = -2) /\
    (file_size (demo_file [10; 20; 30; 40; 50]) <= -2 -> len = 0%nat).
Proof.
  apply (chunk_reply_stays_in_the_file CHUNK_SIZE demo_code 3
           (demo_sender [10; 20; 30; 40; 50]) (demo_file [10; 20; 30; 40; 50]) (-2)).
  - vm_compute. discriminate.
  - reflexivity.
Defined.

(** ** A whole transfer on the other two paths *)

Lemma device_on_data_as_form (cap : Captured) (m : Msg) (a : App) :
  is_empty_chunk m = false ->
  device_on_data (cap_receiveCode cap) m a = receiver_on_data cap m a.
Proof. intros H. destruct m as [| | |[[|b buf]|] o| |]; try discriminate H; reflexivity. Qed.

Section SideTransferProofs.

Variable on_data : Msg -> App -> App * list Msg.
Variable chunk_size : Z.
Variable shareCode : string.
Variable cap : Captured.
Variable conn : nat.
Variable file : File.
Variable r0 : App.
Variable d : nat.

Hypothesis on_data_device :
  forall (m : Msg) (a : App),
    is_missing_buffer m = false -> on_data m a = device_on_data (cap_receiveCode cap) m a.
Hypothesis chunk_size_pos : 0 < chunk_size.
Hypothesis same_key : deriveKey (cap_receiveCode cap) = deriveKey shareCode.
Hypothesis file_is_bytes : Forall is_byte (file_bytes file).
Hypothesis receiver_fresh : fileMetaRef r0 = None.

Local Abbreviation size := (file_size file).
Local Abbreviation n := (chunks chunk_size file).
Local Abbreviation in_phase := (Phase chunk_size shareCode file r0 d).
Local Abbreviation side_next := (side_net_step on_data chunk_size shareCode conn).

Lemma side_step_as_form (m : Msg) (a : App) :
  is_empty_chunk m = false -> is_missing_buffer m = false ->
  side_step on_data m a = step cap (conn_data m) a.
Proof.
  intros He Hm. unfold side_step, step, handle.
  now rewrite on_data_device, device_on_data_as_form.
Qed.

Lemma head_of_repeat (x y : Msg) (j : nat) (tail rest : list Msg) :
  repeat x (S j) ++ tail = y :: rest -> y = x.
Proof. cbn. now intros [= <- _]. Qed.

Lemma chunk_msg_not_empty (k : nat) :
  0 < size -> (k < n)%nat ->
  is_empty_chunk (chunk_msg chunk_size shareCode file k) = false.
Proof.
  intros Hs Hk. apply (chunks_more chunk_size file chunk_size_pos k Hs) in Hk.
  pose proof (offset_of_nonneg chunk_size chunk_size_pos k) as H0.
  unfold chunk_msg.
  pose proof (byte_range_length (file_bytes file) (offset_of chunk_size k)
                (Z.min (offset_of chunk_size k + chunk_size) size)
                ltac:(lia) ltac:(unfold file_size in *; lia)) as Hl.
  destruct (byte_range _ _ _) as [|x l]; [cbn in Hl; lia|reflexivity].
Qed.

(** Before the last delivery of an empty file, what the receiver is handed
    is never an empty chunk. *)
Lemma phase_head (m : nat) (net : Net) (x : Msg) (rest : list Msg) :
  in_phase m net -> 0 < size \/ (2 <= m)%nat -> to_receiver net = x :: rest ->
  is_empty_chunk x = false /\ is_missing_buffer x = false.
Proof.
  intros H Hm Hx.
  pose proof (chunk_count_pos chunk_size size) as Hn.
  destruct H as [i j net _ _ _ _ _ Htr|h i j net _ _ _ _ _ Htr
                 |h j k net _ _ Hjk Hk _ _ _ Htr| | |]; rewrite Hx in *;
    try discriminate.
  - destruct j as [|j]; [discriminate|].
    rewrite <- (app_nil_r (repeat _ _)) in Htr.
    symmetry in Htr. apply head_of_repeat in Htr. now subst x.
  - destruct j as [|j]; [discriminate|].
    rewrite <- (app_nil_r (repeat _ _)) in Htr.
    symmetry in Htr. apply head_of_repeat in Htr. now subst x.
  - destruct j as [|j].
    + cbn in Htr. injection Htr as -> _. split; [|reflexivity].
      destruct Hm as [Hs|Hm]; [now apply chunk_msg_not_empty|].
      destruct (Z_lt_le_dec 0 size) as [Hs|Hs]; [now apply chunk_msg_not_empty|].
      exfalso. assert (Hz : size = 0) by (unfold file_size in *; lia).
      unfold chunks in *. rewrite Hz, chunk_count_empty in * by assumption. lia.
    + symmetry in Htr. apply head_of_repeat in Htr. now subst x.
Qed.

Lemma side_net_step_as_form (b : bool) (m : nat) (net : Net) :
  in_phase m net -> 0 < size \/ (2 <= m)%nat ->
  side_next b net = net_step chunk_size shareCode cap conn b net.
Proof.
  intros H Hm.
  assert (E : side_deliver_to_receiver on_data net = deliver_to_receiver cap net).
  { unfold side_deliver_to_receiver, deliver_to_receiver.
    destruct (to_receiver net) as [|x rest] eqn:Hx; [reflexivity|].
    destruct (phase_head m net x rest H Hm Hx) as [He Hb].
    now rewrite side_step_as_form. }
  unfold side_net_step, net_step. now rewrite E.
Qed.

Lemma side_stops (b : bool) (net : Net) :
  to_sender net = [] -> to_receiver net = [] -> side_next b net = None.
Proof.
  intros Hs Hr. unfold side_net_step, side_deliver_to_receiver, deliver_to_sender.
  rewrite Hs, Hr. now destruct b.
Qed.

Lemma side_run_stopped (sched : list bool) (net : Net) :
  to_sender net = [] -> to_receiver net = [] ->
  side_run on_data chunk_size shareCode conn sched net = net.
Proof.
  intros Hs Hr. destruct sched as [|b sched]; [reflexivity|].
  cbn [side_run]. now rewrite side_stops.
Qed.

(** The empty chunk of an empty file completes the transfer. *)
Lemma side_last_step (b : bool) (net : Net) :
  in_phase 1 net -> size = 0 ->
  exists net' : Net,
    side_next b net = Some net' /\
    to_sender net' = [] /\ to_receiver net' = [] /\
    completed chunk_size file r0 (receiver_app net').
Proof.
  intros H Hz.
  remember 1%nat as one eqn:Hone.
  assert (Hn : n = 1%nat) by (unfold chunks; rewrite Hz; now apply chunk_count_empty).
  assert (Hdata : file_bytes file = []).
  { apply length_zero_iff_nil. unfold file_size in Hz. lia. }
  destruct H as [i j net _ _ _ _ _ _|h i j net _ _ _ _ _ _
                 |h j k net _ _ Hjk Hk _ Hw Hts Htr| k net _ Hk1 Hk| |];
    try (exfalso; lia).
  assert (k = 0%nat) by lia. assert (j = 0%nat) by lia. subst k j.
  cbn [repeat app] in Htr.
  assert (Hmsg : chunk_msg chunk_size shareCode file 0 = chunk (Some []) 0).
  { unfold chunk_msg, offset_of, byte_range. rewrite Hdata. cbn [Z.of_nat Z.mul].
    now rewrite skipn_nil, firstn_nil. }
  rewrite Hmsg in Htr.
  destruct Hw as (Hm & Hm' & Hc & Hl & Hb & Hp & Hcf & He).
  apply length_zero_iff_nil in Hl.
  assert (Hstep : exists r', side_step on_data (chunk (Some []) 0) (receiver_app net) = (r', [])
                             /\ completed chunk_size file r0 r').
  { unfold side_step. rewrite on_data_device by reflexivity.
    destruct (receiver_app net) as [md ic es tp fm cf cm sd st pr cr fs fr rc rb sr co hi iv ni].
    cbn in Hm, Hm', Hc, Hl, Hb, Hp, Hcf, He. subst.
    cbn [device_on_data scramble map List.length Z.of_nat]. app_cbn.
    unfold file_meta at 1. app_cbn. rewrite Hz. cbn [Z.add Z.ltb Z.compare].
    eexists. split; [reflexivity|].
    match goal with |- completed _ _ _ (commit ?a ?c) =>
      apply (completed_view chunk_size file r0 (commit a c) c); [now apply commit_same_mode|] end.
    unfold completed, file_meta. app_cbn. cbn [app concat].
    unfold chunks in Hn. rewrite Hn, Hdata, Hz. repeat split. }
  destruct Hstep as (r' & Es & Hdone).
  assert (Ed : side_deliver_to_receiver on_data net =
               Some {| sender_app := sender_app net; receiver_app := r';
                       to_sender := to_sender net ++ []; to_receiver := [];
                       requested := requested net ++ offsets_of [];
                       shown := shown net ++ [transferProgress r'] |}).
  { unfold side_deliver_to_receiver. now rewrite Htr, Es. }
  eexists. split.
  - unfold side_net_step. rewrite Ed. unfold deliver_to_sender. rewrite Hts.
    destruct b; reflexivity.
  - cbn [to_sender to_receiver receiver_app app].
    split; [reflexivity|]. split; [reflexivity|]. exact Hdone.
Qed.

Lemma side_run_reaches (sched : list bool) :
  forall (m : nat) (net : Net),
    in_phase m net -> 0 < size \/ (1 <= m)%nat -> (m <= List.length sched)%nat ->
    let z := side_run on_data chunk_size shareCode conn sched net in
    to_sender z = [] /\ to_receiver z = [] /\ completed chunk_size file r0 (receiver_app z).
Proof.
  induction sched as [|b sched IH]; intros m net H Hm Hlen; cbv zeta;
    cbn [side_run List.length] in *.
  - assert (m = 0%nat) by lia. subst m. destruct Hm as [Hs|Hm]; [|lia].
    destruct (final_cases chunk_size shareCode file r0 d chunk_size_pos net H)
      as (H1 & H2 & _ & [(_ & H3 & _)|(Hz & _)]); [|lia].
    split; [assumption|]. split; assumption.
  - destruct m as [|m].
    + destruct Hm as [Hs|Hm]; [|lia].
      destruct (final_cases chunk_size shareCode file r0 d chunk_size_pos net H)
        as (H1 & H2 & _ & [(_ & H3 & _)|(Hz & _)]); [|lia].
      rewrite side_stops by assumption. split; [assumption|]. split; assumption.
    + destruct (Z_lt_le_dec 0 size) as [Hs|Hs].
      * rewrite (side_net_step_as_form b (S m) net H (or_introl Hs)).
        destruct (phase_step chunk_size shareCode cap conn file r0 d chunk_size_pos same_key
                    file_is_bytes receiver_fresh b m net H) as (net' & -> & H').
        apply (IH m); [assumption|now left|lia].
      * destruct m as [|m].
        -- assert (Hz : size = 0) by (unfold file_size in *; lia).
           destruct (side_last_step b net H Hz) as (net' & -> & H1 & H2 & H3).
           rewrite side_run_stopped by assumption. split; [assumption|]. split; assumption.
        -- assert (Hm2 : (2 <= S (S m))%nat) by lia.
           rewrite (side_net_step_as_form b (S (S m)) net H (or_intror Hm2)).
           destruct (phase_step chunk_size shareCode cap conn file r0 d chunk_size_pos same_key
                       file_is_bytes receiver_fresh b (S m) net H) as (net' & -> & H').
           apply (IH (S m)); [assumption|right; lia|lia].
Qed.

End SideTransferProofs.

(** X19.  A receiver that connected from the nearby list or from the page
    address, with a plain room code that gives the key of the sender's plain
    code, gets a file of every size, the empty file included: after d >= 1
    handshake requests and 2d + 2 max(1, ceil(S / C)) deliveries in any
    order that keeps each direction first-in first-out, nothing is in
    flight, the chunks received are the bytes of the file, the byte count is
    S, the progress is 100, the completed file holds the bytes under the
    name and type of the file, and no error was set. *)
Theorem other_paths_transfer_every_file :
  forall (on_data : Msg -> App -> App * list Msg) (code : string)
         (chunk_size : Z) (shareCode : string) (conn : nat)
         (file : File) (s r0 : App) (d : nat) (sched : list bool),
    on_data = device_on_data code \/ on_data = autojoin_on_data code ->
    0 < chunk_size ->
    plain_code shareCode = true ->
    plain_code code = true ->
    deriveKey code = deriveKey shareCode ->
    Forall is_byte (file_bytes file) ->
    fileToShareRef s = Some file ->
    fileMetaRef r0 = None ->
    (1 <= d)%nat ->
    (2 * d + 2 * chunk_count chunk_size (file_size file) <= List.length sched)%nat ->
    let net := side_run on_data chunk_size shareCode conn sched (start d s r0) in
    let r := receiver_app net in
    to_sender net = [] /\ to_receiver net = [] /\
    concat (receivedChunksRef r) = file_bytes file /\
    receivedBytesRef r = file_size file /\
    transferProgress r = 100 /\
    completedFile r =
      Some {| cf_blob := {| blob_bytes := file_bytes file;
                            blob_type := JS.str_or (Some (file_type file))
                                           "application/octet-stream" |};
              cf_name := file_name file; cf_type := file_type file |} /\
    errorStatus r = errorStatus r0.
Proof.
  intros on_data code chunk_size shareCode conn file s r0 d sched Hon Hc _ _ Hkey Hbytes Hs Hr Hd
    Hlen net r.
  set (cap := {| cap_receiveCode := code; cap_transferProgress := 0 |}).
  assert (Hdev : forall (m : Msg) (a : App),
             is_missing_buffer m = false ->
             on_data m a = device_on_data (cap_receiveCode cap) m a).
  { intros m a Hm. destruct Hon as [->| ->]; [reflexivity|].
    destruct m as [| | |[buf|] o| |]; try discriminate Hm; reflexivity. }
  assert (Hm1 : 0 < file_size file \/ (1 <= 2 * d + 2 * chunks chunk_size file)%nat)
    by (right; lia).
  pose proof (side_run_reaches on_data chunk_size shareCode cap conn file r0 d Hdev Hc Hkey
                Hbytes Hr sched (2 * d + 2 * chunks chunk_size file) (start d s r0)
                (start_in_phase chunk_size shareCode file r0 d s Hs Hd)
                Hm1 Hlen) as H.
  cbv zeta in H. fold net in H. destruct H as (H1 & H2 & H3).
  destruct H3 as (_ & Hcat & _ & Hb & Hp & Hcf & He).
  repeat split; assumption.
Qed.

Lemma other_paths_transfer_every_file_witness :
  to_receiver (side_run (device_on_data demo_code) 4 demo_code 7
                 [true; false; false; true]
                 (start 1 (demo_sender []) demo_receiver)) = [] /\
  transferProgress
    (receiver_app (side_run (device_on_data demo_code) 4 demo_code 7
                     [true; false; false; true]
                     (start 1 (demo_sender []) demo_receiver))) = 100.
Proof.
  pose proof (other_paths_transfer_every_file (device_on_data demo_code) demo_code 4 demo_code 7
                (demo_file []) (demo_sender []) demo_receiver 1
                [true; false; false; true]) as H.
  cbv zeta in H.
  destruct H as (_ & H2 & _ & _ & H5 & _).
  - now left.
  - lia.
  - reflexivity.
  - reflexivity.
  - reflexivity.
  - constructor.
  - reflexivity.
  - reflexivity.
  - lia.
  - vm_compute. lia.
  - split; assumption.
Defined.
